(** * OpenSBLI kernel / stencil derivation: a shallow embedding

    The development follows the Python sources file by file:

    - [python]                the few Python built-ins the code relies on
                              (exceptions, [sorted], [min], [max],
                              dictionaries in insertion order, ["%d"]
                              formatting, [','.join], [split], [cmp]);
    - [sympy]                 the fragment of SymPy expressions the code
                              inspects ([atoms], [subs], [flatten]) and the
                              values that reach [add_equation], with their
                              truth value;
    - [helperfunctions]       opensbli/utilities/helperfunctions.py;
    - [kernel]                opensbli/core/kernel.py;
    - [opsc]                  opensbli/opsc.py;
    - [autofd]                autofd/opsc.py;
    - [user_defined_kernels]  opensbli/utilities/user_defined_kernels.py.

    Module [spec] then fixes the vocabulary of the properties and the
    running examples, and the second half of the file states and proves the
    properties, one module for each subject: the dataset classifier, the
    iteration range, the two stencil orders, the relative stencil, the
    printer, the equation list, the two registries; then the halo
    requirement, the code of a kernel, the constants, the generated names,
    the registration of the fields, the helper functions, the emitter, the
    older generator and the user-defined kernels. *)

From Stdlib Require Import ZArith List Ascii String DecimalString.
From Stdlib Require DecimalZ DecimalPos.
From stdpp Require Import gmap strings list fin_maps fin_sets sorting.

Open Scope Z_scope.

(* ===================================================================== *)
(** * Python built-ins *)
(* ===================================================================== *)

Module python.

(** Exceptions raised by the code or by the built-ins it calls. *)
Inductive exn :=
| ValueError (msg : string)
| IndexError
| KeyError
| TypeError
| AttributeError.

(** A computation that returns a value or raises. *)
Inductive result (A : Type) :=
| Ok (a : A)
| Raise (e : exn).
Arguments Ok {A} a.
Arguments Raise {A} e.

Definition bind {A B} (m : result A) (f : A -> result B) : result B :=
  match m with
  | Ok a => f a
  | Raise e => Raise e
  end.

Definition raises {A} (m : result A) : Prop :=
  match m with Ok _ => False | Raise _ => True end.

(** [[f(x) for x in l]], stopping at the first exception. *)
Fixpoint for_each {A B} (f : A -> result B) (l : list A) : result (list B) :=
  match l with
  | [] => Ok []
  | x :: l' =>
      bind (f x) (fun y => bind (for_each f l') (fun ys => Ok (y :: ys)))
  end.

(** [l[i]] on a list or tuple. *)
Definition getitem {A} (l : list A) (i : nat) : result A :=
  match l !! i with
  | Some x => Ok x
  | None => Raise IndexError
  end.

(** ["%d" % z] and [str(z)] for an integer. *)
Definition str_int (z : Z) : string := NilZero.string_of_int (Z.to_int z).

(** ["%0Nd" % z]: zero padding up to [width] characters, sign included. *)
Fixpoint zeros (n : nat) : string :=
  match n with
  | O => EmptyString
  | S n' => String "0"%char (zeros n')
  end.

Definition str_int_pad0 (width : nat) (z : Z) : string :=
  let body := str_int (Z.abs z) in
  if Z.ltb z 0
  then String "-"%char (zeros (width - 1 - String.length body) +:+ body)
  else zeros (width - String.length body) +:+ body.

(** [sep.join(l)]. *)
Fixpoint join (sep : string) (l : list string) : string :=
  match l with
  | [] => EmptyString
  | [s] => s
  | s :: l' => s +:+ sep +:+ join sep l'
  end.

(** Comparison of two lists or tuples of integers: the first position where
    they differ decides; a proper prefix is smaller. *)
Fixpoint tuple_le (a b : list Z) : bool :=
  match a, b with
  | [], _ => true
  | _ :: _, [] => false
  | x :: a', y :: b' =>
      if Z.ltb x y then true
      else if Z.ltb y x then false
      else tuple_le a' b'
  end.

(** [sorted(l, key=key)].  Python's sort is stable: elements with equal keys
    keep their input order.  The result of a stable sort does not depend on
    the algorithm; here it is an insertion sort that puts an element before
    the first element of the already sorted tail whose key is not smaller. *)
Section Sorted.
Context {A K : Type} (key : A -> K) (le : K -> K -> bool).

Fixpoint insert_sorted (x : A) (l : list A) : list A :=
  match l with
  | [] => [x]
  | y :: l' =>
      if le (key x) (key y) then x :: y :: l'
      else y :: insert_sorted x l'
  end.

Definition sorted (l : list A) : list A := foldr insert_sorted [] l.
End Sorted.

(** [sorted] with a key function that may raise: Python computes the key of
    every element before it compares any two. *)
Definition sorted_by {A K} (key : A -> result K) (le : K -> K -> bool)
    (l : list A) : result (list A) :=
  bind (for_each key l)
    (fun keys => Ok (map snd (sorted fst le (zip keys l)))).

(** A dictionary whose items are kept in insertion order: [k in d] and
    [d[k]]. *)
Fixpoint dict_get {K V} `{EqDecision K} (d : list (K * V)) (k : K)
    : option V :=
  match d with
  | [] => None
  | (k', v) :: d' => if decide (k' = k) then Some v else dict_get d' k
  end.

(** [min(l)] and [max(l)] of a non-empty list of integers. *)
Definition min_list (x : Z) (l : list Z) : Z := foldl Z.min x l.
Definition max_list (x : Z) (l : list Z) : Z := foldl Z.max x l.


(** The double quote and the line feed, for the text the code writes. *)
Definition dquote : string := String "034"%char EmptyString.

(** [str(n)] for a length or a count. *)
Definition str_nat (n : nat) : string := str_int (Z.of_nat n).

(** [s.split(sep)] for a separator of one character: the pieces between the
    separators, the empty ones included; a string without a separator, the
    empty string too, is its only piece. *)
Fixpoint split (sep : ascii) (s : string) : list string :=
  match s with
  | EmptyString => [EmptyString]
  | String c s' =>
      if Ascii.eqb c sep then EmptyString :: split sep s'
      else match split sep s' with
           | [] => [String c EmptyString]
           | piece :: pieces => String c piece :: pieces
           end
  end.

(** [cmp(a, b)] on two numbers. *)
Definition cmp (a b : nat) : Z :=
  if Nat.ltb a b then -1 else if Nat.ltb b a then 1 else 0.

(** [sorted(l, cmp=c)] for a consistent comparison function [c]: stable, an
    element goes before the first element of the sorted tail that it does not
    exceed. *)
Definition sorted_cmp {A} (c : A -> A -> Z) (l : list A) : list A :=
  sorted (fun x => x) (fun x y => Z.leb (c x y) 0) l.

End python.

Import python.

Global Instance result_ret : MRet result := @Ok.
Global Instance result_bind : MBind result := fun A B f m => python.bind m f.


(* ===================================================================== *)
(** * SymPy expressions *)
(* ===================================================================== *)

Module sympy.

(** ** Index expressions

    The expressions that occur as indices of a field access: integers,
    symbols (loop variables such as [x0], or any other symbol), sums and
    products. *)
Inductive index :=
| Integer (z : Z)
| Symbol (s : string)
| Add (a b : index)
| Mul (a b : index).

Global Instance index_eq_dec : EqDecision index.
Proof. solve_decision. Defined.

Fixpoint index_to_tree (e : index) : gen_tree (Z + string) :=
  match e with
  | Integer z => GenLeaf (inl z)
  | Symbol s => GenLeaf (inr s)
  | Add a b => GenNode 0 [index_to_tree a; index_to_tree b]
  | Mul a b => GenNode 1 [index_to_tree a; index_to_tree b]
  end.

Fixpoint tree_to_index (t : gen_tree (Z + string)) : index :=
  match t with
  | GenLeaf (inl z) => Integer z
  | GenLeaf (inr s) => Symbol s
  | GenNode 0 [a; b] => Add (tree_to_index a) (tree_to_index b)
  | GenNode 1 [a; b] => Mul (tree_to_index a) (tree_to_index b)
  | GenNode _ _ => Integer 0
  end.

Global Instance index_countable : Countable index.
Proof.
  apply (inj_countable' index_to_tree tree_to_index).
  induction x as [| |a IHa b IHb|a IHa b IHb]; simpl; congruence.
Defined.

(** [e.atoms(Symbol)]. *)
Fixpoint atoms_Symbol (e : index) : gset string :=
  match e with
  | Integer _ => ∅
  | Symbol s => {[ s ]}
  | Add a b | Mul a b => atoms_Symbol a ∪ atoms_Symbol b
  end.

(** [e.atoms(Integer)]. *)
Fixpoint atoms_Integer (e : index) : gset Z :=
  match e with
  | Integer z => {[ z ]}
  | Symbol _ => ∅
  | Add a b | Mul a b => atoms_Integer a ∪ atoms_Integer b
  end.

(** SymPy evaluates a sum or a product when it is built: numbers are
    combined, [0 + e] is [e], [0 * e] is [0] and [1 * e] is [e]. *)
Definition mk_Add (a b : index) : index :=
  match a, b with
  | Integer x, Integer y => Integer (x + y)
  | Integer 0, _ => b
  | _, Integer 0 => a
  | _, _ => Add a b
  end.

Definition mk_Mul (a b : index) : index :=
  match a, b with
  | Integer x, Integer y => Integer (x * y)
  | Integer 0, _ => Integer 0
  | _, Integer 0 => Integer 0
  | Integer 1, _ => b
  | _, Integer 1 => a
  | _, _ => Mul a b
  end.

(** [e.subs(a, r)]: replace the symbol [a] by [r] and rebuild. *)
Fixpoint subs (a : string) (r : index) (e : index) : index :=
  match e with
  | Integer z => Integer z
  | Symbol s => if decide (s = a) then r else Symbol s
  | Add x y => mk_Add (subs a r x) (subs a r y)
  | Mul x y => mk_Mul (subs a r x) (subs a r y)
  end.

(** The number an expression denotes when every symbol is 0. *)
Fixpoint value (e : index) : Z :=
  match e with
  | Integer z => z
  | Symbol _ => 0
  | Add a b => value a + value b
  | Mul a b => value a * value b
  end.

(** An expression as SymPy holds it: nothing left to evaluate. *)
Fixpoint canonical (e : index) : bool :=
  match e with
  | Integer _ | Symbol _ => true
  | Add a b =>
      canonical a && canonical b && bool_decide (mk_Add a b = Add a b)
  | Mul a b =>
      canonical a && canonical b && bool_decide (mk_Mul a b = Mul a b)
  end.

(** ** Numbers

    [Integer] is a subclass of [Rational]: an integer is a [Rational]
    instance too.  [Frac p q] is a rational that is not an integer, in
    lowest terms. *)
Inductive number :=
| Int (p : Z)
| Frac (p q : Z).

Global Instance number_eq_dec : EqDecision number.
Proof. solve_decision. Defined.

Global Instance number_countable : Countable number.
Proof.
  apply (inj_countable'
           (fun n => match n with Int p => inl p | Frac p q => inr (p, q) end)
           (fun s => match s with inl p => Int p | inr (p, q) => Frac p q end)).
  by intros [].
Defined.

(** The constructor [Rational(p, q)]: lowest terms, positive denominator,
    and an [Integer] when the denominator becomes 1. *)
Definition Rational (p q : Z) : number :=
  let g := Z.gcd p q in
  let p' := Z.sgn q * (p / g) in
  let q' := Z.abs q / g in
  if Z.eqb q' 1 then Int p' else Frac p' q'.

Definition isinstance_Integer (n : number) : bool :=
  match n with Int _ => true | Frac _ _ => false end.

(** ** Expressions on the two sides of an equation *)
Inductive expr :=
| Number (n : number)
| Const (s : string)
| DataSet (base : string) (indices : list index)
| EAdd (a b : expr)
| EMul (a b : expr)
| EPow (a b : expr).

Record Equality := { lhs : expr; rhs : expr }.

(** [e.atoms(DataSetBase)]: the bases of the field accesses in [e]
    (for the older sources: the base labels of [e.atoms(Indexed)]). *)
Fixpoint atoms_DataSetBase (e : expr) : gset string :=
  match e with
  | Number _ | Const _ => ∅
  | DataSet base _ => {[ base ]}
  | EAdd a b | EMul a b | EPow a b =>
      atoms_DataSetBase a ∪ atoms_DataSetBase b
  end.

(** [e.atoms(DataSet)]: the field accesses, base and indices. *)
Fixpoint atoms_DataSet (e : expr) : gset (string * list index) :=
  match e with
  | Number _ | Const _ => ∅
  | DataSet base indices => {[ (base, indices) ]}
  | EAdd a b | EMul a b | EPow a b => atoms_DataSet a ∪ atoms_DataSet b
  end.

(** [e.atoms(Rational)]: every number in [e], the integers included, and
    the integers inside the indices of a field access as well. *)
Fixpoint atoms_Rational (e : expr) : gset number :=
  match e with
  | Number n => {[ n ]}
  | Const _ => ∅
  | DataSet _ indices =>
      ⋃ (map (fun i => set_map Int (atoms_Integer i)) indices)
  | EAdd a b | EMul a b | EPow a b => atoms_Rational a ∪ atoms_Rational b
  end.

(** ** Python values that reach [Kernel.add_equation] *)
#[warnings="-register-all"]
Inductive object :=
| PyNone
| PyInt (z : Z)
| PyStr (s : string)
| PyEq (e : Equality)
| PyList (l : list object).

(** [flatten(l)]: nested lists are spliced in, depth first, in order. *)
Fixpoint flatten_object (o : object) : list object :=
  match o with
  | PyList l => List.flat_map flatten_object l
  | _ => [o]
  end.
Definition flatten (l : list object) : list object :=
  List.flat_map flatten_object l.

(** [bool(o)].  A SymPy relational has no truth value. *)
Definition truth (o : object) : result bool :=
  match o with
  | PyNone => Ok false
  | PyInt z => Ok (negb (Z.eqb z 0))
  | PyStr s => Ok (negb (bool_decide (s = EmptyString)))
  | PyEq _ => Raise TypeError
  | PyList l => Ok (negb (bool_decide (l = [])))
  end.

End sympy.

Import sympy.


(* ===================================================================== *)
(** * opensbli/utilities/helperfunctions.py *)
(* ===================================================================== *)

Module helperfunctions.

(** Modelled from the spec: the class of the halo-extent contributors kept in
    a kernel's [halo_ranges] is not among the sources; the code only calls
    [get_halos(side)] on them, with side 0 for the negative side and side 1
    for the positive side.  A contributor is the pair of its two extents. *)
Record SchemeHalos := { halo_minus : Z; halo_plus : Z }.

Global Instance SchemeHalos_eq_dec : EqDecision SchemeHalos.
Proof. solve_decision. Defined.

Definition get_halos (d : SchemeHalos) (side : nat) : Z :=
  match side with
  | O => halo_minus d
  | _ => halo_plus d
  end.

(** The halo requirement of one direction: the contributor set of the
    negative side and the one of the positive side.  A Python set is a list
    in its iteration order. *)
Abbreviation halo_pair := (list SchemeHalos * list SchemeHalos)%type.

(** [min(hal)] if the set is not empty, else 0. *)
Definition halo_min (s : list SchemeHalos) : Z :=
  match map (fun d => get_halos d 0) s with
  | [] => 0
  | h :: hal => min_list h hal
  end.

(** [max(hal)] if the set is not empty, else 0. *)
Definition halo_max (s : list SchemeHalos) : Z :=
  match map (fun d => get_halos d 1) s with
  | [] => 0
  | h :: hal => max_list h hal
  end.

Definition get_min_max_halo_values (halos : list halo_pair)
    : list Z * list Z :=
  foldl (fun '(halo_m, halo_p) direction =>
           (halo_m ++ [halo_min direction.1], halo_p ++ [halo_max direction.2]))
        ([], []) halos.


(** ** [dot]

    The arguments are numbers or lists of numbers, here over the integers.
    A number times a list is Python's repetition of the list. *)
Inductive operand :=
| Num (z : Z)
| Vec (l : list Z).

Definition dot (v1 v2 : operand) : result operand :=
  match v1 with
  | Vec l1 =>
      match v2 with
      | Vec l2 =>
          if bool_decide (length l1 = length l2)
          then
            out ← foldl (fun out i =>
                           out ← out;
                           a ← getitem l1 i; b ← getitem l2 i;
                           Ok (out + a * b))
                        (Ok 0) (seq 0 (length l1));
            Ok (Num out)
          else Raise (ValueError "")
      | Num _ => Raise TypeError
      end
  | Num a =>
      match v2 with
      | Num b => Ok (Num (a * b))
      | Vec l2 => Ok (Vec (concat (replicate (Z.to_nat a) l2)))
      end
  end.

(** ** [sort_funcitons]

    Modelled from the spec: the class of the coordinate objects is not among
    the sources; [coordinates s] stands for [len(s.atoms(CoordinateObject))],
    the number of coordinates the function [s] depends on. *)
Section sort_functions.
Context {A : Type} (coordinates : A -> nat).

Definition decreasing_order (s1 s2 : A) : Z :=
  cmp (coordinates s2) (coordinates s1).

Definition increasing_order (s1 s2 : A) : Z :=
  cmp (coordinates s1) (coordinates s2).

(** What a caller passes for the parameter [increasing_order]: a truth value,
    or one of the two comparison functions of the module. *)
Inductive order_flag :=
| PyTrue
| PyFalse
| increasing
| decreasing.

(** [sort_funcitons(fns, increasing_order=True)].  Inside the function the
    name [increasing_order] is the parameter: that is what [sorted] is given
    for [cmp].  A truth value cannot be called; [sorted] calls [cmp] as soon
    as there are two elements to compare. *)
Definition sort_funcitons (fns : list A) (flag : order_flag)
    : result (list A) :=
  match flag with
  | PyFalse => Ok (sorted_cmp decreasing_order fns)
  | PyTrue =>
      if Nat.ltb (length fns) 2 then Ok fns else Raise TypeError
  | increasing => Ok (sorted_cmp increasing_order fns)
  | decreasing => Ok (sorted_cmp decreasing_order fns)
  end.
End sort_functions.

End helperfunctions.

Import helperfunctions.

(* ===================================================================== *)
(** * opensbli/core/kernel.py *)
(* ===================================================================== *)

Module kernel.

(** ** Program state

    A field (a [DataSetBase]) is identified by its label: SymPy's equality
    and hash, on which the sets, the [in] tests and the [str(d)] keys of the
    code rely, see nothing else.  The attributes the code attaches to a field
    object live in a store indexed by the label. *)
Record attributes := {
  block_number : option Z;
  read_from_hdf5 : bool;
  dtype : option string;
  size : option (list Z);
  halo_ranges : option (list halo_pair);
  block_name : option string
}.

(** [dataset_attributes(dset)]: every attribute is reset. *)
Definition dataset_attributes : attributes :=
  {| block_number := None; read_from_hdf5 := false; dtype := None;
     size := None; halo_ranges := None; block_name := None |}.

(** [DataSetsToDeclare.datasetbases] and the attributes of the field
    objects. *)
Record World := {
  datasetbases : list string;
  objects : gmap string attributes
}.

Record StencilObject := {
  name : string;
  stencil : gset (list index);
  stencil_ndim : nat
}.

(** Modelled from the spec: the block class is not among the sources; these
    are the attributes the kernel reads ([blocknumber], [ndim], [blockname],
    [shape], [ranges], [kernel_counter], [get_all_scheme_halos()]) and the
    two registries it updates.  [block_stencils] is a dictionary keyed by the
    frozen footprint; its items are kept in insertion order. *)
Record Block := {
  blocknumber : Z;
  ndim : nat;
  blockname : string;
  shape : list Z;
  ranges : list (Z * Z);
  kernel_counter : Z;
  get_all_scheme_halos : list SchemeHalos;
  block_datasets : gmap string string;
  block_stencils : list (gset (list index) * StencilObject)
}.

(** ** [StencilObject.sort_stencil_indices]

    [index_set] is the stencil in its iteration order; [val] reads an offset
    as the integer it is. *)
Definition StencilObject_sort_stencil_indices {A} (val : A -> Z)
    (index_set : list (list A)) : result (list (list A)) :=
  first ← getitem index_set 0%nat;
  let dim := length first in
  sorted_by
    (fun tup => for_each (fun i => v ← getitem tup i; Ok (val v)) (seq 0 dim))
    tuple_le index_set.

(** ** [Kernel] *)
Record Kernel := {
  k_block_number : Z;
  k_ndim : nat;
  k_block_name : string;
  computation_name : option string;
  kernel_no : Z;
  kernelname : string;
  equations : list object;
  k_halo_ranges : list halo_pair;
  k_ranges : option (list (Z * Z));
  stencil_names : option (gmap string string)
}.

(** [Kernel.__init__(block, computation_name)]. *)
Definition init (block : Block) (computation_name : option string) : Kernel :=
  {| k_block_number := blocknumber block;
     k_ndim := ndim block;
     k_block_name := blockname block;
     computation_name := computation_name;
     kernel_no := kernel_counter block;
     kernelname :=
       blockname block +:+ "Kernel" +:+ str_int_pad0 3 (kernel_counter block);
     equations := [];
     k_halo_ranges := replicate (ndim block) ([], []);
     k_ranges := None;
     stencil_names := None |}.

Definition set_equations (self : Kernel) (eqs : list object) : Kernel :=
  {| k_block_number := k_block_number self; k_ndim := k_ndim self;
     k_block_name := k_block_name self;
     computation_name := computation_name self;
     kernel_no := kernel_no self; kernelname := kernelname self;
     equations := eqs;
     k_halo_ranges := k_halo_ranges self; k_ranges := k_ranges self;
     stencil_names := stencil_names self |}.

Definition set_halo_ranges (self : Kernel) (h : list halo_pair) : Kernel :=
  {| k_block_number := k_block_number self; k_ndim := k_ndim self;
     k_block_name := k_block_name self;
     computation_name := computation_name self;
     kernel_no := kernel_no self; kernelname := kernelname self;
     equations := equations self;
     k_halo_ranges := h; k_ranges := k_ranges self;
     stencil_names := stencil_names self |}.

Definition set_ranges (self : Kernel) (r : list (Z * Z)) : Kernel :=
  {| k_block_number := k_block_number self; k_ndim := k_ndim self;
     k_block_name := k_block_name self;
     computation_name := computation_name self;
     kernel_no := kernel_no self; kernelname := kernelname self;
     equations := equations self;
     k_halo_ranges := k_halo_ranges self; k_ranges := Some r;
     stencil_names := stencil_names self |}.

Definition set_stencil_names (self : Kernel) (n : gmap string string)
    : Kernel :=
  {| k_block_number := k_block_number self; k_ndim := k_ndim self;
     k_block_name := k_block_name self;
     computation_name := computation_name self;
     kernel_no := kernel_no self; kernelname := kernelname self;
     equations := equations self;
     k_halo_ranges := k_halo_ranges self; k_ranges := k_ranges self;
     stencil_names := Some n |}.

(** [Kernel.add_equation(equation)]. *)
Definition add_equation (self : Kernel) (equation : object) : result Kernel :=
  match equation with
  | PyList _ =>
      Ok (set_equations self (equations self ++ flatten [equation]))
  | PyEq _ =>
      Ok (set_equations self (equations self ++ [equation]))
  | _ =>
      t ← truth equation;
      if t : bool then Ok self
      else Raise (ValueError "Error in kernel add equation.")
  end.

(** [Kernel.set_grid_range(block)]. *)
Definition set_grid_range (self : Kernel) (block : Block) : Kernel :=
  set_ranges self (ranges block).

(** [Kernel.set_halo_range(direction, side, types)]; [types] is a set of
    contributors or a single one. *)
Definition set_halo_range (self : Kernel) (direction side : nat)
    (types : list SchemeHalos + SchemeHalos) : result Kernel :=
  h ← getitem (k_halo_ranges self) direction;
  let new := match types with inl s => s | inr t => [t] end in
  let add (old : list SchemeHalos) := list_union old new in
  match side with
  | 0%nat =>
      Ok (set_halo_ranges self
            (<[direction := (add h.1, h.2)]> (k_halo_ranges self)))
  | 1%nat =>
      Ok (set_halo_ranges self
            (<[direction := (h.1, add h.2)]> (k_halo_ranges self)))
  | _ => Raise IndexError
  end.

(** [Kernel.lhs_datasets] and [Kernel.rhs_datasets]. *)
Definition lhs_datasets (self : Kernel) : gset string :=
  foldl (fun datasets eq =>
           match eq with
           | PyEq e => datasets ∪ atoms_DataSetBase (lhs e)
           | _ => datasets
           end) ∅ (equations self).

Definition rhs_datasets (self : Kernel) : gset string :=
  foldl (fun datasets eq =>
           match eq with
           | PyEq e => datasets ∪ atoms_DataSetBase (rhs e)
           | _ => datasets
           end) ∅ (equations self).

(** [Kernel.Rational_constants]. *)
Definition Rational_constants (self : Kernel) : gset number :=
  let rcs :=
    foldl (fun rcs eq =>
             match eq with
             | PyEq e => rcs ∪ (atoms_Rational (lhs e) ∪ atoms_Rational (rhs e))
             | _ => rcs
             end) ∅ (equations self) in
  filter (fun rc => isinstance_Integer rc = false) rcs.

(** [Kernel.get_stencils()]: for every field base the frozen set of the
    index tuples it is accessed with. *)
Definition get_stencils (self : Kernel) : gmap string (gset (list index)) :=
  let datasets : gset (string * list index) :=
    foldl (fun datasets eq =>
             match eq with
             | PyEq e => datasets ∪ (atoms_DataSet (lhs e) ∪ atoms_DataSet (rhs e))
             | _ => datasets
             end) ∅ (equations self) in
  set_fold (fun s (stencil_dictionary : gmap string (gset (list index))) =>
              match stencil_dictionary !! s.1 with
              | Some val => <[s.1 := val ∪ {[ s.2 ]}]> stencil_dictionary
              | None => <[s.1 := {[ s.2 ]}]> stencil_dictionary
              end) ∅ datasets.

(** ** [Kernel.opsc_code]

    The classification of the fields, the range of evaluation and the
    declaration of the iteration range, as [opsc_code] computes them before
    it assembles the call. *)
Definition opsc_code_datasets (self : Kernel)
    : gset string * gset string * gset string :=
  let ins := rhs_datasets self in
  let outs := lhs_datasets self in
  let inouts := ins ∩ outs in
  let ins := ins ∖ inouts in
  let outs := outs ∖ inouts in
  (ins, outs, inouts).

Definition range_of_eval (self : Kernel) : result (list (Z * Z)) :=
  let '(halo_m, halo_p) := get_min_max_halo_values (k_halo_ranges self) in
  for_each
    (fun d =>
       ranges ← match k_ranges self with
                | Some r => Ok r
                | None => Raise AttributeError
                end;
       r ← getitem ranges d;
       m ← getitem halo_m d;
       p ← getitem halo_p d;
       Ok (r.1 + m, r.2 + p))
    (seq 0 (k_ndim self)).

Definition iter_name_code (self : Kernel) : result string :=
  range ← range_of_eval self;
  let flat := List.flat_map (fun r : Z * Z => [r.1; r.2]) range in
  Ok ("int iteration_range_" +:+ str_int (kernel_no self) +:+ "[] = {"
      +:+ join ", " (map str_int flat) +:+ "};").

(** ** [Kernel.update_block_datasets] *)
Definition new_attributes (block : Block) : attributes :=
  {| block_number := Some (blocknumber block);
     read_from_hdf5 := false;
     dtype := None;
     size := Some (shape block);
     halo_ranges :=
       Some (replicate (ndim block)
               (get_all_scheme_halos block, get_all_scheme_halos block));
     block_name := Some (blockname block) |}.

Definition set_block_datasets (block : Block) (d : gmap string string)
    : Block :=
  {| blocknumber := blocknumber block; ndim := ndim block;
     blockname := blockname block; shape := shape block;
     ranges := ranges block; kernel_counter := kernel_counter block;
     get_all_scheme_halos := get_all_scheme_halos block;
     block_datasets := d; block_stencils := block_stencils block |}.

Definition set_block_stencils (block : Block)
    (s : list (gset (list index) * StencilObject)) : Block :=
  {| blocknumber := blocknumber block; ndim := ndim block;
     blockname := blockname block; shape := shape block;
     ranges := ranges block; kernel_counter := kernel_counter block;
     get_all_scheme_halos := get_all_scheme_halos block;
     block_datasets := block_datasets block; block_stencils := s |}.

(** The body of the loop [for d in dsets].  The state reached is returned
    also when the body raises: what was written before stays written. *)
Definition register_dataset (d : string) (st : World * Block)
    : World * Block * result unit :=
  let '(w, block) := st in
  let w1 :=
    if bool_decide (d ∈ datasetbases w) then w
    else {| datasetbases := datasetbases w ++ [d];
            objects := <[d := new_attributes block]> (objects w) |} in
  match block_datasets block !! d with
  | Some dset =>
      match objects w1 !! dset with
      | None => (w1, block, Raise AttributeError)
      | Some a =>
          if bool_decide (Some (blocknumber block) ≠ block_number a)
          then (w1, block, Raise (ValueError "Block number error"))
          else if bool_decide (Some (shape block) ≠ size a)
          then (w1, block, Raise (ValueError "Shape error"))
          else (w1, block, Ok ())
      end
  | None =>
      ({| datasetbases := datasetbases w1;
          objects := <[d := new_attributes block]> (objects w1) |},
       set_block_datasets block (<[d := d]> (block_datasets block)),
       Ok ())
  end.

Fixpoint register_datasets (dsets : list string) (st : World * Block)
    : World * Block * result unit :=
  match dsets with
  | [] => (st, Ok ())
  | d :: dsets' =>
      match register_dataset d st with
      | (w, block, Ok _) => register_datasets dsets' (w, block)
      | (w, block, Raise e) => (w, block, Raise e)
      end
  end.

(** ['stencil_%d_%02d' % (block.blocknumber, len(block.block_stencils))]. *)
Definition stencil_name (block : Block) : string :=
  "stencil_" +:+ str_int (blocknumber block) +:+ "_"
  +:+ str_int_pad0 2 (Z.of_nat (length (block_stencils block))).

(** The body of the loop [for dset, stencil in stens.iteritems()]. *)
Definition resolve_stencil (item : string * gset (list index))
    (st : Block * gmap string string)
    : Block * gmap string string * result unit :=
  let '(dset, stencil) := item in
  let '(block, names) := st in
  let block1 :=
    match dict_get (block_stencils block) stencil with
    | Some _ => block
    | None =>
        set_block_stencils block
          (block_stencils block
           ++ [(stencil, {| name := stencil_name block; stencil := stencil;
                            stencil_ndim := ndim block |})])
    end in
  match dict_get (block_stencils block1) stencil with
  | None => (block1, names, Raise KeyError)
  | Some so =>
      match names !! dset with
      | None => (block1, <[dset := name so]> names, Ok ())
      | Some _ => (block1, names, Raise AttributeError)
      end
  end.

Fixpoint resolve_stencils (stens : list (string * gset (list index)))
    (st : Block * gmap string string)
    : Block * gmap string string * result unit :=
  match stens with
  | [] => (st, Ok ())
  | item :: stens' =>
      match resolve_stencil item st with
      | (block, names, Ok _) => resolve_stencils stens' (block, names)
      | (block, names, Raise e) => (block, names, Raise e)
      end
  end.

(** [Kernel.update_stencils(block)]. *)
Definition update_stencils (self : Kernel) (block : Block)
    : Block * Kernel * result unit :=
  let stens := get_stencils self in
  match resolve_stencils (map_to_list stens) (block, ∅) with
  | (block', names, r) => (block', set_stencil_names self names, r)
  end.

(** [Kernel.update_block_datasets(block)]. *)
Definition update_block_datasets (self : Kernel) (w : World) (block : Block)
    : World * Block * Kernel * result unit :=
  let dsets := lhs_datasets self ∪ rhs_datasets self in
  match register_datasets (elements dsets) (w, block) with
  | (w1, block1, Raise e) =>
      (w1, block1, set_stencil_names self ∅, Raise e)
  | (w1, block1, Ok _) =>
      match update_stencils self block1 with
      | (block2, self', r) => (w1, block2, self', r)
      end
  end.


(** ** [ConstantsToDeclare] *)

(** Modelled from the spec: the data type classes are not among the sources.
    [SimulationDataType()] is the default type; another data type is given
    by its name.  A data type object is true, as is any Python object that
    defines neither a length nor a truth value. *)
Inductive datatype :=
| SimulationDataType
| DataType (type_name : string).

(** The attributes the code attaches to a constant. *)
Record constant_attrs := {
  is_input : bool;
  const_dtype : option datatype;
  const_value : object
}.

(** [constant_attributes(const)]: every attribute is reset. *)
Definition constant_attributes : constant_attrs :=
  {| is_input := true; const_dtype := None; const_value := PyNone |}.

(** [ConstantsToDeclare.constants] and the attributes of the constant
    objects; a constant is identified by its name, as a field is by its
    label. *)
Record Constants := {
  constants : list string;
  constant_objects : gmap string constant_attrs
}.

(** [ConstantsToDeclare.add_constant(const, value=None, dtype=None)]. *)
Definition add_constant (const : string) (value : object)
    (dtype : option datatype) (C : Constants) : Constants * result unit :=
  match truth value with
  | Raise e => (C, Raise e)
  | Ok has_value =>
      let dtype' :=
        match dtype with
        | Some t => t
        | None => SimulationDataType
        end in
      if has_value && bool_decide (const ∉ constants C) then
        let c := {| is_input := false; const_dtype := Some dtype';
                    const_value := value |} in
        ({| constants := constants C ++ [const];
            constant_objects := <[const := c]> (constant_objects C) |},
         Ok ())
      else if bool_decide (const ∉ constants C) then
        let c := {| is_input := true; const_dtype := Some dtype';
                    const_value := PyNone |} in
        ({| constants := constants C ++ [const];
            constant_objects := <[const := c]> (constant_objects C) |},
         Ok ())
      else (C, Ok ())
  end.

(** ** More of [Kernel] *)

(** [Kernel.set_computation_name(name)]. *)
Definition set_computation_name (self : Kernel) (name : string) : Kernel :=
  {| k_block_number := k_block_number self; k_ndim := k_ndim self;
     k_block_name := k_block_name self;
     computation_name := Some name;
     kernel_no := kernel_no self; kernelname := kernelname self;
     equations := equations self;
     k_halo_ranges := k_halo_ranges self; k_ranges := k_ranges self;
     stencil_names := stencil_names self |}.

(** [Kernel.set_grid_range_to_zero(block)]. *)
Definition set_grid_range_to_zero (self : Kernel) (block : Block) : Kernel :=
  set_ranges self (replicate (ndim block) (0, 0)).

(** [Kernel.merge_halo_range(halo_range)].  The requirement is merged one
    direction after the other, in place: the state reached is returned also
    when a direction is missing in [halo_range]. *)
Fixpoint merge_directions (directions : list nat) (self : Kernel)
    (halo_range : list halo_pair) : Kernel * result unit :=
  match directions with
  | [] => (self, Ok ())
  | direction :: directions' =>
      match k_halo_ranges self !! direction, halo_range !! direction with
      | Some mine, Some other =>
          merge_directions directions'
            (set_halo_ranges self
               (<[direction := (list_union mine.1 other.1,
                                list_union mine.2 other.2)]>
                  (k_halo_ranges self)))
            halo_range
      | _, _ => (self, Raise IndexError)
      end
  end.

Definition merge_halo_range (self : Kernel) (halo_range : list halo_pair)
    : Kernel * result unit :=
  merge_directions (seq 0 (length (k_halo_ranges self))) self halo_range.

(** [Kernel.required_data_sets]. *)
Definition required_data_sets (self : Kernel) : list string :=
  foldl (fun requires eq =>
           match eq with
           | PyEq e => requires ++ elements (atoms_DataSetBase (rhs e))
           | _ => requires
           end) [] (equations self).






End kernel.

(* ===================================================================== *)
(** * opensbli/opsc.py *)
(* ===================================================================== *)

Module opsc.

(** ** [OPSCCodePrinter] *)

(** Modelled from the spec: the methods [OPSCCodePrinter] inherits from
    SymPy's [CCodePrinter] are not among the sources.  They are parameters:
    how a sum, a product and a power are laid out from the printed operands,
    and how an index expression that is neither an integer nor a symbol is
    printed. *)
Record CCodePrinter := {
  format_Add : expr -> string -> string -> string;
  format_Mul : expr -> string -> string -> string;
  format_Pow : expr -> string -> string -> string;
  print_compound_index : index -> string
}.

(** An [Indexed] object: the label of its base and its indices. *)
Record Indexed := { base : index; indices : list index }.

(** [Indexed_accs]: Python's [None], or a dictionary from an indexed base to
    its access tag, a string or [None]. *)
Definition Indexed_accs : Type := option (gmap index (option string)).

Definition tag_truth (tag : option string) : bool :=
  match tag with
  | None => false
  | Some s => negb (bool_decide (s = EmptyString))
  end.

Definition str_tag (tag : option string) : string :=
  match tag with
  | None => "None"
  | Some s => s
  end.

(** [OPSCCodePrinter._print_Rational(expr)]. *)
Definition _print_Rational (p q : Z) : string :=
  str_int p +:+ ".0/" +:+ str_int q +:+ ".0".

(** The printer's dispatch on a number goes by the most specific class: an
    [Integer] is printed by the inherited [_print_Integer], any other
    [Rational] by [_print_Rational]. *)
Definition _print_number (n : number) : string :=
  match n with
  | Int p => str_int p
  | Frac p q => _print_Rational p q
  end.

Definition _print_index (P : CCodePrinter) (e : index) : string :=
  match e with
  | Integer z => str_int z
  | Symbol s => s
  | _ => print_compound_index P e
  end.

(** [expr.subs({x: 0})] on an [Indexed]. *)
Definition Indexed_subs (x : string) (e : Indexed) : Indexed :=
  {| base := subs x (Integer 0) (base e);
     indices := map (subs x (Integer 0)) (indices e) |}.

(** [self.Indexed_accs[expr.base]]. *)
Definition accs_getitem (accs : Indexed_accs) (b : index)
    : result (option string) :=
  match accs with
  | None => Raise TypeError
  | Some d =>
      match d !! b with
      | Some tag => Ok tag
      | None => Raise KeyError
      end
  end.

Definition tagged_form (P : CCodePrinter) (tag : option string)
    (e : Indexed) : string :=
  _print_index P (base e) +:+ "[" +:+ str_tag tag +:+ "("
  +:+ join "," (map (_print_index P) (indices e)) +:+ ")]".

Definition untagged_form (P : CCodePrinter) (e : Indexed) : string :=
  _print_index P (base e) +:+ "["
  +:+ join "," (map (_print_index P) (indices e)) +:+ "]".

(** [OPSCCodePrinter._print_Indexed(expr)]. *)
Definition _print_Indexed (P : CCodePrinter) (accs : Indexed_accs)
    (e : Indexed) : result string :=
  let symbols :=
    List.flat_map (fun i => elements (atoms_Symbol i)) (indices e) in
  let e := foldl (fun e x => Indexed_subs x e) e symbols in
  tag ← accs_getitem accs (base e);
  if tag_truth tag
  then Ok (tagged_form P tag e)
  else Ok (untagged_form P e).

(** The printer on the side of an equation. *)
Fixpoint _print (P : CCodePrinter) (accs : Indexed_accs) (e : expr)
    : result string :=
  match e with
  | Number n => Ok (_print_number n)
  | Const s => Ok s
  | DataSet b idx => _print_Indexed P accs {| base := Symbol b; indices := idx |}
  | EAdd a b =>
      sa ← _print P accs a; sb ← _print P accs b; Ok (format_Add P e sa sb)
  | EMul a b =>
      sa ← _print P accs a; sb ← _print P accs b; Ok (format_Mul P e sa sb)
  | EPow a b =>
      sa ← _print P accs a; sb ← _print P accs b; Ok (format_Pow P e sa sb)
  end.

(** [ccode(expr, Indexed_accs=None, constants=None)]; [expr] is an equation
    or an expression. *)
Definition ccode (P : CCodePrinter) (e : Equality + expr)
    (accs : Indexed_accs) : result string :=
  match e with
  | inl eq =>
      l ← _print P accs (lhs eq);
      r ← _print P accs (rhs eq);
      Ok (l +:+ " = " +:+ r)
  | inr e => _print P accs e
  end.

(** ** [OPSC]: the stencil registry *)

(** [OPSC.sort_stencil_indices(indexes)]. *)
Fixpoint sort_dimensions (dims : list nat) (indexes : list (list Z))
    : result (list (list Z)) :=
  match dims with
  | [] => Ok indexes
  | dim :: dims' =>
      indexes ← sorted_by (fun t => getitem t dim) Z.leb indexes;
      sort_dimensions dims' indexes
  end.

Definition sort_stencil_indices (indexes : list (list Z))
    : result (list Z) :=
  first ← getitem indexes 0%nat;
  if Nat.ltb 1 (length first)
  then
    indexes ← sort_dimensions (seq 0 (length first)) indexes;
    Ok (concat indexes)
  else
    Ok (concat (sorted (fun t => t) tuple_le indexes)).

(** The inner loop of [relative_stencil]: every symbol of [v] becomes 0. *)
Definition zero_symbols (v : index) : index :=
  foldl (fun outv a => subs a (Integer 0) outv) v (elements (atoms_Symbol v)).

(** The access descriptor of a field: one index tuple, or a list of them. *)
Inductive access :=
| One (va : list index)
| Many (value : list (list index)).

(** [OPSC.relative_stencil(value)].  What is left of an index once its
    symbols are 0 is a number; it is kept as the integer it is. *)
Definition relative_stencil (value : access) : result (list Z) :=
  let value :=
    match value with
    | Many l => l
    | One va => [va]
    end in
  let retun_val :=
    map (fun va => map (fun v => sympy.value (zero_symbols v)) va) value in
  sort_stencil_indices retun_val.

(** [OPSC.lsit_to_string(inlist)]. *)
Definition lsit_to_string (inlist : list Z) : string :=
  join "," (map str_int inlist).

(** The registry: [stencil_dictionary], with its items in insertion order,
    and [stencil_number]. *)
Record OPSC := {
  stencil_dictionary : list (string * string);
  stencil_number : Z
}.

(** ['stencil%d' % self.stencil_number]. *)
Definition stencil_name (self : OPSC) : string :=
  "stencil" +:+ str_int (stencil_number self).

(** Modelled from the spec: the computation class is not among the sources.
    A computation has three dictionaries, [inputs], [outputs] and
    [inputoutput], from a field to its access descriptor; a field has a label
    and says whether it is grid based. *)
Record field := { label : string; is_grid : bool }.

Record Computation := {
  inputs : list (field * access);
  outputs : list (field * access);
  inputoutput : list (field * access)
}.

(** The body of the loops of [get_stencils]. *)
Definition get_stencil (item : field * access)
    (st : OPSC * gmap string string)
    : OPSC * gmap string string * result unit :=
  let '(key, value) := item in
  let '(self, stencils) := st in
  if is_grid key then
    match relative_stencil value with
    | Raise e => (self, stencils, Raise e)
    | Ok sten =>
        let stencil := lsit_to_string sten in
        let self1 :=
          match dict_get (stencil_dictionary self) stencil with
          | Some _ => self
          | None =>
              {| stencil_dictionary :=
                   stencil_dictionary self ++ [(stencil, stencil_name self)];
                 stencil_number := stencil_number self + 1 |}
          end in
        match dict_get (stencil_dictionary self1) stencil with
        | Some n => (self1, <[label key := n]> stencils, Ok ())
        | None => (self1, stencils, Raise KeyError)
        end
    end
  else (self, stencils, Ok ()).

Fixpoint get_stencils_loop (items : list (field * access))
    (st : OPSC * gmap string string)
    : OPSC * gmap string string * result unit :=
  match items with
  | [] => (st, Ok ())
  | item :: items' =>
      match get_stencil item st with
      | (self, stencils, Ok _) => get_stencils_loop items' (self, stencils)
      | (self, stencils, Raise e) => (self, stencils, Raise e)
      end
  end.

(** [OPSC.get_stencils(computation)]: the registry afterwards and the
    stencil name of every grid-based field. *)
Definition get_stencils (self : OPSC) (computation : Computation)
    : OPSC * result (gmap string string) :=
  let dicts :=
    inputs computation ++ outputs computation ++ inputoutput computation in
  match get_stencils_loop dicts (self, ∅) with
  | (self', stencils, Ok _) => (self', Ok stencils)
  | (self', _, Raise e) => (self', Raise e)
  end.


(** ** More of [OPSC] *)

(** [initialise_ops_parameters], for the stencil registry: no stencil yet,
    and the next stencil number is 0. *)
Definition initialise_stencils : OPSC :=
  {| stencil_dictionary := []; stencil_number := 0 |}.

(** The exceptions of the emitter besides those above: its own
    [AlgorithmError], and two built-in ones it raises or runs into. *)
Inductive error :=
| AlgorithmError (msg : string)
| NotImplementedError (msg : string)
| ZeroDivisionError.

(** [OPSC.listvar(var)]; [var] is a list or any other object. *)
Definition listvar {A} (var : A + list A) : list A :=
  match var with
  | inr l => l
  | inl x => [x]
  end.

(** [OPSC.check_consistency(...)]: the six inputs as lists, or the error of
    the first one whose length is not that of the grid. *)
Definition check_consistency {G S T B I O : Type}
    (grid : G + list G) (spatial_discretisation : S + list S)
    (temporal_discretisation : T + list T) (boundary : B + list B)
    (initial_conditions : I + list I) (IO : O + list O)
    : error + (list G * list S * list T * list B * list I * list O) :=
  let grid := listvar grid in
  let len := length grid in
  let spatial_discretisation := listvar spatial_discretisation in
  if bool_decide (length spatial_discretisation ≠ len) then
    inl (AlgorithmError "The length of spatial solution doesnot match the grid")
  else
  let temporal_discretisation := listvar temporal_discretisation in
  if bool_decide (length temporal_discretisation ≠ len) then
    inl (AlgorithmError "The length of temporal solution doesnot match the grid")
  else
  let boundary := listvar boundary in
  if bool_decide (length boundary ≠ len) then
    inl (AlgorithmError "The length of boundary doesnot match the grid")
  else
  let initial_conditions := listvar initial_conditions in
  if bool_decide (length initial_conditions ≠ len) then
    inl (AlgorithmError
           "The length of initial_conditions doesnot match the grid")
  else
  let IO := listvar IO in
  if bool_decide (length IO ≠ len) then
    inl (AlgorithmError "The length of IO doesnot match the grid")
  else
    inr (grid, spatial_discretisation, temporal_discretisation, boundary,
         initial_conditions, IO).

(** Modelled from the spec: the grid class is not among the sources; a grid
    is given by its [shape], which is all that is read of it here. *)
Record Grid := { shape : list Z }.

(** The head of [initialise_ops_parameters]: [multiblock], [nblocks] and
    [ndim], the one number of dimensions of the blocks. *)
Definition initialise_ops_parameters_blocks (grid : list Grid)
    : result (bool * nat * nat) :=
  let '(multiblock, nblocks) :=
    if bool_decide (length grid = 1%nat) then (false, 1%nat)
    else (true, length grid) in
  let ndim : list nat :=
    elements (list_to_set
                (omap (fun i => g ← grid !! i; Some (length (shape g)))
                   (seq 0 nblocks)) : gset nat) in
  if bool_decide (length ndim ≠ 1%nat)
  then Raise (ValueError "Mismatch in the grid shape of the blocks.")
  else
    ndim ← getitem ndim 0;
    Ok (multiblock, nblocks, ndim).

(** [get_OPS_ACC_number(computation)]: the access tag of every field of the
    computation, keyed by the base the printer looks up.  A field is its
    label for the dictionary and the sets. *)
Definition get_OPS_ACC_number (computation : Computation)
    : gmap index (option string) :=
  let allidbs :=
    (inputs computation).*1 ++ (outputs computation).*1
    ++ (inputoutput computation).*1 in
  let grid_based := filter (fun al => is_grid al = true) allidbs in
  let ops_accs :=
    foldl (fun (ops_accs : gmap index (option string)) (item : nat * field) =>
             <[Symbol (label item.2)
               := Some ("OPS_ACC" +:+ str_nat item.1)]> ops_accs)
          ∅ (imap pair grid_based) in
  let nongrid : gset string :=
    list_to_set (label <$> allidbs) ∖ list_to_set (label <$> grid_based) in
  foldl (fun (ops_accs : gmap index (option string)) inp =>
           <[Symbol inp := None]> ops_accs)
        ops_accs (elements nongrid).

(** The parameters of the kernel function in [kernel_computation], for the
    grid-based fields: [grid_based], with the headers of [ops_header]. *)
Definition kernel_computation_grid_based (dtype : string)
    (computation : Computation) : list string :=
  ((fun inp => "const " +:+ dtype +:+ " *" +:+ label inp)
     <$> filter (fun inp => is_grid inp = true) (inputs computation).*1)
  ++ ((fun inp => dtype +:+ " *" +:+ label inp)
        <$> filter (fun inp => is_grid inp = true) (outputs computation).*1)
  ++ ((fun inp => dtype +:+ " *" +:+ label inp)
        <$> filter (fun inp => is_grid inp = true)
              (inputoutput computation).*1).

(** [OPSC.ops_argument_call(array, stencil, precision, access_type)]; the
    type printed is [self.dtype]. *)
Definition ops_argument_call (dtype : string)
    (array stencil precision access_type : string) : string :=
  "ops_arg_dat(" +:+ array +:+ ", 1, " +:+ stencil +:+ ", " +:+ dquote
  +:+ dtype +:+ dquote +:+ ", " +:+ access_type +:+ ")".

(** The arguments of the call in [kernel_call], for the grid-based fields:
    [grid_based]; [stencils] is what [get_stencils] returned. *)
Definition kernel_call_grid_based (dtype : string)
    (stencils : gmap string string) (computation : Computation)
    : result (list string) :=
  let getitem_stencils (inp : field) : result string :=
    match stencils !! label inp with
    | Some s => Ok s
    | None => Raise KeyError
    end in
  let arguments (access : string) (keys : list field) :=
    for_each (fun inp => s ← getitem_stencils inp;
                         Ok (ops_argument_call dtype (label inp) s dtype
                               access))
      (filter (fun inp => is_grid inp = true) keys) in
  a ← arguments "OPS_READ" (inputs computation).*1;
  b ← arguments "OPS_WRITE" (outputs computation).*1;
  c ← arguments "OPS_RW" (inputoutput computation).*1;
  Ok (a ++ b ++ c).

(** The arrays and the constants to declare: [grid_based_arrays] and
    [constants]. *)
Record Definitions := {
  grid_based_arrays : gset string;
  constants : gset string
}.

(** [OPSC.update_definitions(computation)]; [computation_constants] is
    [computation.constants]. *)
Definition update_definitions (self : Definitions)
    (computation : Computation) (computation_constants : list string)
    : Definitions :=
  let keys :=
    (inputs computation).*1 ++ (outputs computation).*1
    ++ (inputoutput computation).*1 in
  let arrays : gset string :=
    list_to_set (label <$> filter (fun inp => is_grid inp = true) keys) in
  let constant_arrays : gset string :=
    list_to_set (label <$> filter (fun inp => is_grid inp = false) keys) in
  let constants' : gset string := list_to_set computation_constants in
  {| grid_based_arrays := grid_based_arrays self ∪ arrays;
     constants := constants self ∪ constant_arrays ∪ constants' |}.

(** [OPSC.define_dat()]. *)
Definition define_dat (multiblock : bool) (self : Definitions)
    : error + list string :=
  if negb multiblock then
    inr (["// Define data files"]
         ++ ((fun arr => "ops_dat " +:+ arr +:+ ";")
               <$> elements (grid_based_arrays self)))
  else inl (NotImplementedError "Multi block is not implemented").

(** [OPSC.array(dtype, name, values)]; the values are given as [str] has
    them. *)
Definition array (dtype name : string) (values : list string) : string :=
  dtype +:+ " " +:+ name +:+ "[] = {" +:+ join ", " values +:+ "}" +:+ ";".

(** The number of points of a stencil in [declare_stencils]:
    [len(key.split(',')) / self.ndim], a division of integers. *)
Definition stencil_points (ndim : nat) (key : string) : error + Z :=
  if bool_decide (ndim = 0%nat) then inl ZeroDivisionError
  else inr (Z.of_nat (length (split ","%char key)) / Z.of_nat ndim).

(** [OPSC.declare_stencils()]; the dictionary is gone through in the order
    of its items. *)
Definition declare_stencils (self : OPSC) (ndim : nat)
    : error + list string :=
  foldl (fun (code : error + list string) (item : string * string) =>
           match code with
           | inl e => inl e
           | inr code =>
               let '(key, value) := item in
               match stencil_points ndim key with
               | inl e => inl e
               | inr count =>
                   inr (code
                        ++ [array "int" (value +:+ "_temp") [key];
                            "ops_stencil " +:+ value
                            +:+ " = ops_decl_stencil(" +:+ str_nat ndim
                            +:+ "," +:+ str_int count +:+ "," +:+ value
                            +:+ "_temp," +:+ dquote +:+ key +:+ dquote
                            +:+ ");"])
               end
           end)
        (inr ["// Declare all the stencils used "])
        (stencil_dictionary self).

End opsc.

(* ===================================================================== *)
(** * autofd/opsc.py *)
(* ===================================================================== *)

Module autofd.

(** The classification at the head of [get_kernel(evals)]: [ins], [outs],
    [inouts] and [tot_base]. *)
Definition get_kernel_datasets (evals : list Equality)
    : gset string * gset string * gset string * list string :=
  let lh := List.flat_map (fun eq => elements (atoms_DataSet (lhs eq))) evals in
  let rh := List.flat_map (fun eq => elements (atoms_DataSet (rhs eq))) evals in
  let libs : gset string := list_to_set (map fst lh) in
  let ribs : gset string := list_to_set (map fst rh) in
  let inouts := libs ∩ ribs in
  let ins := ribs ∖ inouts in
  let outs := libs ∖ inouts in
  (ins, outs, inouts, elements ins ++ elements outs ++ elements inouts).


(** The exceptions of [get_kernel] besides those above. *)
Inductive error :=
| SyntaxError
| Exception (e : exn).

(** The stencil of a field in [get_kernel], from the relative indices
    [indexes] on: the zero tuple is added, what is there twice is dropped,
    and the tuples are sorted and flattened, by the loop that
    [OPSC.sort_stencil_indices] has too.  An index is a list of [ndim]
    integers; in one dimension, where the code has the integer itself, it is
    the list of that integer.  With no dimension there is nothing to parse
    for the zero tuple. *)
Definition get_kernel_stencil (ndim : nat) (indexes : list (list Z))
    : error + list Z :=
  match ndim with
  | O => inl SyntaxError
  | _ =>
      let indexes := indexes ++ [replicate ndim 0] in
      let indexes := elements (list_to_set indexes : gset (list Z)) in
      if Nat.ltb 1 ndim then
        match opsc.sort_dimensions (seq 0 ndim) indexes with
        | Ok indexes => inr (concat indexes)
        | Raise e => inl (Exception e)
        end
      else inr (concat (sorted (fun t => t) tuple_le indexes))
  end.

End autofd.

(* ===================================================================== *)
(** * opensbli/utilities/user_defined_kernels.py *)
(* ===================================================================== *)

Module user_defined_kernels.

(** Modelled from the spec: the classes that [UserDefinedEquations] derives
    from are not among the sources.  Of an instance there are the attributes
    that [__new__] sets, the places being given by the names of their
    classes, and the list [Kernels] that [spatial_discretisation] adds
    to. *)
Record UserDefinedEquations := {
  order : Z;
  equations : object;
  _place : list string;
  Kernels : list kernel.Kernel
}.

(** [UserDefinedEquations.__new__(cls, **kwargs)]. *)
Definition new (Kernels : list kernel.Kernel) : UserDefinedEquations :=
  {| order := 0; equations := PyList []; _place := []; Kernels := Kernels |}.

(** The setter of [algorithm_place]: the place is added to the list. *)
Definition set_algorithm_place (cls : UserDefinedEquations)
    (p : string) : UserDefinedEquations :=
  {| order := order cls; equations := equations cls;
     _place := _place cls ++ [p]; Kernels := Kernels cls |}.

Definition add_kernel (cls : UserDefinedEquations) (k : kernel.Kernel)
    : UserDefinedEquations :=
  {| order := order cls; equations := equations cls;
     _place := _place cls; Kernels := Kernels cls ++ [k] |}.

(** [UserDefinedEquations.spatial_discretisation(block)].  The state
    reached is returned also when a step raises. *)
Definition spatial_discretisation (cls : UserDefinedEquations)
    (w : kernel.World) (block : kernel.Block)
    : UserDefinedEquations * kernel.World * kernel.Block * result unit :=
  let user_defined_kernel := kernel.init block None in
  let name := join " " (_place cls) in
  let user_defined_kernel :=
    kernel.set_computation_name user_defined_kernel
      ("user kernel " +:+ name) in
  let user_defined_kernel :=
    kernel.set_grid_range user_defined_kernel block in
  match kernel.add_equation user_defined_kernel (equations cls) with
  | Raise e => (cls, w, block, Raise e)
  | Ok user_defined_kernel =>
      match kernel.update_block_datasets user_defined_kernel w block with
      | (w', block', user_defined_kernel, Ok _) =>
          (add_kernel cls user_defined_kernel, w', block', Ok ())
      | (w', block', _, Raise e) => (cls, w', block', Raise e)
      end
  end.

End user_defined_kernels.

(* ===================================================================== *)
(** * Specification-side notions and running examples *)
(* ===================================================================== *)

Module spec.

(** The fields a kernel's equations refer to. *)
Definition referenced (eqs : list object) (f : string) : Prop :=
  ∃ e, PyEq e ∈ eqs
       ∧ (f ∈ atoms_DataSetBase (lhs e) ∨ f ∈ atoms_DataSetBase (rhs e)).

(** The reduction of a contributor set on the negative side: 0 for the empty
    set, else the least of the contributors' extents. *)
Definition reduced_min (contributors : list SchemeHalos) (m : Z) : Prop :=
  let extents := map (fun d => get_halos d 0) contributors in
  (contributors = [] ∧ m = 0)
  ∨ (m ∈ extents ∧ ∀ x, x ∈ extents → m <= x).

(** On the positive side: 0 for the empty set, else the greatest extent. *)
Definition reduced_max (contributors : list SchemeHalos) (p : Z) : Prop :=
  let extents := map (fun d => get_halos d 1) contributors in
  (contributors = [] ∧ p = 0)
  ∨ (p ∈ extents ∧ ∀ x, x ∈ extents → x <= p).

(** The flat list of a sorted list of tuples. *)
Definition flattened (r : result (list (list Z))) : result (list Z) :=
  l ← r; Ok (concat l).

(** Tuples in reverse lexicographic order of their first [j] entries:
    entry [j - 1] is the most significant, entry 0 the least. *)
Definition colex (j : nat) (a b : list Z) : Prop :=
  tuple_le (reverse (take j a)) (reverse (take j b)) = true.

(** The order a stable sort by [key] produces out of a list already in the
    order [R]: by key first, and by [R] among equal keys. *)
Definition by_key_then {A K} (key : A -> K) (le : K -> K -> bool)
    (R : relation A) : relation A :=
  fun a b => le (key a) (key b) = true
             ∧ (le (key b) (key a) = true → R a b).

(** The integer offsets of a list of index tuples: every index with its
    symbols at 0. *)
Definition offsets_of (value : list (list index)) : list (list Z) :=
  (fun va : list index => sympy.value <$> va) <$> value.

(** An indexed access once the symbols of its indices are 0, as
    [_print_Indexed] has it when it looks the base up. *)
Definition zeroed (e : opsc.Indexed) : opsc.Indexed :=
  foldl (fun e x => opsc.Indexed_subs x e) e
    (List.flat_map (fun i => elements (atoms_Symbol i)) (opsc.indices e)).

(** A string that has the division sign in it. *)
Fixpoint has_slash (s : string) : bool :=
  match s with
  | EmptyString => false
  | String c s' => bool_decide (c = "/"%char) || has_slash s'
  end.

(** The field registries of a block are consistent: every entry of
    [block_datasets] is filed under the label of its field, the field is in
    [DataSetsToDeclare.datasetbases] and has its attributes.  This is what
    registration by [update_block_datasets] establishes and maintains. *)
Definition registry_wf (w : kernel.World) (block : kernel.Block) : Prop :=
  ∀ k v, kernel.block_datasets block !! k = Some v →
         v = k ∧ k ∈ kernel.datasetbases w
         ∧ is_Some (kernel.objects w !! k).

(** The field [d] is registered for the block, with the block's number and
    shape. *)
Definition settled (w : kernel.World) (block : kernel.Block) (d : string)
    : Prop :=
  d ∈ kernel.datasetbases w
  ∧ ∃ dset a,
      kernel.block_datasets block !! d = Some dset
      ∧ kernel.objects w !! dset = Some a
      ∧ kernel.block_number a = Some (kernel.blocknumber block)
      ∧ kernel.size a = Some (kernel.shape block).

(** Two blocks that differ at most in their registries. *)
Definition same_block (b b' : kernel.Block) : Prop :=
  kernel.blocknumber b' = kernel.blocknumber b
  ∧ kernel.ndim b' = kernel.ndim b
  ∧ kernel.blockname b' = kernel.blockname b
  ∧ kernel.shape b' = kernel.shape b
  ∧ kernel.ranges b' = kernel.ranges b
  ∧ kernel.kernel_counter b' = kernel.kernel_counter b
  ∧ kernel.get_all_scheme_halos b' = kernel.get_all_scheme_halos b.

(** The keys of a registry that starts with the keys [known], in the order
    in which the look-ups [keys] add them: a key is added the first time it
    is used, if it is not known yet. *)
Fixpoint first_uses {K} `{EqDecision K} (known keys : list K) : list K :=
  match keys with
  | [] => []
  | k :: keys' =>
      if bool_decide (k ∈ known) then first_uses known keys'
      else k :: first_uses (known ++ [k]) keys'
  end.

(** The registry keys that the grid-based fields of a computation use, in
    the order of the fields. *)
Definition stencil_keys (items : list (opsc.field * opsc.access))
    : list string :=
  omap (fun item : opsc.field * opsc.access =>
          if opsc.is_grid item.1 then
            match opsc.relative_stencil item.2 with
            | Ok sten => Some (opsc.lsit_to_string sten)
            | Raise _ => None
            end
          else None) items.

(** The stencil names of the fields of a computation, read off a registry. *)
Definition names_in (D : list (string * string))
    (items : list (opsc.field * opsc.access)) (st : gmap string string)
    : gmap string string :=
  foldl (fun st (item : opsc.field * opsc.access) =>
           if opsc.is_grid item.1 then
             match opsc.relative_stencil item.2 with
             | Ok sten =>
                 match dict_get D (opsc.lsit_to_string sten) with
                 | Some n => <[opsc.label item.1 := n]> st
                 | None => st
                 end
             | Raise _ => st
             end
           else st) st items.

(** Every grid-based field of the computation has its stencil in the
    registry. *)
Definition all_registered (D : list (string * string))
    (items : list (opsc.field * opsc.access)) : Prop :=
  Forall (fun item : opsc.field * opsc.access =>
            opsc.is_grid item.1 = true →
            ∃ sten n, opsc.relative_stencil item.2 = Ok sten
                      ∧ dict_get D (opsc.lsit_to_string sten) = Some n) items.

(** The fields of a computation, over its three dictionaries. *)
Definition items_of (c : opsc.Computation) : list (opsc.field * opsc.access) :=
  opsc.inputs c ++ opsc.outputs c ++ opsc.inputoutput c.

(** The stencil names of the fields of a kernel, read off a block's
    registry. *)
Definition kernel_names_in
    (D : list (gset (list index) * kernel.StencilObject))
    (stens : list (string * gset (list index))) (names : gmap string string)
    : gmap string string :=
  foldl (fun names (item : string * gset (list index)) =>
           match dict_get D item.2 with
           | Some so => <[item.1 := kernel.name so]> names
           | None => names
           end) names stens.

(** The name of the [i]-th stencil of block [bn]. *)
Definition kernel_stencil_name (bn : Z) (i : nat) : string :=
  "stencil_" +:+ str_int bn +:+ "_" +:+ str_int_pad0 2 (Z.of_nat i).

(** *** Running examples *)

Definition one_halo : SchemeHalos := {| halo_minus := -1; halo_plus := 1 |}.

(** A one-dimensional block, range [0, 200), shape (202,). *)
Definition block0 : kernel.Block :=
  {| kernel.blocknumber := 0; kernel.ndim := 1; kernel.blockname := "block0";
     kernel.shape := [202]; kernel.ranges := [(0, 200)];
     kernel.kernel_counter := 0;
     kernel.get_all_scheme_halos := [one_halo];
     kernel.block_datasets := ∅; kernel.block_stencils := [] |}.

(** The kernel of the range example: one contributor of extent 1 on each
    side. *)
Definition halo_kernel : kernel.Kernel :=
  kernel.set_halo_ranges
    (kernel.set_grid_range (kernel.init block0 None) block0)
    [([one_halo], [one_halo])].

(** A printer whose inherited methods lay operands out in the plainest
    way. *)
Definition plain_printer : opsc.CCodePrinter :=
  {| opsc.format_Add := fun _ a b => a +:+ " + " +:+ b;
     opsc.format_Mul := fun _ a b => a +:+ "*" +:+ b;
     opsc.format_Pow := fun _ a b => "pow(" +:+ a +:+ ", " +:+ b +:+ ")";
     opsc.print_compound_index := fun _ => "?" |}.

(** The block with another shape; its registries are the same objects. *)
Definition with_shape (b : kernel.Block) (s : list Z) : kernel.Block :=
  {| kernel.blocknumber := kernel.blocknumber b; kernel.ndim := kernel.ndim b;
     kernel.blockname := kernel.blockname b; kernel.shape := s;
     kernel.ranges := kernel.ranges b;
     kernel.kernel_counter := kernel.kernel_counter b;
     kernel.get_all_scheme_halos := kernel.get_all_scheme_halos b;
     kernel.block_datasets := kernel.block_datasets b;
     kernel.block_stencils := kernel.block_stencils b |}.

Definition empty_world : kernel.World :=
  {| kernel.datasetbases := []; kernel.objects := ∅ |}.

Definition x0 : index := Symbol "x0".
Definition x0_plus_1 : index := Add (Symbol "x0") (Integer 1).
Definition x0_plus_n : index := Add (Symbol "x0") (Symbol "n").

(** [out[0] = in[1]]: the field [in] is only read at offset +1. *)
Definition shifted_equation : Equality :=
  {| lhs := DataSet "out" [Integer 0]; rhs := DataSet "in" [Integer 1] |}.

Definition shifted_kernel : kernel.Kernel :=
  kernel.set_equations (kernel.init block0 None) [PyEq shifted_equation].

(** [f[0] = f[-1] + f[1]]: one field, read and written. *)
Definition f_kernel : kernel.Kernel :=
  kernel.set_equations (kernel.init block0 None)
    [PyEq {| lhs := DataSet "f" [Integer 0];
             rhs := EAdd (DataSet "f" [Integer (-1)])
                         (DataSet "f" [Integer 1]) |}].

(** The world and the block once [f_kernel] has registered its field. *)
Definition world1 : kernel.World :=
  (kernel.update_block_datasets f_kernel empty_world block0).1.1.1.

Definition block1 : kernel.Block :=
  (kernel.update_block_datasets f_kernel empty_world block0).1.1.2.

(** [g[0] = g[-1] + g[1]]: another field with the footprint of [f]. *)
Definition g_kernel : kernel.Kernel :=
  kernel.set_equations (kernel.init block0 None)
    [PyEq {| lhs := DataSet "g" [Integer 0];
             rhs := EAdd (DataSet "g" [Integer (-1)])
                         (DataSet "g" [Integer 1]) |}].

Definition footprint3 : gset (list index) :=
  {[ [Integer (-1)]; [Integer 0]; [Integer 1] ]}.


(** *** Vocabulary of the further properties *)


(** The number a string of digits denotes; leading zeros do not count. *)
Definition number_of (s : string) : Z :=
  match NilEmpty.uint_of_string s with
  | Some u => Z.of_uint u
  | None => 0
  end.

(** The stencil registry of a block is numbered: every entry is filed under
    its own footprint and named after its position. *)
Definition stencils_numbered (block : kernel.Block) : Prop :=
  ∀ i k so, kernel.block_stencils block !! i = Some (k, so) →
            kernel.stencil so = k
            ∧ kernel.name so = kernel_stencil_name (kernel.blocknumber block) i.

(** The dictionary of [OPSC] is numbered: every name is made of the position
    of its entry, and [stencil_number] is the number of entries. *)
Definition dictionary_numbered (self : opsc.OPSC) : Prop :=
  opsc.stencil_number self = Z.of_nat (length (opsc.stencil_dictionary self))
  ∧ ∀ i k n, opsc.stencil_dictionary self !! i = Some (k, n) →
             n = "stencil" +:+ str_int (Z.of_nat i).

(** *** Further examples *)

(** [f_kernel] with the grid range of its block. *)
Definition f_ranged : kernel.Kernel := kernel.set_grid_range f_kernel block0.

(** The same kernel once [add_equation] has been given a list that holds
    [None] after the equation. *)
Definition f_and_none : kernel.Kernel :=
  kernel.set_equations f_ranged (kernel.equations f_ranged ++ [PyNone]).

(** Two lists that are the same set of contributors. *)
Definition same_set (a b : list SchemeHalos) : Prop :=
  ∀ x, x ∈ a ↔ x ∈ b.

(** Two halo requirements that have the same contributor sets in every
    direction and on either side. *)
Definition same_requirement (h h' : list halo_pair) : Prop :=
  Forall2 (fun a b : halo_pair => same_set a.1 b.1 ∧ same_set a.2 b.2) h h'.

(** Contributors that extend the range outwards: not above 0 on the negative
    side, not below 0 on the positive side. *)
Definition outward (h : list halo_pair) : Prop :=
  Forall (fun a : halo_pair =>
            Forall (fun d => halo_minus d <= 0) a.1
            ∧ Forall (fun d => 0 <= halo_plus d) a.2) h.

Definition two_halo : SchemeHalos := {| halo_minus := -2; halo_plus := 2 |}.

(** The union of two requirements in one direction, side by side. *)
Definition merged (a b : halo_pair) : halo_pair :=
  (list_union a.1 b.1, list_union a.2 b.2).

(** What [types] stands for in [set_halo_range]: the contributors of a set,
    or the single contributor. *)
Definition contributors (types : list SchemeHalos + SchemeHalos)
    : list SchemeHalos :=
  match types with
  | inl s => s
  | inr t => [t]
  end.

Definition no_constants : kernel.Constants :=
  {| kernel.constants := []; kernel.constant_objects := ∅ |}.

(** The scalar product of two lists of integers. *)
Definition scalar_product (l1 l2 : list Z) : Z :=
  foldr Z.add 0 (zip_with Z.mul l1 l2).

(** The grid-based fields of a computation, in the order of its three
    dictionaries. *)
Definition grid_fields (c : opsc.Computation) : list opsc.field :=
  filter (fun f => opsc.is_grid f = true) (items_of c).*1.

(** A computation with two grid-based fields and a constant array. *)
Definition uv_computation : opsc.Computation :=
  {| opsc.inputs :=
       [({| opsc.label := "u"; opsc.is_grid := true |},
         opsc.Many [[x0_plus_1]; [x0]]);
        ({| opsc.label := "c"; opsc.is_grid := false |},
         opsc.Many [[Integer 0]])];
     opsc.outputs :=
       [({| opsc.label := "v"; opsc.is_grid := true |}, opsc.Many [[x0]])];
     opsc.inputoutput := [] |}.

(** The registry and the stencil names that [get_stencils] leaves for
    [uv_computation], starting from no stencil. *)
Definition uv_registry : opsc.OPSC :=
  {| opsc.stencil_dictionary := [("0,1", "stencil0"); ("0", "stencil1")];
     opsc.stencil_number := 2 |}.

Definition uv_stencils : gmap string string :=
  <["v" := "stencil1"]> (<["u" := "stencil0"]> ∅).

(** A string that has the character [c] in it. *)
Fixpoint has_char (c : ascii) (s : string) : bool :=
  match s with
  | EmptyString => false
  | String c' s' => Ascii.eqb c' c || has_char c s'
  end.

(** User-defined equations with the equation of [f_kernel], to be placed at
    the start of the time loop. *)
Definition user_equations : user_defined_kernels.UserDefinedEquations :=
  {| user_defined_kernels.order := 0;
     user_defined_kernels.equations := PyList (kernel.equations f_kernel);
     user_defined_kernels._place := ["BeforeSimulationStarts"];
     user_defined_kernels.Kernels := [] |}.

End spec.

Import spec.

(* ===================================================================== *)
(** * Properties *)
(* ===================================================================== *)

(** ** Sorting of stencil offsets *)

Module sorting_facts.

Lemma fmap_map {A B} (f : A -> B) (l : list A) : map f l = f <$> l.
Proof. reflexivity. Qed.

Lemma for_each_total {A B} (f : A -> result B) (g : A -> B) (l : list A) :
  (∀ x, x ∈ l → f x = Ok (g x)) → for_each f l = Ok (g <$> l).
Proof.
  induction l as [|x l IH]; intros Hf; simpl; [done|].
  rewrite (Hf x) by apply list_elem_of_here. simpl.
  rewrite IH; [done|]. intros y Hy. apply Hf. by apply list_elem_of_further.
Qed.

Lemma for_each_raises {A B} (f : A -> result B) (l : list A) (e : exn) :
  for_each f l = Raise e → ∃ x, x ∈ l ∧ f x = Raise e.
Proof.
  induction l as [|x l IH]; simpl; [done|].
  destruct (f x) as [y|e'] eqn:Hx; simpl.
  - destruct (for_each f l) as [ys|e'']; simpl; [done|]. intros [= ->].
    destruct IH as (z & Hz & Hfz); [done|]. exists z.
    split; [by apply list_elem_of_further|done].
  - intros [= ->]. exists x. split; [apply list_elem_of_here|done].
Qed.

Section stable_sort.
Context {A K : Type} (key : A -> K) (le : K -> K -> bool).

Lemma insert_sorted_Permutation (x : A) (l : list A) :
  insert_sorted key le x l ≡ₚ x :: l.
Proof.
  induction l as [|y l IH]; simpl; [done|].
  destruct (le (key x) (key y)); [done|]. rewrite IH. apply Permutation_swap.
Qed.

Lemma sorted_Permutation (l : list A) : sorted key le l ≡ₚ l.
Proof.
  induction l as [|x l IH]; simpl; [done|].
  by rewrite insert_sorted_Permutation, IH.
Qed.

Lemma sorted_nil_inv (l : list A) : sorted key le l = [] → l = [].
Proof.
  intros H. apply Permutation_nil_r. rewrite <- H. symmetry.
  apply sorted_Permutation.
Qed.

Lemma sorted_cons {B} (k : B -> K) (x : B) (l : list B) :
  sorted k le (x :: l) = insert_sorted k le x (sorted k le l).
Proof. reflexivity. Qed.

(** The keys may be computed beforehand and carried along. *)
Lemma sorted_decorated (l : list A) :
  sorted fst le ((fun x => (key x, x)) <$> l)
  = (fun x => (key x, x)) <$> sorted key le l.
Proof.
  induction l as [|x l IH]; [done|].
  rewrite fmap_cons, !sorted_cons, IH.
  generalize (sorted key le l). intros s.
  induction s as [|y s IHs]; simpl; [done|].
  destruct (le (key x) (key y)); simpl; [done|]. f_equal. apply IHs.
Qed.

Lemma zip_decorated (l : list A) :
  zip (key <$> l) l = (fun x => (key x, x)) <$> l.
Proof. induction l as [|x l IH]; simpl; [done|]. f_equal. exact IH. Qed.

Lemma sorted_by_total (k : A -> result K) (l : list A) :
  (∀ x, x ∈ l → k x = Ok (key x)) →
  sorted_by k le l = Ok (sorted key le l).
Proof.
  intros Hk. unfold sorted_by. rewrite (for_each_total k key) by done.
  unfold python.bind. f_equal.
  rewrite zip_decorated, sorted_decorated, fmap_map, <- list_fmap_compose.
  apply list_fmap_id.
Qed.

Lemma sorted_by_raises (k : A -> result K) (l : list A) (e : exn) :
  sorted_by k le l = Raise e → ∃ x, x ∈ l ∧ k x = Raise e.
Proof.
  unfold sorted_by. destruct (for_each k l) as [ks|e'] eqn:Hk; simpl; [done|].
  intros [= ->]. by apply for_each_raises.
Qed.

Hypothesis le_total : ∀ a b, le a b = true ∨ le b a = true.
Hypothesis le_trans : ∀ a b c, le a b = true → le b c = true → le a c = true.

Lemma insert_sorted_stable (R : relation A) (x : A) (s : list A) :
  StronglySorted (by_key_then key le R) s → Forall (R x) s →
  StronglySorted (by_key_then key le R) (insert_sorted key le x s).
Proof.
  induction s as [|y s IH]; intros Hs Hx; simpl.
  - repeat constructor.
  - apply StronglySorted_inv in Hs as [Hs Hy].
    apply Forall_cons in Hx as [Hxy Hx].
    destruct (le (key x) (key y)) eqn:Hle.
    + constructor; [by constructor|]. constructor; [by split|].
      rewrite Forall_forall in *. intros z Hz.
      destruct (Hy z Hz) as [Hyz _]. split; [by eapply le_trans|auto].
    + constructor; [by apply IH|].
      rewrite insert_sorted_Permutation. constructor; [|done].
      split; [|congruence]. destruct (le_total (key x) (key y)); congruence.
Qed.

Lemma sorted_stable (R : relation A) (l : list A) :
  StronglySorted R l → StronglySorted (by_key_then key le R) (sorted key le l).
Proof.
  induction l as [|x l IH]; intros Hl; simpl; [constructor|].
  apply StronglySorted_inv in Hl as [Hl Hx].
  apply insert_sorted_stable; [by apply IH|].
  by rewrite sorted_Permutation.
Qed.

Lemma sorted_StronglySorted (l : list A) :
  StronglySorted (fun a b => le (key a) (key b) = true) (sorted key le l).
Proof.
  assert (StronglySorted (fun _ _ : A => True) l) as Hl.
  { induction l; constructor; [done|]. by apply Forall_true. }
  apply (sorted_stable _ l) in Hl.
  induction Hl as [|a s Hs IH Ha]; constructor; [done|].
  eapply Forall_impl; [exact Ha|]. by intros b [? _].
Qed.

End stable_sort.

Lemma StronglySorted_weaken {A} (R R' : relation A) (l : list A) :
  (∀ a b, a ∈ l → b ∈ l → R a b → R' a b) →
  StronglySorted R l → StronglySorted R' l.
Proof.
  intros HR Hl. induction Hl as [|a s Hs IH Ha]; constructor.
  - apply IH. intros b c Hb Hc. apply HR; by apply list_elem_of_further.
  - rewrite Forall_forall in *. intros b Hb.
    apply HR; [apply list_elem_of_here|by apply list_elem_of_further|auto].
Qed.

Lemma sorted_ext {A K} (k1 k2 : A -> K) (le : K -> K -> bool) (l : list A) :
  (∀ x, x ∈ l → k1 x = k2 x) → sorted k1 le l = sorted k2 le l.
Proof.
  induction l as [|x l IH]; intros Hk; simpl; [done|].
  rewrite IH by (intros y Hy; by apply Hk, list_elem_of_further).
  assert (Hs : ∀ y, y ∈ sorted k2 le l → k1 y = k2 y).
  { intros y Hy. apply Hk, list_elem_of_further.
    by rewrite sorted_Permutation in Hy. }
  pose proof (Hk x (list_elem_of_here _ _)) as Hx.
  revert Hs. generalize (sorted k2 le l). intros s Hs.
  induction s as [|y s IHs]; simpl; [done|].
  rewrite Hx, (Hs y) by apply list_elem_of_here.
  destruct (le (k2 x) (k2 y)); [done|].
  rewrite IHs; [done|]. intros z Hz. by apply Hs, list_elem_of_further.
Qed.

(** *** The order of Python tuples *)

Lemma tuple_le_total (a b : list Z) : tuple_le a b = true ∨ tuple_le b a = true.
Proof.
  revert b. induction a as [|x a IH]; intros [|y b]; simpl; auto.
  destruct (Z.ltb_spec x y), (Z.ltb_spec y x); auto; lia.
Qed.

Lemma tuple_le_trans (a b c : list Z) :
  tuple_le a b = true → tuple_le b c = true → tuple_le a c = true.
Proof.
  revert b c. induction a as [|x a IH]; intros [|y b] [|z c]; simpl; auto;
    try discriminate.
  destruct (Z.ltb_spec x y), (Z.ltb_spec y x), (Z.ltb_spec y z),
    (Z.ltb_spec z y), (Z.ltb_spec x z), (Z.ltb_spec z x);
    try discriminate; try lia; auto. apply IH.
Qed.

Lemma tuple_le_antisym (a b : list Z) :
  tuple_le a b = true → tuple_le b a = true → a = b.
Proof.
  revert b. induction a as [|x a IH]; intros [|y b]; simpl; auto;
    try discriminate.
  destruct (Z.ltb_spec x y), (Z.ltb_spec y x); try discriminate; try lia.
  intros H1 H2. f_equal; [lia|auto].
Qed.

Lemma Z_leb_total (a b : Z) : Z.leb a b = true ∨ Z.leb b a = true.
Proof. destruct (Z.leb_spec a b), (Z.leb_spec b a); auto; lia. Qed.

Lemma Z_leb_trans (a b c : Z) :
  Z.leb a b = true → Z.leb b c = true → Z.leb a c = true.
Proof. rewrite !Z.leb_le. lia. Qed.

(** *** The dimension-wise sorts of [OPSC.sort_stencil_indices] *)

Lemma colex_step (j : nat) (a b : list Z) :
  (j < length a)%nat → (j < length b)%nat →
  by_key_then (fun t => nth j t 0) Z.leb (colex j) a b → colex (S j) a b.
Proof.
  intros Ha Hb [Hle Htie]. unfold colex in *.
  destruct (lookup_lt_is_Some_2 a j Ha) as [x Hx].
  destruct (lookup_lt_is_Some_2 b j Hb) as [y Hy].
  rewrite (take_S_r a j x), (take_S_r b j y) by done.
  rewrite !reverse_snoc. simpl.
  rewrite (nth_lookup_Some a j 0 x), (nth_lookup_Some b j 0 y) in * by done.
  apply Z.leb_le in Hle.
  destruct (Z.ltb_spec x y); [done|]. destruct (Z.ltb_spec y x); [lia|].
  apply Htie. apply Z.leb_le. lia.
Qed.

Lemma sort_dimensions_colex (n j m : nat) (l : list (list Z)) :
  Forall (fun t => length t = n) l → (j + m = n)%nat →
  StronglySorted (colex j) l →
  ∃ l', opsc.sort_dimensions (seq j m) l = Ok l'
        ∧ l' ≡ₚ l ∧ StronglySorted (colex n) l'.
Proof.
  revert j l. induction m as [|m IH]; intros j l Hlen Hj Hl; simpl.
  - exists l. replace n with j by lia. done.
  - rewrite (sorted_by_total (fun t => nth j t 0)).
    2:{ intros t Ht. rewrite Forall_forall in Hlen. unfold getitem.
        destruct (lookup_lt_is_Some_2 t j) as [x Hx];
          [rewrite (Hlen t Ht); lia|].
        by rewrite Hx, (nth_lookup_Some t j 0 x). }
    simpl.
    set (l1 := sorted (fun t => nth j t 0) Z.leb l).
    assert (Hp : l1 ≡ₚ l) by apply sorted_Permutation.
    assert (Hlen1 : Forall (fun t => length t = n) l1) by by rewrite Hp.
    destruct (IH (S j) l1) as (l' & Hl' & Hp' & Hs'); [done|lia| |].
    + apply (StronglySorted_weaken
               (by_key_then (fun t => nth j t 0) Z.leb (colex j))).
      * rewrite Forall_forall in Hlen1. intros a b Ha Hb.
        apply colex_step; [rewrite (Hlen1 a Ha)|rewrite (Hlen1 b Hb)]; lia.
      * apply sorted_stable;
          [apply Z_leb_total|apply Z_leb_trans|done].
    + exists l'. split; [done|]. split; [by rewrite Hp'|done].
Qed.

Lemma colex_0_sorted (l : list (list Z)) : StronglySorted (colex 0) l.
Proof.
  induction l; constructor; [done|]. apply Forall_forall. intros b _.
  unfold colex. by rewrite !take_0.
Qed.

Lemma sorted_unique (key : list Z -> list Z) (l l' : list (list Z)) :
  Inj (=) (=) key →
  l' ≡ₚ l →
  StronglySorted (fun a b => tuple_le (key a) (key b) = true) l' →
  l' = sorted key tuple_le l.
Proof.
  intros Hinj Hp Hs.
  apply (StronglySorted_unique_strong
           (fun a b => tuple_le (key a) (key b) = true)).
  - intros a b _ _ H1 H2. apply Hinj. by apply tuple_le_antisym.
  - done.
  - apply sorted_StronglySorted;
      [apply tuple_le_total|apply tuple_le_trans].
  - by rewrite Hp, sorted_Permutation.
Qed.

(** The repeated sorts order the tuples by their last entry first. *)
Lemma sort_stencil_indices_colex (n : nat) (l : list (list Z)) :
  l ≠ [] → Forall (fun t => length t = n) l →
  opsc.sort_stencil_indices l = Ok (concat (sorted reverse tuple_le l)).
Proof.
  intros Hne Hlen. unfold opsc.sort_stencil_indices.
  destruct l as [|first l0] eqn:El; [done|]. rewrite <- El in *.
  assert (Hfirst : length first = n).
  { rewrite El in Hlen. by apply Forall_cons in Hlen as [? _]. }
  replace (getitem l 0%nat) with (Ok first) by by rewrite El.
  simpl. rewrite Hfirst.
  destruct (Nat.ltb_spec 1 n) as [Hn|Hn].
  - destruct (sort_dimensions_colex n 0 n l) as (l' & -> & Hp & Hs);
      [done|lia|apply colex_0_sorted|].
    simpl. do 2 f_equal. apply sorted_unique; [apply _|done|].
    apply (StronglySorted_weaken (colex n)); [|done].
    assert (Hlen' : Forall (fun t => length t = n) l') by by rewrite Hp.
    rewrite Forall_forall in Hlen'. intros a b Ha Hb. unfold colex.
    by rewrite !take_ge by (rewrite Hlen'; [lia|done]).
  - do 2 f_equal. apply sorted_ext. intros t Ht.
    rewrite Forall_forall in Hlen. specialize (Hlen t Ht).
    destruct t as [|x [|y t]]; simpl in *; [done..|lia].
Qed.

(** [StencilObject.sort_stencil_indices] orders the tuples by their first
    entry first. *)
Lemma StencilObject_sort_lex (n : nat) (l : list (list Z)) :
  l ≠ [] → Forall (fun t => length t = n) l →
  kernel.StencilObject_sort_stencil_indices id l
  = Ok (sorted (fun t => t) tuple_le l).
Proof.
  intros Hne Hlen. unfold kernel.StencilObject_sort_stencil_indices.
  destruct l as [|first l0] eqn:El; [done|]. rewrite <- El in *.
  assert (Hfirst : length first = n).
  { rewrite El in Hlen. by apply Forall_cons in Hlen as [? _]. }
  replace (getitem l 0%nat) with (Ok first) by by rewrite El.
  simpl. rewrite Hfirst. apply sorted_by_total.
  intros t Ht. rewrite Forall_forall in Hlen. specialize (Hlen t Ht).
  rewrite (for_each_total _ (fun i => nth i t 0)).
  - f_equal. apply list_eq. intros i. rewrite list_lookup_fmap.
    destruct (decide (i < n)%nat) as [Hi|Hi].
    + rewrite lookup_seq_lt by done. simpl.
      destruct (lookup_lt_is_Some_2 t i) as [x Hx]; [lia|].
      by rewrite Hx, (nth_lookup_Some t i 0 x).
    + rewrite lookup_seq_ge by lia. simpl. symmetry.
      apply lookup_ge_None. lia.
  - intros i Hi. apply elem_of_seq in Hi. unfold getitem.
    destruct (lookup_lt_is_Some_2 t i) as [x Hx]; [lia|].
    by rewrite Hx, (nth_lookup_Some t i 0 x).
Qed.

End sorting_facts.

(* ===================================================================== *)
(** * Properties *)
(* ===================================================================== *)

(** ** Dataset classification *)

Module classifier.

Lemma elem_of_fold_equalities {B} `{Countable B} (g : Equality -> gset B)
    (eqs : list object) (acc : gset B) (x : B) :
  x ∈ foldl (fun ds eq => match eq with PyEq e => ds ∪ g e | _ => ds end)
        acc eqs
  ↔ x ∈ acc ∨ ∃ e, PyEq e ∈ eqs ∧ x ∈ g e.
Proof.
  revert acc. induction eqs as [|eq eqs IH]; intros acc; simpl.
  - split; [auto|]. intros [?|(e & He & _)]; [done|]. by apply elem_of_nil in He.
  - rewrite IH. split.
    + intros [Hx|(e & He & Hx)].
      * destruct eq; try (by left).
        apply elem_of_union in Hx as [Hx|Hx]; [by left|].
        right. eexists. split; [apply list_elem_of_here|done].
      * right. exists e. split; [by apply list_elem_of_further|done].
    + intros [Hx|(e & He & Hx)].
      * left. destruct eq; try done. set_solver.
      * apply elem_of_cons in He as [<-|He].
        -- left. set_solver.
        -- right. eauto.
Qed.

Lemma elem_of_lhs_datasets (self : kernel.Kernel) (f : string) :
  f ∈ kernel.lhs_datasets self
  ↔ ∃ e, PyEq e ∈ kernel.equations self ∧ f ∈ atoms_DataSetBase (lhs e).
Proof.
  unfold kernel.lhs_datasets.
  rewrite (elem_of_fold_equalities (fun e => atoms_DataSetBase (lhs e))).
  set_solver.
Qed.

Lemma elem_of_rhs_datasets (self : kernel.Kernel) (f : string) :
  f ∈ kernel.rhs_datasets self
  ↔ ∃ e, PyEq e ∈ kernel.equations self ∧ f ∈ atoms_DataSetBase (rhs e).
Proof.
  unfold kernel.rhs_datasets.
  rewrite (elem_of_fold_equalities (fun e => atoms_DataSetBase (rhs e))).
  set_solver.
Qed.

Lemma elem_of_atoms_DataSetBase (e : expr) (f : string) :
  f ∈ atoms_DataSetBase e ↔ ∃ idx, (f, idx) ∈ atoms_DataSet e.
Proof.
  induction e; simpl; set_solver.
Qed.

Lemma elem_of_base_labels (side : Equality -> expr) (evals : list Equality)
    (f : string) :
  f ∈ (list_to_set
         (map fst (List.flat_map (fun eq => elements (atoms_DataSet (side eq)))
                     evals)) : gset string)
  ↔ ∃ e, e ∈ evals ∧ f ∈ atoms_DataSetBase (side e).
Proof.
  rewrite elem_of_list_to_set, list_elem_of_fmap. split.
  - intros ([b idx] & -> & Hin). apply list_elem_of_In, in_flat_map in Hin.
    destruct Hin as (e & He & Hin). exists e. split; [by apply list_elem_of_In|].
    apply elem_of_atoms_DataSetBase. exists idx.
    by apply list_elem_of_In, elem_of_elements in Hin.
  - intros (e & He & Hf). apply elem_of_atoms_DataSetBase in Hf as [idx Hf].
    exists (f, idx). split; [done|]. apply list_elem_of_In, in_flat_map.
    exists e. split; [by apply list_elem_of_In|].
    by apply list_elem_of_In, elem_of_elements.
Qed.

(** C1.  [Kernel.opsc_code] classifies over the whole equation set:
    [inouts] is the intersection of the left-hand and right-hand field sets,
    [ins] and [outs] are what is left of each side; the three sets are
    pairwise disjoint, their union is exactly the set of fields the
    equations refer to, and a field on the left of one equation and on the
    right of another is in [inouts].  The classification at the head of
    [get_kernel] in autofd/opsc.py obeys the same laws. *)
Theorem classification_partition (self : kernel.Kernel) (evals : list Equality) :
  (let '(ins, outs, inouts) := kernel.opsc_code_datasets self in
   inouts = kernel.lhs_datasets self ∩ kernel.rhs_datasets self
   ∧ ins = kernel.rhs_datasets self ∖ inouts
   ∧ outs = kernel.lhs_datasets self ∖ inouts
   ∧ ins ## outs ∧ ins ## inouts ∧ outs ## inouts
   ∧ (∀ f, f ∈ ins ∪ outs ∪ inouts ↔ referenced (kernel.equations self) f)
   ∧ (∀ e1 e2 f,
        PyEq e1 ∈ kernel.equations self → PyEq e2 ∈ kernel.equations self →
        f ∈ atoms_DataSetBase (lhs e1) → f ∈ atoms_DataSetBase (rhs e2) →
        f ∈ inouts))
  ∧ (let '(ins, outs, inouts, tot_base) := autofd.get_kernel_datasets evals in
     ins ## outs ∧ ins ## inouts ∧ outs ## inouts
     ∧ (∀ f, f ∈ ins ∪ outs ∪ inouts ↔ referenced (PyEq <$> evals) f)
     ∧ (∀ f, f ∈ tot_base ↔ f ∈ ins ∪ outs ∪ inouts)
     ∧ (∀ e1 e2 f,
          e1 ∈ evals → e2 ∈ evals →
          f ∈ atoms_DataSetBase (lhs e1) → f ∈ atoms_DataSetBase (rhs e2) →
          f ∈ inouts)).
Proof.
  split.
  - unfold kernel.opsc_code_datasets.
    set (L := kernel.lhs_datasets self). set (R := kernel.rhs_datasets self).
    split_and!; [set_solver..| |].
    + intros f. split.
      * intros Hf. assert (f ∈ L ∨ f ∈ R) as [Hf'|Hf'] by set_solver.
        -- apply elem_of_lhs_datasets in Hf' as (e & ? & ?). exists e. auto.
        -- apply elem_of_rhs_datasets in Hf' as (e & ? & ?). exists e. auto.
      * intros (e & He & [Hf|Hf]).
        -- assert (f ∈ L) by (apply elem_of_lhs_datasets; eauto).
           destruct (decide (f ∈ R)); set_solver.
        -- assert (f ∈ R) by (apply elem_of_rhs_datasets; eauto).
           destruct (decide (f ∈ L)); set_solver.
    + intros e1 e2 f H1 H2 Hl Hr.
      assert (f ∈ L) by (apply elem_of_lhs_datasets; eauto).
      assert (f ∈ R) by (apply elem_of_rhs_datasets; eauto).
      set_solver.
  - unfold autofd.get_kernel_datasets.
    pose proof (elem_of_base_labels lhs evals) as HL.
    pose proof (elem_of_base_labels rhs evals) as HR.
    revert HL HR.
    generalize (list_to_set
      (map fst (List.flat_map (fun eq => elements (atoms_DataSet (lhs eq)))
                  evals)) : gset string).
    generalize (list_to_set
      (map fst (List.flat_map (fun eq => elements (atoms_DataSet (rhs eq)))
                  evals)) : gset string).
    intros R L HL HR.
    split_and!; [set_solver..| | |].
    + intros f. split.
      * intros Hf. assert (f ∈ L ∨ f ∈ R) as [Hf'|Hf'] by set_solver.
        -- apply HL in Hf' as (e & ? & ?). exists e.
           split; [by apply list_elem_of_fmap_2|auto].
        -- apply HR in Hf' as (e & ? & ?). exists e.
           split; [by apply list_elem_of_fmap_2|auto].
      * intros (e & He & Hf).
        apply list_elem_of_fmap in He as (e' & [= <-] & He).
        destruct Hf as [Hf|Hf].
        -- assert (f ∈ L) by (apply HL; eauto).
           destruct (decide (f ∈ R)); set_solver.
        -- assert (f ∈ R) by (apply HR; eauto).
           destruct (decide (f ∈ L)); set_solver.
    + intros f. rewrite !elem_of_app, !elem_of_elements. set_solver.
    + intros e1 e2 f H1 H2 Hl Hr.
      assert (f ∈ L) by (apply HL; eauto).
      assert (f ∈ R) by (apply HR; eauto).
      set_solver.
Qed.

End classifier.

(** ** Iteration range *)

Module iteration_range.

Lemma get_min_max_halo_values_map (halos : list halo_pair) :
  get_min_max_halo_values halos
  = (map (fun h => halo_min h.1) halos, map (fun h => halo_max h.2) halos).
Proof.
  unfold get_min_max_halo_values.
  enough (∀ m p,
    foldl (fun '(halo_m, halo_p) direction =>
             (halo_m ++ [halo_min direction.1],
              halo_p ++ [halo_max direction.2])) (m, p) halos
    = (m ++ map (fun h => halo_min h.1) halos,
       p ++ map (fun h => halo_max h.2) halos)) as H by apply (H [] []).
  induction halos as [|h halos IH]; intros m p; simpl.
  - by rewrite !app_nil_r.
  - rewrite IH. by rewrite <- !app_assoc.
Qed.

Lemma min_list_spec (h : Z) (hal : list Z) :
  min_list h hal ∈ h :: hal ∧ ∀ x, x ∈ h :: hal → min_list h hal <= x.
Proof.
  unfold min_list. revert h. induction hal as [|y hal IH]; intros h; simpl.
  - split; [apply list_elem_of_here|]. intros x ->%list_elem_of_singleton. lia.
  - destruct (IH (Z.min h y)) as [Hin Hle]. split.
    + apply elem_of_cons in Hin as [->|Hin].
      * destruct (Z.min_spec h y) as [[_ ->]|[_ ->]];
          [apply list_elem_of_here|apply list_elem_of_further, list_elem_of_here].
      * by do 2 apply list_elem_of_further.
    + intros x Hx.
      assert (foldl Z.min (Z.min h y) hal <= Z.min h y)
        by apply Hle, list_elem_of_here.
      apply elem_of_cons in Hx as [->|Hx]; [lia|].
      apply elem_of_cons in Hx as [->|Hx]; [lia|].
      by apply Hle, list_elem_of_further.
Qed.

Lemma max_list_spec (h : Z) (hal : list Z) :
  max_list h hal ∈ h :: hal ∧ ∀ x, x ∈ h :: hal → x <= max_list h hal.
Proof.
  unfold max_list. revert h. induction hal as [|y hal IH]; intros h; simpl.
  - split; [apply list_elem_of_here|]. intros x ->%list_elem_of_singleton. lia.
  - destruct (IH (Z.max h y)) as [Hin Hle]. split.
    + apply elem_of_cons in Hin as [->|Hin].
      * destruct (Z.max_spec h y) as [[_ ->]|[_ ->]];
          [apply list_elem_of_further, list_elem_of_here|apply list_elem_of_here].
      * by do 2 apply list_elem_of_further.
    + intros x Hx.
      assert (Z.max h y <= foldl Z.max (Z.max h y) hal)
        by apply Hle, list_elem_of_here.
      apply elem_of_cons in Hx as [->|Hx]; [lia|].
      apply elem_of_cons in Hx as [->|Hx]; [lia|].
      by apply Hle, list_elem_of_further.
Qed.

Lemma halo_min_reduced (s : list SchemeHalos) : reduced_min s (halo_min s).
Proof.
  unfold reduced_min, halo_min. destruct s as [|c s]; simpl; [by left|].
  right. apply min_list_spec.
Qed.

Lemma halo_max_reduced (s : list SchemeHalos) : reduced_max s (halo_max s).
Proof.
  unfold reduced_max, halo_max. destruct s as [|c s]; simpl; [by left|].
  right. apply max_list_spec.
Qed.

(** The halo requirement of a kernel has one entry for each dimension, from
    [__init__] on and through every [set_halo_range]. *)
Lemma init_halo_ranges_length (block : kernel.Block) (name : option string) :
  length (kernel.k_halo_ranges (kernel.init block name)) = kernel.ndim block
  ∧ kernel.k_ndim (kernel.init block name) = kernel.ndim block.
Proof. simpl. by rewrite length_replicate. Qed.

Lemma set_halo_range_length (self self' : kernel.Kernel) (direction side : nat)
    (types : list SchemeHalos + SchemeHalos) :
  kernel.set_halo_range self direction side types = Ok self' →
  length (kernel.k_halo_ranges self') = length (kernel.k_halo_ranges self)
  ∧ kernel.k_ndim self' = kernel.k_ndim self
  ∧ kernel.k_ranges self' = kernel.k_ranges self.
Proof.
  unfold kernel.set_halo_range, getitem.
  destruct (kernel.k_halo_ranges self !! direction) as [h|]; simpl; [|done].
  destruct side as [|[|side]]; intros [= <-]; simpl;
    by rewrite ?length_insert.
Qed.

(** The kernel of the example is what [set_halo_range] builds, one
    contributor on each side of dimension 0. *)
Lemma halo_kernel_built :
  (k ← kernel.set_halo_range
         (kernel.set_grid_range (kernel.init block0 None) block0)
         0 0 (inr one_halo);
   kernel.set_halo_range k 0 1 (inr one_halo))
  = Ok halo_kernel.
Proof. reflexivity. Qed.

(** C3.  For a kernel with a grid range and a halo requirement for each of
    its dimensions, [opsc_code] computes a range of evaluation (it does not
    raise) that has, in every dimension, the base lower bound plus the
    reduction of the negative-side contributor set (the least extent, 0 for
    the empty set) and the base upper bound plus the reduction of the
    positive-side set (the greatest extent, 0 for the empty set). *)
Theorem finalized_range (self : kernel.Kernel) (base : list (Z * Z)) :
  kernel.k_ranges self = Some base →
  length base = kernel.k_ndim self →
  length (kernel.k_halo_ranges self) = kernel.k_ndim self →
  ∃ range,
    kernel.range_of_eval self = Ok range
    ∧ length range = kernel.k_ndim self
    ∧ ∀ d lo hi neg pos,
        base !! d = Some (lo, hi) →
        kernel.k_halo_ranges self !! d = Some (neg, pos) →
        ∃ m p, range !! d = Some (lo + m, hi + p)
               ∧ reduced_min neg m ∧ reduced_max pos p.
Proof.
  intros Hr Hlb Hlh. unfold kernel.range_of_eval.
  rewrite get_min_max_halo_values_map, Hr.
  set (halos := kernel.k_halo_ranges self) in *.
  set (g := fun d : nat =>
              match base !! d, halos !! d with
              | Some r, Some h => (r.1 + halo_min h.1, r.2 + halo_max h.2)
              | _, _ => (0, 0)
              end).
  exists (g <$> seq 0 (kernel.k_ndim self)). split_and!.
  - apply sorting_facts.for_each_total. intros d Hd. apply elem_of_seq in Hd.
    destruct (lookup_lt_is_Some_2 base d) as [r Hbd]; [lia|].
    destruct (lookup_lt_is_Some_2 halos d) as [h Hhd]; [lia|].
    unfold g, getitem.
    rewrite !sorting_facts.fmap_map, !list_lookup_fmap, Hbd, Hhd.
    simpl. by rewrite Hbd.
  - by rewrite length_fmap, length_seq.
  - intros d lo hi neg pos Hbd Hhd.
    exists (halo_min neg), (halo_max pos). split_and!.
    + rewrite list_lookup_fmap, lookup_seq_lt
        by (apply lookup_lt_Some in Hbd; lia).
      simpl. unfold g. by rewrite Hbd, Hhd.
    + apply halo_min_reduced.
    + apply halo_max_reduced.
Qed.

Lemma finalized_range_witness :
  ∃ range,
    kernel.range_of_eval halo_kernel = Ok range
    ∧ range !! 0%nat = Some (-1, 201)
    ∧ kernel.iter_name_code halo_kernel
      = Ok "int iteration_range_0[] = {-1, 201};".
Proof.
  destruct (finalized_range halo_kernel [(0, 200)])
    as (range & Hr & Hl & Hd); [reflexivity..|].
  exists range. split; [exact Hr|].
  vm_compute in Hr. injection Hr as <-. split; reflexivity.
Defined.

End iteration_range.

(** ** The canonical order of a stencil *)

Module stencil_order.

(** C5, as the code has it.  On a non-empty list of integer tuples of one
    length, the repeated stable sorts of [OPSC.sort_stencil_indices] (by
    entry 0, then by entry 1, and so on) give the order of a single sort on
    the reversed tuple: the last entry is the most significant one, entry 0
    the least.  [StencilObject.sort_stencil_indices] gives the lexicographic
    order of the tuple itself.  The two orders are the same when the tuples
    have at most one entry. *)
Theorem sort_stencil_indices_order (n : nat) (l : list (list Z)) :
  l ≠ [] → Forall (fun t => length t = n) l →
  opsc.sort_stencil_indices l = Ok (concat (sorted reverse tuple_le l))
  ∧ kernel.StencilObject_sort_stencil_indices id l
    = Ok (sorted (fun t => t) tuple_le l)
  ∧ ((n <= 1)%nat →
     opsc.sort_stencil_indices l
     = flattened (kernel.StencilObject_sort_stencil_indices id l)).
Proof.
  intros Hne Hlen.
  pose proof (sorting_facts.sort_stencil_indices_colex n l Hne Hlen) as Hc.
  pose proof (sorting_facts.StencilObject_sort_lex n l Hne Hlen) as Hx.
  split_and!; [done..|]. intros Hn. rewrite Hc, Hx. simpl. do 2 f_equal.
  apply sorting_facts.sorted_ext. intros t Ht.
  rewrite Forall_forall in Hlen. specialize (Hlen t Ht).
  destruct t as [|x [|y t]]; simpl in *; [done..|lia].
Qed.

Lemma sort_stencil_indices_order_witness :
  opsc.sort_stencil_indices [[0; 1]; [1; 0]] = Ok [1; 0; 0; 1]
  ∧ kernel.StencilObject_sort_stencil_indices id [[0; 1]; [1; 0]]
    = Ok [[0; 1]; [1; 0]].
Proof.
  destruct (sort_stencil_indices_order 2 [[0; 1]; [1; 0]]) as (H1 & H2 & _);
    [discriminate|repeat constructor|].
  split; [rewrite H1|rewrite H2]; reflexivity.
Defined.

(** The two sorts disagree on the tuples (0, 1) and (1, 0). *)
Lemma sort_stencil_indices_not_lexicographic :
  opsc.sort_stencil_indices [[0; 1]; [1; 0]]
  ≠ flattened (kernel.StencilObject_sort_stencil_indices id [[0; 1]; [1; 0]]).
Proof. vm_compute. discriminate. Qed.

End stencil_order.

(** ** Relative stencils *)

Module stencils.

Lemma value_mk_Add (a b : index) : value (mk_Add a b) = value a + value b.
Proof. unfold mk_Add. repeat case_match; subst; simpl; lia. Qed.

Lemma value_mk_Mul (a b : index) : value (mk_Mul a b) = value a * value b.
Proof. unfold mk_Mul. repeat case_match; subst; simpl; lia. Qed.

Lemma value_subs (a : string) (e : index) :
  value (subs a (Integer 0) e) = value e.
Proof.
  induction e as [z|s|x IHx y IHy|x IHx y IHy]; simpl.
  - done.
  - by case_decide.
  - by rewrite value_mk_Add, IHx, IHy.
  - by rewrite value_mk_Mul, IHx, IHy.
Qed.

Lemma atoms_mk_Add (a b : index) :
  atoms_Symbol (mk_Add a b) ⊆ atoms_Symbol a ∪ atoms_Symbol b.
Proof. unfold mk_Add. repeat case_match; subst; simpl; set_solver. Qed.

Lemma atoms_mk_Mul (a b : index) :
  atoms_Symbol (mk_Mul a b) ⊆ atoms_Symbol a ∪ atoms_Symbol b.
Proof. unfold mk_Mul. repeat case_match; subst; simpl; set_solver. Qed.

Lemma atoms_subs (a : string) (e : index) :
  atoms_Symbol (subs a (Integer 0) e) ⊆ atoms_Symbol e ∖ {[ a ]}.
Proof.
  induction e as [z|s|x IHx y IHy|x IHx y IHy]; simpl.
  - done.
  - case_decide; simpl; set_solver.
  - pose proof (atoms_mk_Add (subs a (Integer 0) x) (subs a (Integer 0) y)).
    set_solver.
  - pose proof (atoms_mk_Mul (subs a (Integer 0) x) (subs a (Integer 0) y)).
    set_solver.
Qed.

Lemma canonical_mk_Add (a b : index) :
  canonical a = true → canonical b = true → canonical (mk_Add a b) = true.
Proof.
  intros Ha Hb. unfold mk_Add. repeat case_match; subst; try done;
    simpl in *; rewrite ?Ha, ?Hb; by rewrite ?bool_decide_eq_true_2.
Qed.

Lemma canonical_mk_Mul (a b : index) :
  canonical a = true → canonical b = true → canonical (mk_Mul a b) = true.
Proof.
  intros Ha Hb. unfold mk_Mul. repeat case_match; subst; try done;
    simpl in *; rewrite ?Ha, ?Hb; by rewrite ?bool_decide_eq_true_2.
Qed.

Lemma canonical_subs (a : string) (e : index) :
  canonical e = true → canonical (subs a (Integer 0) e) = true.
Proof.
  induction e as [z|s|x IHx y IHy|x IHx y IHy]; simpl.
  - done.
  - by case_decide.
  - rewrite !andb_true_iff. intros [[Hx Hy] _]. apply canonical_mk_Add; auto.
  - rewrite !andb_true_iff. intros [[Hx Hy] _]. apply canonical_mk_Mul; auto.
Qed.

(** A canonical expression without symbols is a number. *)
Lemma canonical_closed (e : index) :
  canonical e = true → atoms_Symbol e = ∅ → e = Integer (value e).
Proof.
  induction e as [z|s|x IHx y IHy|x IHx y IHy]; simpl.
  - done.
  - intros _ Hs. set_solver.
  - rewrite !andb_true_iff. intros [[Hx Hy] Hc] Hs.
    apply bool_decide_eq_true_1 in Hc.
    rewrite (IHx Hx) in Hc by set_solver. rewrite (IHy Hy) in Hc by set_solver.
    simpl in Hc. repeat case_match; discriminate.
  - rewrite !andb_true_iff. intros [[Hx Hy] Hc] Hs.
    apply bool_decide_eq_true_1 in Hc.
    rewrite (IHx Hx) in Hc by set_solver. rewrite (IHy Hy) in Hc by set_solver.
    simpl in Hc. repeat case_match; discriminate.
Qed.

Lemma zero_all (L : list string) (v : index) :
  let r := foldl (fun outv a => subs a (Integer 0) outv) v L in
  value r = value v
  ∧ atoms_Symbol r ⊆ atoms_Symbol v ∖ list_to_set L
  ∧ (canonical v = true → canonical r = true).
Proof.
  revert v. induction L as [|a L IH]; intros v; simpl.
  - split_and!; [done|set_solver|done].
  - destruct (IH (subs a (Integer 0) v)) as (Hv & Ha & Hc). split_and!.
    + by rewrite Hv, value_subs.
    + pose proof (atoms_subs a v). set_solver.
    + intros H. by apply Hc, canonical_subs.
Qed.

Lemma value_zero_symbols (v : index) :
  value (opsc.zero_symbols v) = value v.
Proof. apply zero_all. Qed.

(** Once every symbol is 0 an index is the integer [value v]. *)
Lemma zero_symbols_Integer (v : index) :
  canonical v = true → opsc.zero_symbols v = Integer (value v).
Proof.
  intros Hc. unfold opsc.zero_symbols.
  destruct (zero_all (elements (atoms_Symbol v)) v) as (Hv & Ha & Hcr).
  rewrite <- Hv. apply canonical_closed; [auto|].
  rewrite list_to_set_elements_L in Ha. set_solver.
Qed.

Lemma sort_dimensions_raises (dims : list nat) (l : list (list Z)) (e : exn) :
  opsc.sort_dimensions dims l = Raise e → e = IndexError.
Proof.
  revert l. induction dims as [|dim dims IH]; intros l; simpl; [done|].
  destruct (sorted_by _ _ l) as [l'|e'] eqn:Hs; simpl.
  - apply IH.
  - intros [= ->]. apply sorting_facts.sorted_by_raises in Hs as (t & _ & Ht).
    unfold getitem in Ht. destruct (t !! dim); congruence.
Qed.

Lemma sort_stencil_indices_raises (l : list (list Z)) (e : exn) :
  opsc.sort_stencil_indices l = Raise e → e = IndexError.
Proof.
  unfold opsc.sort_stencil_indices, getitem.
  destruct (l !! 0%nat) as [first|]; simpl; [|congruence].
  destruct (Nat.ltb 1 (length first)); [|done].
  destruct (opsc.sort_dimensions _ l) as [l'|e'] eqn:Hs; simpl; [done|].
  intros [= ->]. by apply sort_dimensions_raises in Hs.
Qed.

Lemma relative_stencil_sorted (n : nat) (value : list (list index)) :
  value ≠ [] → Forall (fun va => length va = n) value →
  opsc.relative_stencil (opsc.Many value)
  = Ok (concat (sorted reverse tuple_le (offsets_of value))).
Proof.
  intros Hne Hlen. unfold opsc.relative_stencil.
  rewrite !sorting_facts.fmap_map.
  assert ((fun va : list index =>
             map (fun v => sympy.value (opsc.zero_symbols v)) va) <$> value
          = offsets_of value) as ->.
  { apply list_fmap_ext. intros _ va _. rewrite sorting_facts.fmap_map.
    apply list_fmap_ext. intros _ v _. apply value_zero_symbols. }
  apply (sorting_facts.sort_stencil_indices_colex n).
  - by destruct value.
  - unfold offsets_of. rewrite Forall_fmap. eapply Forall_impl; [exact Hlen|].
    intros va Hva. simpl. by rewrite length_fmap.
Qed.

Lemma stencil_dictionary_lookup (D : gset (string * list index)) (b : string) :
  match
    set_fold (fun s (d : gmap string (gset (list index))) =>
                match d !! s.1 with
                | Some val => <[s.1 := val ∪ {[ s.2 ]}]> d
                | None => <[s.1 := {[ s.2 ]}]> d
                end) ∅ D !! b
  with
  | Some St => ∀ idx : list index, idx ∈ St ↔ (b, idx) ∈ D
  | None => ∀ idx : list index, (b, idx) ∉ D
  end.
Proof.
  revert D.
  apply (set_fold_ind_L
    (fun (m : gmap string (gset (list index)))
         (X : gset (string * list index)) =>
       match m !! b with
       | Some St => ∀ idx : list index, idx ∈ St ↔ (b, idx) ∈ X
       | None => ∀ idx : list index, (b, idx) ∉ X
       end)).
  - rewrite lookup_empty. set_solver.
  - intros [b' idx'] X m Hx IH. simpl.
    destruct (decide (b' = b)) as [->|Hne].
    + destruct (m !! b) as [St|] eqn:Hm.
      * rewrite lookup_insert_eq. intros idx. rewrite elem_of_union, IH.
        set_solver.
      * rewrite lookup_insert_eq. intros idx. set_solver.
    + destruct (m !! b') as [St'|].
      * rewrite lookup_insert_ne by done.
        destruct (m !! b) as [St|]; set_solver.
      * rewrite lookup_insert_ne by done.
        destruct (m !! b) as [St|]; set_solver.
Qed.

(** What [Kernel.get_stencils] holds for a field: the index tuples of the
    accesses to it, and nothing else. *)
Lemma get_stencils_lookup (self : kernel.Kernel) (b : string) :
  match kernel.get_stencils self !! b with
  | Some St =>
      ∀ idx, idx ∈ St ↔
             ∃ e, PyEq e ∈ kernel.equations self
                  ∧ (b, idx) ∈ atoms_DataSet (lhs e) ∪ atoms_DataSet (rhs e)
  | None =>
      ∀ idx e, PyEq e ∈ kernel.equations self →
               (b, idx) ∉ atoms_DataSet (lhs e) ∪ atoms_DataSet (rhs e)
  end.
Proof.
  unfold kernel.get_stencils.
  set (D := foldl _ ∅ (kernel.equations self)).
  assert (HD : ∀ x, x ∈ D ↔
            ∃ e, PyEq e ∈ kernel.equations self
                 ∧ x ∈ atoms_DataSet (lhs e) ∪ atoms_DataSet (rhs e)).
  { intros x. unfold D.
    rewrite (classifier.elem_of_fold_equalities
               (fun e => atoms_DataSet (lhs e) ∪ atoms_DataSet (rhs e))).
    set_solver. }
  pose proof (stencil_dictionary_lookup D b) as H.
  destruct (set_fold _ ∅ D !! b) as [St|].
  - intros idx. by rewrite H, HD.
  - intros idx e He Hin. apply (H idx), HD. eauto.
Qed.

(** C2, as the code has it.  On a non-empty list of index tuples of one
    length [OPSC.relative_stencil] returns, sorted and flattened, exactly the
    tuples it was given, each index taken with its symbols at 0: the all-zero
    tuple is in the stencil if and only if one of the references is at the
    current point.  [Kernel.get_stencils] likewise holds, for a field,
    exactly the index tuples of the accesses to that field. *)
Theorem relative_stencil_exact (n : nat) (value : list (list index))
    (self : kernel.Kernel) :
  value ≠ [] → Forall (fun va => length va = n) value →
  (∃ tuples,
      opsc.relative_stencil (opsc.Many value) = Ok (concat tuples)
      ∧ tuples ≡ₚ offsets_of value
      ∧ (replicate n 0 ∈ tuples ↔
         ∃ va, va ∈ value ∧ sympy.value <$> va = replicate n 0))
  ∧ (∀ b St idx,
       kernel.get_stencils self !! b = Some St →
       (idx ∈ St ↔
        ∃ e, PyEq e ∈ kernel.equations self
             ∧ (b, idx) ∈ atoms_DataSet (lhs e) ∪ atoms_DataSet (rhs e))).
Proof.
  intros Hne Hlen. split.
  - exists (sorted reverse tuple_le (offsets_of value)).
    split_and!.
    + by apply (relative_stencil_sorted n).
    + apply sorting_facts.sorted_Permutation.
    + rewrite sorting_facts.sorted_Permutation. unfold offsets_of.
      rewrite list_elem_of_fmap. naive_solver.
  - intros b St idx Hb. pose proof (get_stencils_lookup self b) as H.
    rewrite Hb in H. apply H.
Qed.

Lemma relative_stencil_exact_witness :
  ∃ tuples,
    opsc.relative_stencil (opsc.Many [[x0_plus_1]; [x0]]) = Ok (concat tuples)
    ∧ tuples ≡ₚ offsets_of [[x0_plus_1]; [x0]].
Proof.
  destruct (relative_stencil_exact 1 [[x0_plus_1]; [x0]] shifted_kernel)
    as [(tuples & Hr & Hp & _) _]; [discriminate|repeat constructor|].
  by exists tuples.
Defined.

(** A field read only at offset +1: the stencil is that offset alone. *)
Lemma zero_offset_not_added :
  opsc.relative_stencil (opsc.Many [[x0_plus_1]]) = Ok [1]
  ∧ kernel.get_stencils shifted_kernel !! "in" = Some {[ [Integer 1] ]}
  ∧ [Integer 0] ∉ ({[ [Integer 1] ]} : gset (list index)).
Proof.
  split_and!; [by vm_compute|by vm_compute|].
  intros H%elem_of_singleton. discriminate.
Qed.

(** C9, as the code has it.  [OPSC.relative_stencil] replaces every symbol of
    an index by 0, the loop symbols and any other symbol alike, so that every
    offset comes out as an integer; on a non-empty list of index tuples of
    one length it returns a stencil, one offset for every index it was given.
    It never reports a symbolic offset: the only exception it raises is the
    [IndexError] of an empty list or of tuples of different lengths. *)
Theorem relative_stencil_zeroes_every_symbol (n : nat)
    (value : list (list index)) :
  value ≠ [] → Forall (fun va => length va = n) value →
  (∃ sten,
      opsc.relative_stencil (opsc.Many value) = Ok sten
      ∧ length sten = (n * length value)%nat)
  ∧ (∀ v, canonical v = true →
          opsc.zero_symbols v = Integer (sympy.value v))
  ∧ (∀ acc e, opsc.relative_stencil acc = Raise e → e = IndexError).
Proof.
  intros Hne Hlen. split_and!.
  - eexists. split; [by apply (relative_stencil_sorted n)|].
    set (tuples := sorted _ _ _).
    assert (Hp : tuples ≡ₚ offsets_of value)
      by apply sorting_facts.sorted_Permutation.
    assert (Hl : Forall (fun t : list Z => length t = n) tuples).
    { rewrite Hp. unfold offsets_of. rewrite Forall_fmap.
      eapply Forall_impl; [exact Hlen|].
      intros va Hva. simpl. by rewrite length_fmap. }
    replace (length value) with (length tuples)
      by (rewrite Hp; apply length_fmap).
    clear Hp. induction Hl as [|t ts Ht Hts IH]; simpl; [lia|].
    rewrite length_app, IH, Ht. lia.
  - apply zero_symbols_Integer.
  - intros acc e. apply sort_stencil_indices_raises.
Qed.

Lemma relative_stencil_zeroes_every_symbol_witness :
  ∃ sten,
    opsc.relative_stencil (opsc.Many [[x0_plus_n]]) = Ok sten
    ∧ length sten = 1%nat.
Proof.
  destruct (relative_stencil_zeroes_every_symbol 1 [[x0_plus_n]])
    as ((sten & Hr & Hl) & _); [discriminate|repeat constructor|].
  by exists sten.
Defined.

(** The offset [x0 + n] is still the symbol [n] once the loop symbol [x0]
    is 0, and yet the stencil is computed, with offset 0. *)
Lemma symbolic_offset_not_reported :
  subs "x0" (Integer 0) x0_plus_n = Symbol "n"
  ∧ opsc.relative_stencil (opsc.Many [[x0_plus_n]]) = Ok [0]
  ∧ ¬ raises (opsc.relative_stencil (opsc.Many [[x0_plus_n]])).
Proof. split_and!; [by vm_compute..|]. vm_compute. tauto. Qed.

End stencils.

(** ** The expression printer *)

Module printer.

Lemma has_slash_app (a b : string) :
  has_slash (a +:+ b) = has_slash a || has_slash b.
Proof.
  induction a as [|c a IH]; simpl; [done|]. by rewrite IH, orb_assoc.
Qed.

Lemma has_slash_uint (d : Decimal.uint) :
  has_slash (NilEmpty.string_of_uint d) = false.
Proof. induction d; simpl; auto. Qed.

(** The decimal form of an integer has no division sign. *)
Lemma has_slash_str_int (z : Z) : has_slash (str_int z) = false.
Proof.
  unfold str_int, NilZero.string_of_int, NilZero.string_of_uint.
  destruct (Z.to_int z) as [d|d]; destruct d; simpl;
    auto using has_slash_uint.
Qed.

Lemma has_slash_print_Rational (p q : Z) :
  has_slash (opsc._print_Rational p q) = true.
Proof.
  unfold opsc._print_Rational. rewrite !has_slash_app, has_slash_str_int.
  reflexivity.
Qed.

Lemma sgn_mul_self (q : Z) : Z.sgn q * q = Z.abs q.
Proof. destruct q; simpl; lia. Qed.

Lemma Rational_not_integer (p q : Z) :
  q ≠ 0 → ¬ (q | p) →
  ∃ p' q', Rational p q = Frac p' q' ∧ 1 < q' ∧ p * q' = p' * q.
Proof.
  intros Hq Hndiv. unfold Rational.
  set (g := Z.gcd p q).
  assert (Hg : 0 < g).
  { pose proof (Z.gcd_nonneg p q).
    destruct (decide (g = 0)) as [Hg0|]; [|lia].
    by apply Z.gcd_eq_0_r in Hg0. }
  destruct (Z.gcd_divide_l p q) as [a Ha].
  destruct (Z.gcd_divide_r p q) as [b Hb]. fold g in Ha, Hb.
  assert (Hpg : p / g = a) by (rewrite Ha; apply Z.div_mul; lia).
  assert (Hab : Z.abs q = Z.abs b * g)
    by (rewrite Hb at 1; rewrite Z.abs_mul; lia).
  assert (Hqg : Z.abs q / g = Z.abs b)
    by (rewrite Hab; apply Z.div_mul; lia).
  pose proof (sgn_mul_self q) as Hsq.
  rewrite Hpg, Hqg.
  destruct (Z.eqb_spec (Z.abs b) 1) as [Hb1|Hb1].
  - exfalso. apply Hndiv. exists (Z.sgn q * a). nia.
  - exists (Z.sgn q * a), (Z.abs b). split_and!; [done| |nia].
    assert (b ≠ 0) by (intros ->; lia). lia.
Qed.

Lemma Rational_integer (p q : Z) :
  q ≠ 0 → (q | p) → ∃ z, Rational p q = Int z ∧ z * q = p.
Proof.
  intros Hq Hdiv. unfold Rational.
  assert (Hg : Z.gcd p q = Z.abs q).
  { rewrite Z.gcd_comm, <- Z.gcd_abs_l. apply Z.divide_gcd_iff; [lia|].
    by apply Z.divide_abs_l. }
  rewrite Hg, Z.div_same by lia. simpl.
  exists (Z.sgn q * (p / Z.abs q)). split; [done|].
  destruct Hdiv as [c ->].
  pose proof (sgn_mul_self q) as Hsq.
  assert (c * q / Z.abs q = c * Z.sgn q) as ->.
  { replace (c * q) with (c * Z.sgn q * Z.abs q) by nia.
    apply Z.div_mul. lia. }
  nia.
Qed.

Lemma elem_of_Rational_constants (self : kernel.Kernel) (n : number) :
  n ∈ kernel.Rational_constants self
  ↔ isinstance_Integer n = false
    ∧ ∃ e, PyEq e ∈ kernel.equations self
           ∧ n ∈ atoms_Rational (lhs e) ∪ atoms_Rational (rhs e).
Proof.
  unfold kernel.Rational_constants. rewrite elem_of_filter.
  rewrite (classifier.elem_of_fold_equalities
             (fun e => atoms_Rational (lhs e) ∪ atoms_Rational (rhs e))).
  set_solver.
Qed.

(** C6.  A rational [p/q] that is not an integer is held in lowest terms as
    [p'/q'] with [q' > 1], and is printed as the literal division
    ["p'.0/q'.0"].  A rational that is an integer is an [Integer]: it is
    printed as its decimal form, without a division sign.  The rational
    constants collected from a kernel's equations are the non-integer numbers
    of the equations. *)
Theorem rational_printing (p q : Z) (self : kernel.Kernel) :
  q ≠ 0 →
  (¬ (q | p) →
   ∃ p' q',
     Rational p q = Frac p' q' ∧ 1 < q' ∧ p * q' = p' * q
     ∧ opsc._print_number (Rational p q)
       = str_int p' +:+ ".0/" +:+ str_int q' +:+ ".0")
  ∧ ((q | p) →
     ∃ z, Rational p q = Int z ∧ z * q = p
          ∧ opsc._print_number (Rational p q) = str_int z
          ∧ has_slash (opsc._print_number (Rational p q)) = false)
  ∧ (∀ z, has_slash (opsc._print_number (Int z)) = false)
  ∧ (∀ n, n ∈ kernel.Rational_constants self ↔
          isinstance_Integer n = false
          ∧ ∃ e, PyEq e ∈ kernel.equations self
                 ∧ n ∈ atoms_Rational (lhs e) ∪ atoms_Rational (rhs e)).
Proof.
  intros Hq. split_and!.
  - intros Hn. destruct (Rational_not_integer p q Hq Hn) as (p' & q' & -> & ?).
    exists p', q'. naive_solver.
  - intros Hd. destruct (Rational_integer p q Hq Hd) as (z & -> & ?).
    exists z. split_and!; [done..|]. apply has_slash_str_int.
  - intros z. apply has_slash_str_int.
  - apply elem_of_Rational_constants.
Qed.

Lemma rational_printing_witness :
  opsc._print_number (Rational 3 4) = "3.0/4.0"
  ∧ opsc._print_number (Rational 4 1) = "4".
Proof.
  destruct (rational_printing 3 4 shifted_kernel) as (_ & _ & _ & _);
    [discriminate|].
  destruct (rational_printing 4 1 shifted_kernel) as (_ & _ & _ & _);
    [discriminate|].
  split; reflexivity.
Defined.

End printer.

(** ** The equation list *)

Module equation_list.

Lemma flatten_equalities (es : list Equality) :
  flatten (PyEq <$> es) = PyEq <$> es.
Proof. induction es as [|e es IH]; simpl; [done|]. f_equal. exact IH. Qed.

Lemma flatten_singleton_list (l : list object) : flatten [PyList l] = flatten l.
Proof. unfold flatten. simpl. by rewrite app_nil_r. Qed.

Lemma set_equations_same (self : kernel.Kernel) :
  kernel.set_equations self (kernel.equations self) = self.
Proof. by destruct self. Qed.

(** C7, as the code has it.  [add_equation] appends a single equality;
    it appends the elements of a list in order, nested lists spliced in, so
    that a list of equalities is appended as it is and the empty list changes
    nothing; for an argument that is neither a list nor an equality it
    changes nothing when the argument is truthy, and raises the value error
    when the argument is falsy ([None], [0], the empty string). *)
Theorem add_equation_cases (self : kernel.Kernel) :
  (∀ e, kernel.add_equation self (PyEq e)
        = Ok (kernel.set_equations self (kernel.equations self ++ [PyEq e])))
  ∧ (∀ l, kernel.add_equation self (PyList l)
          = Ok (kernel.set_equations self (kernel.equations self ++ flatten l)))
  ∧ (∀ es, kernel.add_equation self (PyList (PyEq <$> es))
           = Ok (kernel.set_equations self
                   (kernel.equations self ++ (PyEq <$> es))))
  ∧ kernel.add_equation self (PyList []) = Ok self
  ∧ kernel.add_equation self PyNone
    = Raise (ValueError "Error in kernel add equation.")
  ∧ (∀ z, kernel.add_equation self (PyInt z)
          = if Z.eqb z 0
            then Raise (ValueError "Error in kernel add equation.")
            else Ok self)
  ∧ (∀ s, kernel.add_equation self (PyStr s)
          = if bool_decide (s = EmptyString)
            then Raise (ValueError "Error in kernel add equation.")
            else Ok self).
Proof.
  split_and!.
  - done.
  - intros l. unfold kernel.add_equation. by rewrite flatten_singleton_list.
  - intros es. unfold kernel.add_equation.
    by rewrite flatten_singleton_list, flatten_equalities.
  - unfold kernel.add_equation. rewrite flatten_singleton_list. simpl.
    by rewrite app_nil_r, set_equations_same.
  - done.
  - intros z. simpl. by destruct (Z.eqb z 0).
  - intros s. simpl. by destruct (bool_decide (s = EmptyString)).
Qed.

(** [None] is falsy and raises; 5 is neither an equality, nor a list, nor
    falsy, and is accepted without effect. *)
Lemma add_equation_falsy_raises :
  kernel.add_equation (kernel.init block0 None) PyNone
  = Raise (ValueError "Error in kernel add equation.")
  ∧ kernel.add_equation (kernel.init block0 None) (PyInt 5)
    = Ok (kernel.init block0 None).
Proof. split; reflexivity. Qed.

End equation_list.

(** ** Printing an indexed access *)

Module indexed_printer.

Lemma print_without_accs (P : opsc.CCodePrinter) (e : expr) :
  (atoms_DataSet e = ∅ ∧ ∃ s, opsc._print P None e = Ok s)
  ∨ (atoms_DataSet e ≠ ∅ ∧ opsc._print P None e = Raise TypeError).
Proof.
  induction e as [n|s|b idx|a IHa b IHb|a IHa b IHb|a IHa b IHb]; simpl.
  - left. eauto.
  - left. eauto.
  - right. split; [set_solver|done].
  - destruct IHa as [[Ha [sa ->]]|[Ha ->]]; simpl; [|right; set_solver].
    destruct IHb as [[Hb [sb ->]]|[Hb ->]]; simpl; [|right; set_solver].
    left. split; [set_solver|eauto].
  - destruct IHa as [[Ha [sa ->]]|[Ha ->]]; simpl; [|right; set_solver].
    destruct IHb as [[Hb [sb ->]]|[Hb ->]]; simpl; [|right; set_solver].
    left. split; [set_solver|eauto].
  - destruct IHa as [[Ha [sa ->]]|[Ha ->]]; simpl; [|right; set_solver].
    destruct IHb as [[Hb [sb ->]]|[Hb ->]]; simpl; [|right; set_solver].
    left. split; [set_solver|eauto].
Qed.

(** C10.  [_print_Indexed] looks the base of the access, taken after the
    symbols of the indices are 0, up in [Indexed_accs]: with [None] for
    [Indexed_accs] the lookup raises a type error, with a dictionary that has
    no entry for the base it raises a key error, and only with an entry does
    it print, the tagged form for a truthy tag and the untagged form for a
    falsy one.  Hence [ccode] with its default [Indexed_accs=None] raises on
    every expression and every equation with an indexed access in it. *)
Theorem print_Indexed_lookup (P : opsc.CCodePrinter) (accs : opsc.Indexed_accs)
    (e : opsc.Indexed) (x : expr) (eq : Equality) :
  match accs with
  | None => opsc._print_Indexed P accs e = Raise TypeError
  | Some d =>
      match d !! opsc.base (zeroed e) with
      | None => opsc._print_Indexed P accs e = Raise KeyError
      | Some tag =>
          opsc._print_Indexed P accs e
          = Ok (if opsc.tag_truth tag
                then opsc.tagged_form P tag (zeroed e)
                else opsc.untagged_form P (zeroed e))
      end
  end
  ∧ (∀ s, opsc._print_Indexed P accs e = Ok s →
          ∃ d tag, accs = Some d ∧ d !! opsc.base (zeroed e) = Some tag
                   ∧ (opsc.tag_truth tag = false →
                      s = opsc.untagged_form P (zeroed e))
                   ∧ (opsc.tag_truth tag = true →
                      s = opsc.tagged_form P tag (zeroed e)))
  ∧ (atoms_DataSet x ≠ ∅ → opsc.ccode P (inr x) None = Raise TypeError)
  ∧ (atoms_DataSet (lhs eq) ∪ atoms_DataSet (rhs eq) ≠ ∅ →
     opsc.ccode P (inl eq) None = Raise TypeError).
Proof.
  assert (Hcases :
    match accs with
    | None => opsc._print_Indexed P accs e = Raise TypeError
    | Some d =>
        match d !! opsc.base (zeroed e) with
        | None => opsc._print_Indexed P accs e = Raise KeyError
        | Some tag =>
            opsc._print_Indexed P accs e
            = Ok (if opsc.tag_truth tag
                  then opsc.tagged_form P tag (zeroed e)
                  else opsc.untagged_form P (zeroed e))
        end
    end).
  { unfold opsc._print_Indexed, zeroed. destruct accs as [d|]; simpl; [|done].
    destruct (d !! _) as [tag|]; simpl; [|done]. by destruct (opsc.tag_truth tag). }
  split_and!.
  - exact Hcases.
  - intros s Hs. destruct accs as [d|]; [|congruence].
    destruct (d !! opsc.base (zeroed e)) as [tag|] eqn:Hd; [|congruence].
    exists d, tag. rewrite Hcases in Hs. injection Hs as <-.
    split_and!; [done..| |]; by intros ->.
  - intros Hx. simpl.
    destruct (print_without_accs P x) as [[? _]|[_ ?]]; done.
  - intros Hx. simpl.
    destruct (print_without_accs P (lhs eq)) as [[Hl [sl ->]]|[_ ->]];
      simpl; [|done].
    destruct (print_without_accs P (rhs eq)) as [[Hr _]|[_ ->]];
      simpl; [set_solver|done].
Qed.

Lemma print_Indexed_lookup_witness :
  opsc.ccode plain_printer (inr (DataSet "u" [x0_plus_1])) None
  = Raise TypeError.
Proof.
  destruct (print_Indexed_lookup plain_printer None
              {| opsc.base := Symbol "u"; opsc.indices := [x0_plus_1] |}
              (DataSet "u" [x0_plus_1]) shifted_equation)
    as (_ & _ & Hx & _).
  apply Hx. simpl. intros H.
  assert (Hin : ("u", [x0_plus_1]) ∈ (∅ : gset (string * list index)))
    by (rewrite <- H; by apply elem_of_singleton).
  by apply not_elem_of_empty in Hin.
Defined.

End indexed_printer.

(** ** The field registries *)

Module field_registry.

#[local] Arguments kernel.register_dataset : simpl never.
#[local] Arguments kernel.resolve_stencil : simpl never.

Lemma register_dataset_same_block (d : string) (w w' : kernel.World)
    (block block' : kernel.Block) (r : result unit) :
  kernel.register_dataset d (w, block) = (w', block', r) →
  same_block block block'
  ∧ kernel.block_stencils block' = kernel.block_stencils block.
Proof.
  unfold kernel.register_dataset, same_block. intros H.
  repeat case_match; simplify_eq; done.
Qed.

(** Registering [d] leaves the entries of the other fields alone. *)
Lemma register_dataset_other (d k : string) (w w' : kernel.World)
    (block block' : kernel.Block) (r : result unit) :
  kernel.register_dataset d (w, block) = (w', block', r) → k ≠ d →
  kernel.objects w' !! k = kernel.objects w !! k
  ∧ kernel.block_datasets block' !! k = kernel.block_datasets block !! k.
Proof.
  unfold kernel.register_dataset. intros H Hk.
  repeat case_match; simplify_eq; simpl;
    rewrite ?lookup_insert_ne by done; done.
Qed.

Lemma register_dataset_datasetbases (d k : string) (w w' : kernel.World)
    (block block' : kernel.Block) (r : result unit) :
  kernel.register_dataset d (w, block) = (w', block', r) →
  k ∈ kernel.datasetbases w → k ∈ kernel.datasetbases w'.
Proof.
  unfold kernel.register_dataset. intros H Hk.
  repeat case_match; simplify_eq; simpl; set_solver.
Qed.

(** A field that is in both registries is checked and nothing is written. *)
Lemma register_dataset_registered (d dset : string) (a : kernel.attributes)
    (w : kernel.World) (block : kernel.Block) :
  d ∈ kernel.datasetbases w →
  kernel.block_datasets block !! d = Some dset →
  kernel.objects w !! dset = Some a →
  kernel.register_dataset d (w, block)
  = (w, block,
     if bool_decide (Some (kernel.blocknumber block) ≠ kernel.block_number a)
     then Raise (ValueError "Block number error")
     else if bool_decide (Some (kernel.shape block) ≠ kernel.size a)
     then Raise (ValueError "Shape error")
     else Ok ()).
Proof.
  intros Hd Hb Ho. unfold kernel.register_dataset.
  rewrite bool_decide_eq_true_2 by done. rewrite Hb, Ho.
  by repeat case_bool_decide.
Qed.

Lemma register_dataset_wf (d : string) (w w' : kernel.World)
    (block block' : kernel.Block) (r : result unit) :
  kernel.register_dataset d (w, block) = (w', block', r) →
  registry_wf w block → registry_wf w' block'.
Proof.
  intros H Hwf. unfold registry_wf. intros k v Hk.
  destruct (decide (k = d)) as [->|Hne].
  - unfold kernel.register_dataset in H.
    destruct (kernel.block_datasets block !! d) as [dset|] eqn:Hd.
    + destruct (Hwf d dset Hd) as (-> & Hin & [a Ha]).
      rewrite bool_decide_eq_true_2, Ha in H by done.
      repeat case_match; simplify_eq; naive_solver.
    + case_bool_decide as Hin; simplify_eq; simpl in *;
        rewrite lookup_insert_eq in Hk; simplify_eq;
        rewrite lookup_insert_eq.
      * split_and!; [done|done|eauto].
      * split_and!; [done|set_solver|eauto].
  - destruct (register_dataset_other d k w w' block block' r H Hne) as [Ho Hb].
    rewrite Hb in Hk. destruct (Hwf k v Hk) as (-> & Hin & Hsome).
    split_and!; [done| |by rewrite Ho].
    by eapply register_dataset_datasetbases.
Qed.

(** With consistent registries the only errors are the two value errors. *)
Lemma register_dataset_errors (d : string) (w w' : kernel.World)
    (block block' : kernel.Block) (e : exn) :
  registry_wf w block →
  kernel.register_dataset d (w, block) = (w', block', Raise e) →
  e = ValueError "Block number error" ∨ e = ValueError "Shape error".
Proof.
  intros Hwf H. unfold kernel.register_dataset in H.
  destruct (kernel.block_datasets block !! d) as [dset|] eqn:Hd.
  - destruct (Hwf d dset Hd) as (-> & Hin & [a Ha]).
    rewrite bool_decide_eq_true_2, Ha in H by done.
    repeat case_match; simplify_eq; auto.
  - repeat case_match; simplify_eq.
Qed.

Lemma register_datasets_wf (dsets : list string) (w w' : kernel.World)
    (block block' : kernel.Block) (r : result unit) :
  kernel.register_datasets dsets (w, block) = (w', block', r) →
  registry_wf w block → registry_wf w' block'.
Proof.
  revert w block. induction dsets as [|d dsets IH]; intros w block; simpl.
  - by intros [= <- <- <-].
  - destruct (kernel.register_dataset d (w, block)) as [[w1 b1] [[]|e]] eqn:Hd;
      intros H Hwf.
    + eapply IH; [exact H|]. by eapply register_dataset_wf.
    + simplify_eq. by eapply register_dataset_wf.
Qed.

(** The failing registration, inside the loop over the fields of a kernel:
    the loop raises and the entry of the field is as it was. *)
Lemma register_datasets_mismatch (dsets : list string) (f : string)
    (a : kernel.attributes) (w : kernel.World) (block : kernel.Block) :
  registry_wf w block →
  kernel.block_datasets block !! f = Some f →
  kernel.objects w !! f = Some a →
  kernel.block_number a ≠ Some (kernel.blocknumber block)
  ∨ kernel.size a ≠ Some (kernel.shape block) →
  f ∈ dsets →
  ∃ w' block' msg,
    kernel.register_datasets dsets (w, block)
    = (w', block', Raise (ValueError msg))
    ∧ (msg = "Block number error" ∨ msg = "Shape error")
    ∧ kernel.block_datasets block' !! f = Some f
    ∧ kernel.objects w' !! f = Some a.
Proof.
  revert w block. induction dsets as [|d dsets IH];
    intros w block Hwf Hb Ho Hmis Hf; [by apply elem_of_nil in Hf|].
  simpl. destruct (decide (d = f)) as [->|Hne].
  - destruct (Hwf f f Hb) as (_ & Hin & _).
    rewrite (register_dataset_registered f f a) by done.
    exists w, block. repeat case_bool_decide; naive_solver.
  - apply elem_of_cons in Hf as [->|Hf]; [done|].
    destruct (kernel.register_dataset d (w, block)) as [[w1 b1] r] eqn:Hd.
    pose proof (register_dataset_wf _ _ _ _ _ _ Hd Hwf) as Hwf1.
    destruct (register_dataset_other d f _ _ _ _ _ Hd) as [Ho1 Hb1]; [done|].
    destruct (register_dataset_same_block _ _ _ _ _ _ Hd)
      as [(Hbn & _ & _ & Hsh & _) _].
    destruct r as [[]|e].
    + apply IH; [done|congruence|congruence| |done].
      by rewrite Hbn, Hsh.
    + destruct (register_dataset_errors _ _ _ _ _ _ Hwf Hd) as [->| ->];
        eexists w1, b1, _; (split_and!; [done|auto|congruence|congruence]).
Qed.

Lemma update_block_datasets_wf (self self' : kernel.Kernel)
    (w w' : kernel.World) (block block' : kernel.Block) (r : result unit) :
  kernel.update_block_datasets self w block = (w', block', self', r) →
  registry_wf w block → registry_wf w' block'.
Proof.
  unfold kernel.update_block_datasets.
  destruct (kernel.register_datasets _ (w, block)) as [[w1 b1] r1] eqn:Hreg.
  intros H Hwf. pose proof (register_datasets_wf _ _ _ _ _ _ Hreg Hwf) as Hwf1.
  destruct r1 as [[]|e]; [|by simplify_eq].
  unfold kernel.update_stencils in H.
  destruct (kernel.resolve_stencils _ (b1, ∅)) as [[b2 names] r2] eqn:Hres.
  simplify_eq.
  enough (kernel.block_datasets block' = kernel.block_datasets b1) as Hsame
    by (intros k v Hk; rewrite Hsame in Hk; by apply Hwf1).
  clear Hwf Hwf1 Hreg. revert Hres. generalize (∅ : gmap string string).
  revert b1. induction (map_to_list (kernel.get_stencils self)) as [|i l IH];
    intros b1 names0; simpl.
  - by intros [= <- <- <-].
  - destruct (kernel.resolve_stencil i (b1, names0)) as [[b3 n3] r3] eqn:Hi.
    assert (kernel.block_datasets b3 = kernel.block_datasets b1) as Hb3.
    { unfold kernel.resolve_stencil in Hi.
      repeat case_match; simplify_eq; done. }
    destruct r3 as [[]|e]; intros H.
    + rewrite <- Hb3. by eapply IH.
    + by simplify_eq.
Qed.

Lemma registry_wf_empty (w : kernel.World) (block : kernel.Block) :
  kernel.block_datasets block = ∅ → registry_wf w block.
Proof. intros He k v. by rewrite He, lookup_empty. Qed.

(** C8.  Let the field registries be consistent and the field [f] be
    registered for the block, with the attributes [a].  If a kernel that
    refers to [f] is finalized for a block whose number or whose shape is not
    the registered one, then the registration of [f] raises a value error and
    writes nothing, [update_block_datasets] as a whole raises, and the
    registered entry of [f] (block number, shape, halo record and all) is
    what it was. *)
Theorem registration_mismatch_raises (self : kernel.Kernel)
    (w : kernel.World) (block : kernel.Block) (f : string)
    (a : kernel.attributes) :
  registry_wf w block →
  kernel.block_datasets block !! f = Some f →
  kernel.objects w !! f = Some a →
  f ∈ kernel.lhs_datasets self ∪ kernel.rhs_datasets self →
  kernel.block_number a ≠ Some (kernel.blocknumber block)
  ∨ kernel.size a ≠ Some (kernel.shape block) →
  (∃ msg,
      kernel.register_dataset f (w, block)
      = (w, block, Raise (ValueError msg))
      ∧ (msg = "Block number error" ∨ msg = "Shape error"))
  ∧ ∃ w' block' self' msg,
      kernel.update_block_datasets self w block
      = (w', block', self', Raise (ValueError msg))
      ∧ (msg = "Block number error" ∨ msg = "Shape error")
      ∧ kernel.block_datasets block' !! f = Some f
      ∧ kernel.objects w' !! f = Some a.
Proof.
  intros Hwf Hb Ho Hf Hmis. split.
  - destruct (Hwf f f Hb) as (_ & Hin & _).
    rewrite (register_dataset_registered f f a) by done.
    repeat case_bool_decide; naive_solver.
  - unfold kernel.update_block_datasets.
    destruct (register_datasets_mismatch
                (elements (kernel.lhs_datasets self ∪ kernel.rhs_datasets self))
                f a w block) as (w' & block' & msg & -> & Hmsg & Hb' & Ho');
      [done..|by apply elem_of_elements|].
    by exists w', block', (kernel.set_stencil_names self ∅), msg.
Qed.

Lemma registration_mismatch_raises_witness :
  ∃ w' block' self' msg,
    kernel.update_block_datasets f_kernel world1 (with_shape block1 [100])
    = (w', block', self', Raise (ValueError msg))
    ∧ (msg = "Block number error" ∨ msg = "Shape error")
    ∧ kernel.block_datasets block' !! "f" = Some "f"
    ∧ kernel.objects w' !! "f" = Some (kernel.new_attributes block0).
Proof.
  apply (registration_mismatch_raises f_kernel world1
           (with_shape block1 [100]) "f" (kernel.new_attributes block0)).
  - apply (update_block_datasets_wf f_kernel
             (kernel.update_block_datasets f_kernel empty_world block0).1.2
             empty_world world1 block0 block1
             (kernel.update_block_datasets f_kernel empty_world block0).2).
    + unfold world1, block1.
      by destruct (kernel.update_block_datasets f_kernel empty_world block0)
        as [[[? ?] ?] ?].
    + by apply registry_wf_empty.
  - reflexivity.
  - reflexivity.
  - reflexivity.
  - right. discriminate.
Defined.

End field_registry.

(** ** The stencil registries *)

Module stencil_registry.

#[local] Arguments opsc.get_stencil : simpl never.
#[local] Arguments kernel.resolve_stencil : simpl never.
#[local] Arguments kernel.register_dataset : simpl never.

Lemma dict_get_app {K V} `{EqDecision K} (d e : list (K * V)) (k : K) :
  dict_get (d ++ e) k
  = match dict_get d k with Some v => Some v | None => dict_get e k end.
Proof.
  induction d as [|[k' v] d IH]; simpl; [done|]. by case_decide.
Qed.

Lemma dict_get_app_Some {K V} `{EqDecision K} (d e : list (K * V)) (k : K)
    (v : V) :
  dict_get d k = Some v → dict_get (d ++ e) k = Some v.
Proof. intros H. by rewrite dict_get_app, H. Qed.

Lemma dict_get_None {K V} `{EqDecision K} (d : list (K * V)) (k : K) :
  dict_get d k = None ↔ k ∉ d.*1.
Proof.
  induction d as [|[k' v] d IH]; simpl.
  - split; [intros _; apply not_elem_of_nil|done].
  - rewrite not_elem_of_cons. case_decide; naive_solver.
Qed.

Lemma dict_get_is_Some {K V} `{EqDecision K} (d : list (K * V)) (k : K) :
  is_Some (dict_get d k) ↔ k ∈ d.*1.
Proof.
  rewrite <- not_eq_None_Some, dict_get_None.
  destruct (decide (k ∈ d.*1)); naive_solver.
Qed.

(** *** [OPSC.get_stencils] *)

(** One field: the registry grows by at most one entry, which gets the next
    number. *)
Lemma get_stencil_step (item : opsc.field * opsc.access) (self self' : opsc.OPSC)
    (st st' : gmap string string) (r : result unit) :
  opsc.get_stencil item (self, st) = (self', st', r) →
  ∃ extra,
    opsc.stencil_dictionary self' = opsc.stencil_dictionary self ++ extra
    ∧ opsc.stencil_number self'
      = opsc.stencil_number self + Z.of_nat (length extra)
    ∧ (∀ i k n, extra !! i = Some (k, n) →
                n = "stencil" +:+ str_int (opsc.stencil_number self + Z.of_nat i))
    ∧ (r = Ok () →
       extra.*1 = first_uses (opsc.stencil_dictionary self).*1
                    (stencil_keys [item])
       ∧ st' = names_in (opsc.stencil_dictionary self') [item] st
       ∧ all_registered (opsc.stencil_dictionary self') [item]).
Proof.
  destruct item as [key value]. unfold opsc.get_stencil.
  unfold stencil_keys, names_in, all_registered. simpl.
  destruct (opsc.is_grid key) eqn:Hg.
  2:{ intros [= <- <- <-]. exists []. rewrite app_nil_r. simpl.
      split_and!; [done|lia|done|]. intros _. split_and!; [done..|].
      constructor; [simpl; congruence|constructor]. }
  destruct (opsc.relative_stencil value) as [sten|e] eqn:Hs.
  2:{ intros [= <- <- <-]. exists []. rewrite app_nil_r. simpl.
      split_and!; [done|lia|done|done]. }
  simpl. remember (opsc.lsit_to_string sten) as k eqn:Ek.
  destruct (dict_get (opsc.stencil_dictionary self) k) as [n|] eqn:Hk.
  - rewrite Hk. intros [= <- <- <-]. exists []. rewrite app_nil_r. simpl.
    split_and!; [done|lia|done|]. intros _.
    rewrite bool_decide_eq_true_2
      by (apply dict_get_is_Some; by rewrite Hk).
    rewrite Hk. split_and!; [done..|].
    constructor; [|constructor]. intros _. exists sten, n.
    split; [done|]. simpl. by rewrite <- Ek.
  - simpl. rewrite dict_get_app, Hk. simpl.
    rewrite decide_True by done.
    intros [= <- <- <-]. exists [(k, opsc.stencil_name self)]. simpl.
    split_and!; [done|lia| |].
    + intros [|i] k' n' [=]; subst. unfold opsc.stencil_name.
      by rewrite Z.add_0_r.
    + intros _. rewrite bool_decide_eq_false_2 by by apply dict_get_None.
      rewrite dict_get_app, Hk. simpl. rewrite decide_True by done.
      split_and!; [done..|]. constructor; [|constructor]. intros _.
      exists sten, (opsc.stencil_name self). split; [done|].
      simpl. rewrite <- Ek, dict_get_app, Hk. simpl. by rewrite decide_True.
Qed.

Lemma first_uses_app {K} `{EqDecision K} (known keys1 keys2 : list K) :
  first_uses known (keys1 ++ keys2)
  = first_uses known keys1
    ++ first_uses (known ++ first_uses known keys1) keys2.
Proof.
  revert known. induction keys1 as [|k keys1 IH]; intros known; simpl.
  - by rewrite app_nil_r.
  - case_bool_decide; [apply IH|]. rewrite IH. simpl.
    by rewrite <- app_assoc.
Qed.

Lemma stencil_keys_cons (item : opsc.field * opsc.access)
    (items : list (opsc.field * opsc.access)) :
  stencil_keys (item :: items) = stencil_keys [item] ++ stencil_keys items.
Proof. unfold stencil_keys. simpl. by repeat case_match. Qed.

Lemma names_in_cons (D : list (string * string))
    (item : opsc.field * opsc.access)
    (items : list (opsc.field * opsc.access)) (st : gmap string string) :
  names_in D (item :: items) st = names_in D items (names_in D [item] st).
Proof. reflexivity. Qed.

Lemma names_in_app (D : list (string * string))
    (items1 items2 : list (opsc.field * opsc.access)) (st : gmap string string) :
  names_in D (items1 ++ items2) st = names_in D items2 (names_in D items1 st).
Proof. unfold names_in. by rewrite foldl_app. Qed.

Lemma all_registered_mono (D E : list (string * string))
    (items : list (opsc.field * opsc.access)) :
  all_registered D items → all_registered (D ++ E) items.
Proof.
  unfold all_registered. intros Hall. eapply Forall_impl; [exact Hall|].
  intros item H Hg. destruct (H Hg) as (sten & n & Hs & Hn).
  exists sten, n. split; [done|]. by apply dict_get_app_Some.
Qed.

Lemma names_in_mono (D E : list (string * string))
    (items : list (opsc.field * opsc.access)) (st : gmap string string) :
  all_registered D items → names_in (D ++ E) items st = names_in D items st.
Proof.
  revert st. induction items as [|item items IH]; intros st Hall; [done|].
  apply Forall_cons in Hall as [Hi Hall]. unfold names_in in *. simpl.
  rewrite IH by done. f_equal.
  destruct (opsc.is_grid item.1); [|done].
  destruct Hi as (sten & n & -> & Hn); [done|].
  by rewrite (dict_get_app_Some _ _ _ _ Hn), Hn.
Qed.

(** The loop over the fields: the registry only grows, the new entries are
    numbered on from [stencil_number]; when the loop completes, they are the
    stencils not known before in the order of their first use, and every
    field has the name its stencil has in the registry. *)
Lemma get_stencils_loop_registry (items : list (opsc.field * opsc.access))
    (self self' : opsc.OPSC) (st st' : gmap string string) (r : result unit) :
  opsc.get_stencils_loop items (self, st) = (self', st', r) →
  ∃ extra,
    opsc.stencil_dictionary self' = opsc.stencil_dictionary self ++ extra
    ∧ opsc.stencil_number self'
      = opsc.stencil_number self + Z.of_nat (length extra)
    ∧ (∀ i k n, extra !! i = Some (k, n) →
                n = "stencil" +:+ str_int (opsc.stencil_number self + Z.of_nat i))
    ∧ (r = Ok () →
       extra.*1 = first_uses (opsc.stencil_dictionary self).*1
                    (stencil_keys items)
       ∧ st' = names_in (opsc.stencil_dictionary self') items st
       ∧ all_registered (opsc.stencil_dictionary self') items).
Proof.
  revert self st. induction items as [|item items IH]; intros self st Hloop;
    simpl in Hloop.
  - injection Hloop as <- <- <-. exists []. rewrite app_nil_r. simpl.
    split_and!; [done|lia|done|]. intros _. split_and!; [done..|constructor].
  - destruct (opsc.get_stencil item (self, st)) as [[self1 st1] r1] eqn:Hstep.
    destruct (get_stencil_step _ _ _ _ _ _ Hstep)
      as (e1 & Hd1 & Hn1 & Hnum1 & Hok1).
    destruct r1 as [[]|e].
    + rename Hloop into Hrest.
      destruct (IH _ _ Hrest) as (e2 & Hd2 & Hn2 & Hnum2 & Hok2).
      exists (e1 ++ e2). split_and!.
      * by rewrite Hd2, Hd1, app_assoc.
      * rewrite Hn2, Hn1, length_app. lia.
      * intros i k n Hi. apply lookup_app_Some in Hi as [Hi|[Hge Hi]].
        -- by eapply Hnum1.
        -- rewrite (Hnum2 _ _ _ Hi), Hn1. do 2 f_equal. lia.
      * intros ->. destruct (Hok1 eq_refl) as (Hf1 & Hs1 & Ha1).
        destruct (Hok2 eq_refl) as (Hf2 & Hs2 & Ha2).
        split_and!.
        -- rewrite stencil_keys_cons, first_uses_app, fmap_app, <- Hf1.
           f_equal. by rewrite Hf2, Hd1, fmap_app.
        -- rewrite names_in_cons, Hs2. f_equal.
           rewrite Hs1, Hd2. symmetry. by apply names_in_mono.
        -- apply Forall_cons. split; [|done].
           rewrite Hd2. apply (all_registered_mono _ e2) in Ha1.
           by apply Forall_cons in Ha1 as [? _].
    + injection Hloop as <- <- <-. exists e1.
      split_and!; [done..|discriminate].
Qed.

(** On a registry that has every stencil of the computation the loop
    changes nothing. *)
Lemma get_stencils_loop_settled (items : list (opsc.field * opsc.access))
    (self : opsc.OPSC) (st : gmap string string) :
  all_registered (opsc.stencil_dictionary self) items →
  opsc.get_stencils_loop items (self, st)
  = (self, names_in (opsc.stencil_dictionary self) items st, Ok ()).
Proof.
  revert st. induction items as [|item items IH]; intros st Hall; [done|].
  apply Forall_cons in Hall as [Hi Hall]. simpl.
  assert (opsc.get_stencil item (self, st)
          = (self, names_in (opsc.stencil_dictionary self) [item] st, Ok ()))
    as ->.
  { destruct item as [key value]. unfold opsc.get_stencil, names_in. simpl in *.
    destruct (opsc.is_grid key); [|done].
    destruct Hi as (sten & n & -> & Hn); [done|]. by rewrite Hn, Hn. }
  rewrite IH by done. done.
Qed.

Lemma names_in_lookup_other (D : list (string * string))
    (items : list (opsc.field * opsc.access)) (st : gmap string string)
    (l : string) :
  l ∉ (fun item : opsc.field * opsc.access => opsc.label item.1) <$> items →
  names_in D items st !! l = st !! l.
Proof.
  revert st. induction items as [|item items IH]; intros st Hl; [done|].
  rewrite fmap_cons, not_elem_of_cons in Hl. destruct Hl as [Hne Hl].
  unfold names_in in *. simpl. rewrite IH by done.
  repeat case_match; rewrite ?lookup_insert_ne; done.
Qed.

(** With one entry per field label, a grid-based field has the name that
    the registry has for its stencil. *)
Lemma names_in_lookup (D : list (string * string))
    (items : list (opsc.field * opsc.access)) (st : gmap string string)
    (f : opsc.field) (v : opsc.access) (sten : list Z) (n : string) :
  NoDup ((fun item : opsc.field * opsc.access => opsc.label item.1) <$> items) →
  (f, v) ∈ items → opsc.is_grid f = true →
  opsc.relative_stencil v = Ok sten →
  dict_get D (opsc.lsit_to_string sten) = Some n →
  names_in D items st !! opsc.label f = Some n.
Proof.
  revert st. induction items as [|item items IH]; intros st Hnd Hin Hg Hs Hn;
    [by apply elem_of_nil in Hin|].
  rewrite fmap_cons in Hnd. apply NoDup_cons in Hnd as [Hfresh Hnd].
  apply elem_of_cons in Hin as [<-|Hin].
  - rewrite names_in_cons, names_in_lookup_other by done.
    unfold names_in. simpl. by rewrite Hg, Hs, Hn, lookup_insert_eq.
  - rewrite names_in_cons. by apply IH.
Qed.

(** *** [Kernel.update_stencils] and [Kernel.update_block_datasets] *)

Lemma set_block_stencils_same (block : kernel.Block) :
  kernel.set_block_stencils block (kernel.block_stencils block) = block.
Proof. by destruct block. Qed.

Lemma kernel_names_in_app
    (D : list (gset (list index) * kernel.StencilObject))
    (s1 s2 : list (string * gset (list index))) (names : gmap string string) :
  kernel_names_in D (s1 ++ s2) names
  = kernel_names_in D s2 (kernel_names_in D s1 names).
Proof. unfold kernel_names_in. by rewrite foldl_app. Qed.

Lemma kernel_names_in_cons
    (D : list (gset (list index) * kernel.StencilObject))
    (item : string * gset (list index))
    (stens : list (string * gset (list index))) (names : gmap string string) :
  kernel_names_in D (item :: stens) names
  = kernel_names_in D stens (kernel_names_in D [item] names).
Proof. reflexivity. Qed.

Lemma kernel_names_in_mono
    (D E : list (gset (list index) * kernel.StencilObject))
    (stens : list (string * gset (list index))) (names : gmap string string) :
  Forall (fun item : string * gset (list index) =>
            is_Some (dict_get D item.2)) stens →
  kernel_names_in (D ++ E) stens names = kernel_names_in D stens names.
Proof.
  revert names. induction stens as [|item stens IH]; intros names Hall; [done|].
  apply Forall_cons in Hall as [[so Hso] Hall]. unfold kernel_names_in in *.
  simpl. rewrite IH by done. by rewrite (dict_get_app_Some _ _ _ _ Hso), Hso.
Qed.

Lemma kernel_names_in_lookup_other
    (D : list (gset (list index) * kernel.StencilObject))
    (stens : list (string * gset (list index))) (names : gmap string string)
    (d : string) :
  d ∉ stens.*1 → kernel_names_in D stens names !! d = names !! d.
Proof.
  revert names. induction stens as [|item stens IH]; intros names Hd; [done|].
  rewrite fmap_cons, not_elem_of_cons in Hd. destruct Hd as [Hne Hd].
  unfold kernel_names_in in *. simpl. rewrite IH by done.
  case_match; rewrite ?lookup_insert_ne; done.
Qed.

Lemma kernel_names_in_lookup
    (D : list (gset (list index) * kernel.StencilObject))
    (stens : list (string * gset (list index))) (names : gmap string string)
    (d : string) (st : gset (list index)) (so : kernel.StencilObject) :
  NoDup stens.*1 → (d, st) ∈ stens → dict_get D st = Some so →
  kernel_names_in D stens names !! d = Some (kernel.name so).
Proof.
  revert names. induction stens as [|item stens IH]; intros names Hnd Hin Hso;
    [by apply elem_of_nil in Hin|].
  rewrite fmap_cons in Hnd. apply NoDup_cons in Hnd as [Hfresh Hnd].
  rewrite kernel_names_in_cons.
  apply elem_of_cons in Hin as [<-|Hin]; [|by apply IH].
  rewrite kernel_names_in_lookup_other by done.
  unfold kernel_names_in. simpl. by rewrite Hso, lookup_insert_eq.
Qed.

(** One field of the kernel: the registry grows by at most one entry, which
    is named after the number of entries before it. *)
Lemma resolve_stencil_step (item : string * gset (list index))
    (block block' : kernel.Block) (names names' : gmap string string)
    (r : result unit) :
  kernel.resolve_stencil item (block, names) = (block', names', r) →
  ∃ extra,
    block' = kernel.set_block_stencils block
               (kernel.block_stencils block ++ extra)
    ∧ (∀ i k so, extra !! i = Some (k, so) →
         kernel.stencil so = k
         ∧ kernel.name so
           = kernel_stencil_name (kernel.blocknumber block)
               (length (kernel.block_stencils block) + i))
    ∧ extra.*1 = first_uses (kernel.block_stencils block).*1 [item.2]
    ∧ is_Some (dict_get (kernel.block_stencils block') item.2)
    ∧ (r = Ok () →
       names' = kernel_names_in (kernel.block_stencils block') [item] names
       ∧ names !! item.1 = None)
    ∧ (names !! item.1 = None → r = Ok ()).
Proof.
  destruct item as [dset st]. unfold kernel.resolve_stencil, kernel_names_in.
  simpl. destruct (dict_get (kernel.block_stencils block) st) as [so|] eqn:Hso.
  - rewrite Hso. intros H. exists []. rewrite app_nil_r, set_block_stencils_same.
    rewrite bool_decide_eq_true_2 by (apply dict_get_is_Some; by rewrite Hso).
    destruct (names !! dset) eqn:Hn; simplify_eq; rewrite Hso;
      (split_and!; [done|done|done|by eauto|naive_solver|naive_solver]).
  - simpl. rewrite dict_get_app, Hso. simpl. rewrite decide_True by done.
    intros H.
    eexists [(st, _)].
    rewrite bool_decide_eq_false_2 by by apply dict_get_None.
    destruct (names !! dset) eqn:Hn; simplify_eq; simpl;
      rewrite dict_get_app, Hso; simpl; rewrite decide_True by done;
      (split_and!; [done| |done|by eauto|naive_solver|naive_solver]);
      intros [|i] k so [=]; subst; simpl;
      (split; [done|]); unfold kernel.stencil_name, kernel_stencil_name;
      by rewrite Nat.add_0_r.
Qed.

Lemma resolve_stencils_registry (stens : list (string * gset (list index)))
    (block block' : kernel.Block) (names names' : gmap string string)
    (r : result unit) :
  kernel.resolve_stencils stens (block, names) = (block', names', r) →
  ∃ extra,
    block' = kernel.set_block_stencils block
               (kernel.block_stencils block ++ extra)
    ∧ (∀ i k so, extra !! i = Some (k, so) →
         kernel.stencil so = k
         ∧ kernel.name so
           = kernel_stencil_name (kernel.blocknumber block)
               (length (kernel.block_stencils block) + i))
    ∧ (r = Ok () →
       extra.*1 = first_uses (kernel.block_stencils block).*1 stens.*2
       ∧ names' = kernel_names_in (kernel.block_stencils block') stens names
       ∧ Forall (fun item : string * gset (list index) =>
                   is_Some (dict_get (kernel.block_stencils block') item.2))
           stens).
Proof.
  revert block names. induction stens as [|item stens IH];
    intros block names Hloop; simpl in Hloop.
  - injection Hloop as <- <- <-. exists [].
    rewrite app_nil_r, set_block_stencils_same.
    split_and!; [done..|]. intros _. split_and!; [done..|constructor].
  - destruct (kernel.resolve_stencil item (block, names))
      as [[b1 n1] r1] eqn:Hstep.
    destruct (resolve_stencil_step _ _ _ _ _ _ Hstep)
      as (e1 & Hb1 & Hnum1 & Hf1 & Hs1 & Hok1 & _).
    destruct r1 as [[]|e].
    + rename Hloop into Hrest.
      destruct (IH _ _ Hrest) as (e2 & Hb2 & Hnum2 & Hok2).
      rewrite Hb1 in Hb2, Hnum2. simpl in Hb2, Hnum2.
      exists (e1 ++ e2). split_and!.
      * by rewrite Hb2, app_assoc.
      * intros i k so Hi. apply lookup_app_Some in Hi as [Hi|[Hge Hi]].
        -- by eapply Hnum1.
        -- destruct (Hnum2 _ _ _ Hi) as [? Hname]. split; [done|].
           rewrite Hname, length_app. f_equal. lia.
      * intros ->. destruct (Hok1 eq_refl) as (Hn1 & _).
        destruct (Hok2 eq_refl) as (Hf2 & Hn2 & Ha2).
        assert (HD1 : kernel.block_stencils b1
                      = kernel.block_stencils block ++ e1) by by rewrite Hb1.
        assert (HD2 : kernel.block_stencils block'
                      = (kernel.block_stencils block ++ e1) ++ e2)
          by by rewrite Hb2.
        rewrite HD1 in Hs1. destruct Hs1 as [so Hso].
        split_and!.
        -- rewrite fmap_cons.
           change (item.2 :: stens.*2) with ([item.2] ++ stens.*2).
           rewrite first_uses_app, fmap_app, <- Hf1. f_equal.
           by rewrite Hf2, HD1, fmap_app.
        -- rewrite kernel_names_in_cons, Hn2. f_equal.
           rewrite Hn1, HD2, HD1. symmetry.
           apply kernel_names_in_mono. constructor; [eauto|constructor].
        -- apply Forall_cons. split; [|done].
           rewrite HD2, (dict_get_app_Some _ _ _ _ Hso). eauto.
    + injection Hloop as <- <- <-. exists e1.
      split_and!; [done..|discriminate].
Qed.

(** With one entry per field the loop never raises. *)
Lemma resolve_stencils_total (stens : list (string * gset (list index)))
    (block : kernel.Block) (names : gmap string string) :
  NoDup stens.*1 → (∀ d, d ∈ stens.*1 → names !! d = None) →
  ∃ block' names',
    kernel.resolve_stencils stens (block, names) = (block', names', Ok ()).
Proof.
  revert block names. induction stens as [|item stens IH];
    intros block names Hnd Hfresh; simpl; [eauto|].
  rewrite fmap_cons in Hnd, Hfresh. apply NoDup_cons in Hnd as [Hni Hnd].
  destruct (kernel.resolve_stencil item (block, names))
    as [[b1 n1] r1] eqn:Hstep.
  destruct (resolve_stencil_step _ _ _ _ _ _ Hstep)
    as (e1 & Hb1 & _ & _ & _ & Hok1 & Hnone).
  rewrite Hnone in * by (apply Hfresh, list_elem_of_here).
  destruct (Hok1 eq_refl) as [-> _].
  apply IH; [done|]. intros d Hd.
  rewrite kernel_names_in_lookup_other.
  - apply Hfresh. by apply list_elem_of_further.
  - simpl. rewrite not_elem_of_cons. split; [|apply not_elem_of_nil].
    intros ->. done.
Qed.

(** On a registry that has every stencil of the kernel the loop changes
    nothing. *)
Lemma resolve_stencils_settled (stens : list (string * gset (list index)))
    (block : kernel.Block) (names : gmap string string) :
  Forall (fun item : string * gset (list index) =>
            is_Some (dict_get (kernel.block_stencils block) item.2)) stens →
  NoDup stens.*1 → (∀ d, d ∈ stens.*1 → names !! d = None) →
  kernel.resolve_stencils stens (block, names)
  = (block, kernel_names_in (kernel.block_stencils block) stens names, Ok ()).
Proof.
  revert names. induction stens as [|item stens IH];
    intros names Hall Hnd Hfresh; [done|].
  apply Forall_cons in Hall as [[so Hso] Hall].
  rewrite fmap_cons in Hnd, Hfresh. apply NoDup_cons in Hnd as [Hni Hnd].
  simpl.
  assert (kernel.resolve_stencil item (block, names)
          = (block, kernel_names_in (kernel.block_stencils block) [item] names,
             Ok ())) as ->.
  { destruct item as [dset st]. unfold kernel.resolve_stencil, kernel_names_in.
    simpl in *. rewrite Hso, Hso.
    by rewrite (Hfresh dset) by apply list_elem_of_here. }
  rewrite IH; [done|done|done|]. intros d Hd.
  rewrite kernel_names_in_lookup_other.
  - apply Hfresh. by apply list_elem_of_further.
  - simpl. rewrite not_elem_of_cons. split; [|apply not_elem_of_nil].
    intros ->. done.
Qed.

Lemma get_stencils_items_NoDup (self : kernel.Kernel) :
  NoDup (map_to_list (kernel.get_stencils self)).*1.
Proof. apply NoDup_fst_map_to_list. Qed.

(** [update_stencils] always completes. *)
Lemma update_stencils_total (self : kernel.Kernel) (block : kernel.Block) :
  ∃ block' names,
    kernel.update_stencils self block
    = (block', kernel.set_stencil_names self names, Ok ()).
Proof.
  unfold kernel.update_stencils.
  destruct (resolve_stencils_total (map_to_list (kernel.get_stencils self))
              block ∅) as (block' & names & ->);
    [apply get_stencils_items_NoDup|intros; apply lookup_empty|].
  eauto.
Qed.

Lemma update_stencils_inv (self self' : kernel.Kernel)
    (block block' : kernel.Block) (r : result unit) :
  kernel.update_stencils self block = (block', self', r) →
  r = Ok ()
  ∧ ∃ extra,
      block' = kernel.set_block_stencils block
                 (kernel.block_stencils block ++ extra)
      ∧ (∀ i k so, extra !! i = Some (k, so) →
           kernel.stencil so = k
           ∧ kernel.name so
             = kernel_stencil_name (kernel.blocknumber block)
                 (length (kernel.block_stencils block) + i))
      ∧ extra.*1 = first_uses (kernel.block_stencils block).*1
                     (map_to_list (kernel.get_stencils self)).*2
      ∧ self' = kernel.set_stencil_names self
                  (kernel_names_in (kernel.block_stencils block')
                     (map_to_list (kernel.get_stencils self)) ∅)
      ∧ Forall (fun item : string * gset (list index) =>
                  is_Some (dict_get (kernel.block_stencils block') item.2))
          (map_to_list (kernel.get_stencils self)).
Proof.
  intros H. destruct (update_stencils_total self block) as (b & n & Hok).
  rewrite Hok in H. injection H as <- <- <-. split; [done|].
  unfold kernel.update_stencils in Hok.
  destruct (kernel.resolve_stencils _ (block, ∅)) as [[b' n'] r'] eqn:Hres.
  assert (b' = b ∧ n' = n ∧ r' = Ok ()) as (-> & -> & ->)
    by (unfold kernel.set_stencil_names in Hok; by simplify_eq).
  destruct (resolve_stencils_registry _ _ _ _ _ _ Hres)
    as (extra & Hb & Hnum & Hrest).
  destruct (Hrest eq_refl) as (Hf & Hn' & Hall).
  exists extra. split_and!; [done..| |done]. by rewrite Hn'.
Qed.

(** A second [update_stencils] on the block the first one left finds every
    stencil registered: registry and names are the same. *)
Lemma update_stencils_idempotent (self self' : kernel.Kernel)
    (block block' : kernel.Block) (r : result unit) :
  kernel.update_stencils self block = (block', self', r) →
  kernel.update_stencils self block' = (block', self', Ok ()).
Proof.
  intros H. destruct (update_stencils_inv _ _ _ _ _ H)
    as (-> & extra & Hb & _ & _ & -> & Hall).
  unfold kernel.update_stencils.
  rewrite resolve_stencils_settled;
    [done|done|apply get_stencils_items_NoDup|intros; apply lookup_empty].
Qed.

(** *** The dataset registries under a second run *)

Lemma register_dataset_settled (d : string) (w : kernel.World)
    (block : kernel.Block) :
  settled w block d → kernel.register_dataset d (w, block) = (w, block, Ok ()).
Proof.
  intros (Hin & dset & a & Hb & Ho & Hbn & Hsz).
  rewrite (field_registry.register_dataset_registered d dset a) by done.
  by rewrite !bool_decide_eq_false_2 by (rewrite ?Hbn, ?Hsz; naive_solver).
Qed.

Lemma new_attributes_same_block (b b' : kernel.Block) :
  same_block b b' → kernel.new_attributes b' = kernel.new_attributes b.
Proof.
  intros (? & ? & ? & ? & ? & ? & ?). unfold kernel.new_attributes.
  congruence.
Qed.

Lemma not_ne_sym {A} `{EqDecision A} (x y : A) : ¬ x ≠ y → y = x.
Proof. intros H. destruct (decide (x = y)); [done|by destruct H]. Qed.

(** A registration that completes leaves its field settled. *)
Lemma register_dataset_settles (d : string) (w w' : kernel.World)
    (block block' : kernel.Block) :
  kernel.register_dataset d (w, block) = (w', block', Ok ()) →
  settled w' block' d.
Proof.
  unfold kernel.register_dataset, settled. intros H.
  repeat case_match; simplify_eq; simpl;
    repeat match goal with
           | H : bool_decide _ = true |- _ => apply bool_decide_eq_true_1 in H
           | H : bool_decide _ = false |- _ => apply bool_decide_eq_false_1 in H
           end;
    (split; [set_solver|]); eexists _, _;
    (split_and!;
       first [eassumption|apply lookup_insert_eq
             |by apply not_ne_sym|reflexivity]).
Qed.

(** A registration writes nothing but the block's own attributes. *)
Lemma register_dataset_objects (d k : string) (w w' : kernel.World)
    (block block' : kernel.Block) (r : result unit) :
  kernel.register_dataset d (w, block) = (w', block', r) →
  kernel.objects w' !! k = kernel.objects w !! k
  ∨ kernel.objects w' !! k = Some (kernel.new_attributes block).
Proof.
  unfold kernel.register_dataset. intros H.
  repeat case_match; simplify_eq; simpl; auto;
    destruct (decide (k = d)) as [->|];
    rewrite ?lookup_insert_eq, ?lookup_insert_ne by done; auto.
Qed.

Lemma register_dataset_block_datasets (d k dset : string)
    (w w' : kernel.World) (block block' : kernel.Block) (r : result unit) :
  kernel.register_dataset d (w, block) = (w', block', r) →
  kernel.block_datasets block !! k = Some dset →
  kernel.block_datasets block' !! k = Some dset.
Proof.
  unfold kernel.register_dataset. intros H Hk.
  repeat case_match; simplify_eq; simpl; auto;
    (destruct (decide (k = d)) as [->|]; [congruence|]);
    by rewrite lookup_insert_ne.
Qed.

(** Later registrations keep a settled field settled. *)
Lemma register_dataset_keeps_settled (d k : string) (w w' : kernel.World)
    (block block' : kernel.Block) (r : result unit) :
  kernel.register_dataset d (w, block) = (w', block', r) →
  settled w block k → settled w' block' k.
Proof.
  intros H (Hin & dset & a & Hb & Ho & Hbn & Hsz).
  destruct (field_registry.register_dataset_same_block _ _ _ _ _ _ H)
    as [(Ebn & _ & _ & Esh & _) _].
  split; [by eapply field_registry.register_dataset_datasetbases|].
  exists dset. rewrite Ebn, Esh.
  destruct (register_dataset_objects d dset _ _ _ _ _ H) as [Hsame|Hnew].
  - exists a. rewrite Hsame.
    split_and!; [by eapply register_dataset_block_datasets|done..].
  - eexists. split_and!;
      [by eapply register_dataset_block_datasets|exact Hnew|done..].
Qed.

Lemma register_datasets_keeps_settled (dsets : list string) (k : string)
    (w w' : kernel.World) (block block' : kernel.Block) (r : result unit) :
  kernel.register_datasets dsets (w, block) = (w', block', r) →
  settled w block k → settled w' block' k.
Proof.
  revert w block. induction dsets as [|d dsets IH]; intros w block; simpl.
  - by intros [= <- <- <-].
  - destruct (kernel.register_dataset d (w, block)) as [[w1 b1] [[]|e]] eqn:Hd;
      intros H Hk.
    + eapply IH; [exact H|]. by eapply register_dataset_keeps_settled.
    + simplify_eq. by eapply register_dataset_keeps_settled.
Qed.

Lemma register_datasets_settles (dsets : list string)
    (w w' : kernel.World) (block block' : kernel.Block) :
  kernel.register_datasets dsets (w, block) = (w', block', Ok ()) →
  Forall (settled w' block') dsets
  ∧ kernel.block_stencils block' = kernel.block_stencils block.
Proof.
  revert w block. induction dsets as [|d dsets IH]; intros w block; simpl.
  - intros [= <- <-]. by split; [constructor|].
  - destruct (kernel.register_dataset d (w, block)) as [[w1 b1] [[]|e]] eqn:Hd;
      [|done].
    intros H. destruct (IH _ _ H) as [Hall Hst]. split.
    + constructor; [|done].
      eapply register_datasets_keeps_settled; [exact H|].
      by eapply register_dataset_settles.
    + rewrite Hst.
      by destruct (field_registry.register_dataset_same_block _ _ _ _ _ _ Hd).
Qed.

Lemma register_datasets_settled (dsets : list string) (w : kernel.World)
    (block : kernel.Block) :
  Forall (settled w block) dsets →
  kernel.register_datasets dsets (w, block) = (w, block, Ok ()).
Proof.
  induction 1 as [|d dsets Hd Hall IH]; simpl; [done|].
  by rewrite register_dataset_settled.
Qed.

Lemma settled_set_block_stencils (w : kernel.World) (block : kernel.Block)
    (D : list (gset (list index) * kernel.StencilObject)) (d : string) :
  settled w block d → settled w (kernel.set_block_stencils block D) d.
Proof. done. Qed.

(** How [update_block_datasets] is made of its two loops when it
    completes. *)
Lemma update_block_datasets_inv (self self' : kernel.Kernel)
    (w w' : kernel.World) (block block' : kernel.Block) :
  kernel.update_block_datasets self w block = (w', block', self', Ok ()) →
  ∃ b1,
    kernel.register_datasets
      (elements (kernel.lhs_datasets self ∪ kernel.rhs_datasets self))
      (w, block) = (w', b1, Ok ())
    ∧ kernel.update_stencils self b1 = (block', self', Ok ()).
Proof.
  unfold kernel.update_block_datasets.
  destruct (kernel.register_datasets _ (w, block)) as [[w1 b1] [[]|e]];
    [|done].
  destruct (kernel.update_stencils self b1) as [[b2 k2] r2] eqn:Hu.
  intros [= <- <- <- ->]. eauto.
Qed.

(** A second [update_block_datasets] for the same kernel and block adds
    nothing to [datasetbases], [block_datasets] or [block_stencils]. *)
Lemma update_block_datasets_idempotent (self self' : kernel.Kernel)
    (w w' : kernel.World) (block block' : kernel.Block) :
  kernel.update_block_datasets self w block = (w', block', self', Ok ()) →
  kernel.update_block_datasets self w' block' = (w', block', self', Ok ()).
Proof.
  intros H. destruct (update_block_datasets_inv _ _ _ _ _ _ H)
    as (b1 & Hreg & Hupd).
  destruct (register_datasets_settles _ _ _ _ _ Hreg) as [Hall _].
  destruct (update_stencils_inv _ _ _ _ _ Hupd) as (_ & extra & Hb & _).
  unfold kernel.update_block_datasets.
  rewrite register_datasets_settled.
  - by rewrite (update_stencils_idempotent _ _ _ _ _ Hupd).
  - rewrite Hb. eapply Forall_impl; [exact Hall|].
    intros d. apply settled_set_block_stencils.
Qed.

Lemma register_datasets_same_block (dsets : list string)
    (w w' : kernel.World) (block block' : kernel.Block) (r : result unit) :
  kernel.register_datasets dsets (w, block) = (w', block', r) →
  kernel.blocknumber block' = kernel.blocknumber block
  ∧ kernel.block_stencils block' = kernel.block_stencils block.
Proof.
  revert w block. induction dsets as [|d dsets IH]; intros w block Hloop;
    simpl in Hloop.
  - by injection Hloop as <- <- <-.
  - destruct (kernel.register_dataset d (w, block)) as [[w1 b1] r1] eqn:Hd.
    destruct (field_registry.register_dataset_same_block _ _ _ _ _ _ Hd)
      as [(Hbn & _) Hst].
    destruct r1 as [[]|e].
    + destruct (IH _ _ Hloop) as [? ?]. split; congruence.
    + by injection Hloop as <- <- <-.
Qed.

Lemma get_stencils_inv (self self' : opsc.OPSC) (c : opsc.Computation)
    (r : result (gmap string string)) :
  opsc.get_stencils self c = (self', r) →
  ∃ st r', opsc.get_stencils_loop (items_of c) (self, ∅) = (self', st, r')
           ∧ ∀ s, r = Ok s ↔ (r' = Ok () ∧ s = st).
Proof.
  unfold opsc.get_stencils, items_of.
  destruct (opsc.get_stencils_loop _ (self, ∅)) as [[self1 st] [[]|e]];
    intros [= <- <-]; eexists _, _; (split; [done|]); naive_solver.
Qed.

(** C4.  Both stencil registries, the dictionary of [OPSC.get_stencils] and
    the [block_stencils] that [Kernel.update_block_datasets] fills, are keyed
    by the canonical footprint.

    - The registry only grows: it is the old registry followed by new
      entries; the new entries are numbered on from the number of entries
      there were, and when the step completes they are the footprints not
      registered before, in the order of their first use.
    - Two fields, of one kernel or of two kernels processed one after the
      other, that have the same footprint get the same stencil name.
    - A second run of the step for the same kernel on what the first run
      left changes neither the registries nor the names. *)
Theorem registry_dedup_append_idempotent :
  (∀ self c self' r,
     opsc.get_stencils self c = (self', r) →
     ∃ extra,
       opsc.stencil_dictionary self' = opsc.stencil_dictionary self ++ extra
       ∧ opsc.stencil_number self'
         = opsc.stencil_number self + Z.of_nat (length extra)
       ∧ (∀ i k n, extra !! i = Some (k, n) →
            n = "stencil" +:+ str_int (opsc.stencil_number self + Z.of_nat i))
       ∧ (∀ s, r = Ok s →
            extra.*1 = first_uses (opsc.stencil_dictionary self).*1
                         (stencil_keys (items_of c))))
  ∧ (∀ self c1 c2 self1 self2 s1 s2 f1 v1 f2 v2 sten,
       opsc.get_stencils self c1 = (self1, Ok s1) →
       opsc.get_stencils self1 c2 = (self2, Ok s2) →
       NoDup ((fun item : opsc.field * opsc.access => opsc.label item.1)
                <$> items_of c1) →
       NoDup ((fun item : opsc.field * opsc.access => opsc.label item.1)
                <$> items_of c2) →
       (f1, v1) ∈ items_of c1 → opsc.is_grid f1 = true →
       (f2, v2) ∈ items_of c2 → opsc.is_grid f2 = true →
       opsc.relative_stencil v1 = Ok sten →
       opsc.relative_stencil v2 = Ok sten →
       ∃ n, s1 !! opsc.label f1 = Some n ∧ s2 !! opsc.label f2 = Some n)
  ∧ (∀ self c self1 s1,
       opsc.get_stencils self c = (self1, Ok s1) →
       opsc.get_stencils self1 c = (self1, Ok s1))
  ∧ (∀ self w block w' block' self' r,
       kernel.update_block_datasets self w block = (w', block', self', r) →
       ∃ extra,
         kernel.block_stencils block' = kernel.block_stencils block ++ extra
         ∧ (∀ i k so, extra !! i = Some (k, so) →
              kernel.stencil so = k
              ∧ kernel.name so
                = kernel_stencil_name (kernel.blocknumber block)
                    (length (kernel.block_stencils block) + i))
         ∧ (r = Ok () →
            extra.*1 = first_uses (kernel.block_stencils block).*1
                         (map_to_list (kernel.get_stencils self)).*2))
  ∧ (∀ k1 k2 w block w1 b1 k1' w2 b2 k2' d1 d2 footprint,
       kernel.update_block_datasets k1 w block = (w1, b1, k1', Ok ()) →
       kernel.update_block_datasets k2 w1 b1 = (w2, b2, k2', Ok ()) →
       kernel.get_stencils k1 !! d1 = Some footprint →
       kernel.get_stencils k2 !! d2 = Some footprint →
       ∃ m1 m2 n,
         kernel.stencil_names k1' = Some m1
         ∧ kernel.stencil_names k2' = Some m2
         ∧ m1 !! d1 = Some n ∧ m2 !! d2 = Some n)
  ∧ (∀ self w block w' block' self',
       kernel.update_block_datasets self w block = (w', block', self', Ok ()) →
       kernel.update_block_datasets self w' block' = (w', block', self', Ok ()))
  ∧ (∀ self block block' self' r,
       kernel.update_stencils self block = (block', self', r) →
       r = Ok ()
       ∧ kernel.update_stencils self block' = (block', self', Ok ())).
Proof.
  split_and!.
  - intros self c self' r H.
    destruct (get_stencils_inv _ _ _ _ H) as (st & r' & Hloop & Hr).
    destruct (get_stencils_loop_registry _ _ _ _ _ _ Hloop)
      as (extra & Hd & Hn & Hnum & Hok).
    exists extra. split_and!; [done..|].
    intros s Hs. apply Hr in Hs as [-> _]. by destruct (Hok eq_refl).
  - intros self c1 c2 self1 self2 s1 s2 f1 v1 f2 v2 sten
      H1 H2 Hnd1 Hnd2 Hin1 Hg1 Hin2 Hg2 Hs1 Hs2.
    destruct (get_stencils_inv _ _ _ _ H1) as (st1 & r1 & Hloop1 & Hr1).
    destruct (get_stencils_inv _ _ _ _ H2) as (st2 & r2 & Hloop2 & Hr2).
    destruct (proj1 (Hr1 s1) eq_refl) as [-> ->].
    destruct (proj1 (Hr2 s2) eq_refl) as [-> ->].
    destruct (get_stencils_loop_registry _ _ _ _ _ _ Hloop1)
      as (e1 & Hd1 & _ & _ & Hok1).
    destruct (get_stencils_loop_registry _ _ _ _ _ _ Hloop2)
      as (e2 & Hd2 & _ & _ & Hok2).
    destruct (Hok1 eq_refl) as (_ & -> & Hall1).
    destruct (Hok2 eq_refl) as (_ & -> & Hall2).
    unfold all_registered in Hall1. rewrite Forall_forall in Hall1.
    destruct (Hall1 _ Hin1 Hg1) as (sten' & n & Hs' & Hn). simpl in Hs'.
    assert (sten' = sten) as -> by congruence.
    exists n. split.
    + by apply (names_in_lookup _ _ _ f1 v1 sten).
    + apply (names_in_lookup _ _ _ f2 v2 sten); [done..|].
      rewrite Hd2. by apply dict_get_app_Some.
  - intros self c self1 s1 H.
    destruct (get_stencils_inv _ _ _ _ H) as (st1 & r1 & Hloop & Hr).
    destruct (proj1 (Hr s1) eq_refl) as [-> ->].
    destruct (get_stencils_loop_registry _ _ _ _ _ _ Hloop)
      as (e1 & _ & _ & _ & Hok).
    destruct (Hok eq_refl) as (_ & Hst & Hall).
    unfold opsc.get_stencils. fold (items_of c).
    rewrite get_stencils_loop_settled by done.
    do 2 f_equal. rewrite Hst. clear.
    generalize (∅ : gmap string string). done.
  - intros self w block w' block' self' r H.
    unfold kernel.update_block_datasets in H.
    destruct (kernel.register_datasets _ (w, block)) as [[w1 b1] r1] eqn:Hreg.
    destruct (register_datasets_same_block _ _ _ _ _ _ Hreg) as [Hbn Hst].
    destruct r1 as [[]|e].
    + destruct (kernel.update_stencils self b1) as [[b2 k2] r2] eqn:Hu.
      injection H as <- <- <- <-.
      destruct (update_stencils_inv _ _ _ _ _ Hu)
        as (-> & extra & -> & Hnum & Hf & _).
      exists extra. simpl. rewrite <- Hst, <- Hbn. by split_and!.
    + injection H as <- <- <- <-. exists []. rewrite app_nil_r.
      split_and!; [done|done|discriminate].
  - intros k1 k2 w block w1 b1 k1' w2 b2 k2' d1 d2 footprint H1 H2 Hf1 Hf2.
    destruct (update_block_datasets_inv _ _ _ _ _ _ H1) as (b0 & _ & Hu1).
    destruct (update_block_datasets_inv _ _ _ _ _ _ H2) as (b0' & Hreg2 & Hu2).
    destruct (register_datasets_same_block _ _ _ _ _ _ Hreg2) as [_ Hst].
    destruct (update_stencils_inv _ _ _ _ _ Hu1)
      as (_ & e1 & _ & _ & _ & -> & Hall1).
    destruct (update_stencils_inv _ _ _ _ _ Hu2)
      as (_ & e2 & Hb2 & _ & _ & -> & Hall2).
    apply elem_of_map_to_list in Hf1, Hf2.
    rewrite Forall_forall in Hall1. destruct (Hall1 _ Hf1) as [so Hso].
    simpl in Hso.
    eexists _, _, (kernel.name so). split_and!; [done|done| |].
    + by apply (kernel_names_in_lookup _ _ _ d1 footprint so);
        [apply get_stencils_items_NoDup|..].
    + apply (kernel_names_in_lookup _ _ _ d2 footprint so);
        [apply get_stencils_items_NoDup|done|].
      rewrite Hb2. simpl. rewrite Hst. by apply dict_get_app_Some.
  - intros self w block w' block' self'.
    apply update_block_datasets_idempotent.
  - intros self block block' self' r H.
    destruct (update_stencils_inv _ _ _ _ _ H) as [-> _].
    split; [done|]. by eapply update_stencils_idempotent.
Qed.

Lemma registry_dedup_append_idempotent_witness :
  ∃ m1 m2 n,
    kernel.stencil_names
      (kernel.update_block_datasets f_kernel empty_world block0).1.2 = Some m1
    ∧ kernel.stencil_names
        (kernel.update_block_datasets g_kernel world1 block1).1.2 = Some m2
    ∧ m1 !! "f" = Some n ∧ m2 !! "g" = Some n.
Proof.
  destruct registry_dedup_append_idempotent as (_ & _ & _ & _ & Hdedup & _).
  apply (Hdedup f_kernel g_kernel empty_world block0 world1 block1
           (kernel.update_block_datasets f_kernel empty_world block0).1.2
           (kernel.update_block_datasets g_kernel world1 block1).1.1.1
           (kernel.update_block_datasets g_kernel world1 block1).1.1.2
           (kernel.update_block_datasets g_kernel world1 block1).1.2
           "f" "g" footprint3).
  - reflexivity.
  - reflexivity.
  - reflexivity.
  - reflexivity.
Defined.

End stencil_registry.

(** ** Generated names are told apart by their numbers *)

Module names.

Lemma str_int_inj (a b : Z) : str_int a = str_int b → a = b.
Proof.
  unfold str_int. intros H.
  apply DecimalZ.to_int_inj.
  assert (Hn : ∀ z, Z.to_int z ≠ Decimal.Pos Decimal.Nil
                    ∧ Z.to_int z ≠ Decimal.Neg Decimal.Nil).
  { intros [|p|p]; simpl; split; try discriminate;
      intros [= Hp]; by apply (DecimalPos.Unsigned.to_uint_nonnil p). }
  assert (Hs : Some (Z.to_int a) = Some (Z.to_int b)).
  { rewrite <- (NilZero.isi (Z.to_int a)) by apply Hn.
    rewrite <- (NilZero.isi (Z.to_int b)) by apply Hn.
    by rewrite H. }
  by injection Hs.
Qed.

Lemma append_inj_l (p s t : string) : p +:+ s = p +:+ t → s = t.
Proof. induction p as [|c p IH]; simpl; [done|]. intros [= H]. by apply IH. Qed.

Lemma number_of_zeros (n : nat) (s : string) :
  number_of (zeros n +:+ s) = number_of s.
Proof.
  induction n as [|n IH]; simpl; [done|].
  unfold number_of in *. simpl.
  destruct (NilEmpty.uint_of_string (zeros n +:+ s)) as [u|],
           (NilEmpty.uint_of_string s) as [v|]; simpl in *; try done.
Qed.

Lemma number_of_str_int (z : Z) : 0 <= z → number_of (str_int z) = z.
Proof.
  intros Hz. unfold number_of, str_int.
  destruct z as [|p|p]; [done| |lia].
  simpl. unfold NilZero.string_of_uint.
  pose proof (DecimalPos.Unsigned.to_uint_nonnil p) as Hnn.
  destruct (Pos.to_uint p) eqn:Hp; [done|..];
    rewrite <- Hp; rewrite NilEmpty.usu;
    unfold Z.of_uint; by rewrite DecimalPos.Unsigned.of_to.
Qed.

Lemma str_int_pad0_inj (width : nat) (a b : Z) :
  0 <= a → 0 <= b → str_int_pad0 width a = str_int_pad0 width b → a = b.
Proof.
  intros Ha Hb. unfold str_int_pad0.
  destruct (Z.ltb_spec a 0) as [?|_]; [lia|].
  destruct (Z.ltb_spec b 0) as [?|_]; [lia|].
  rewrite !Z.abs_eq by done. intros H.
  apply (f_equal number_of) in H.
  by rewrite !number_of_zeros, !number_of_str_int in H.
Qed.

End names.

(** ** The halo requirement of a kernel *)

Module halo_requirement.

Lemma halo_min_unique (s : list SchemeHalos) (m m' : Z) :
  reduced_min s m → reduced_min s m' → m = m'.
Proof.
  unfold reduced_min.
  intros [[-> ->]|[Hin Hle]] [[Hs ->]|[Hin' Hle']]; try done.
  - by apply elem_of_nil in Hin'.
  - subst s. by apply elem_of_nil in Hin.
  - specialize (Hle _ Hin'). specialize (Hle' _ Hin). lia.
Qed.

Lemma halo_max_unique (s : list SchemeHalos) (p p' : Z) :
  reduced_max s p → reduced_max s p' → p = p'.
Proof.
  unfold reduced_max.
  intros [[-> ->]|[Hin Hle]] [[Hs ->]|[Hin' Hle']]; try done.
  - by apply elem_of_nil in Hin'.
  - subst s. by apply elem_of_nil in Hin.
  - specialize (Hle _ Hin'). specialize (Hle' _ Hin). lia.
Qed.

Lemma same_set_nil (s : list SchemeHalos) : same_set s [] → s = [].
Proof.
  destruct s as [|x s]; [done|]. intros H.
  by destruct (proj1 (elem_of_nil x) (proj1 (H x) (list_elem_of_here _ _))).
Qed.

Lemma reduced_min_same_set (s s' : list SchemeHalos) (m : Z) :
  same_set s s' → reduced_min s m → reduced_min s' m.
Proof.
  unfold reduced_min. intros Hs [[-> ->]|[Hin Hle]].
  - left. split; [|done]. apply same_set_nil. intros x. by rewrite <- (Hs x).
  - right. rewrite !sorting_facts.fmap_map in *.
    setoid_rewrite list_elem_of_fmap. setoid_rewrite list_elem_of_fmap in Hin.
    setoid_rewrite list_elem_of_fmap in Hle.
    destruct Hin as (d & -> & Hd). split.
    + exists d. split; [done|]. by apply Hs.
    + intros x (d' & -> & Hd'). apply Hle. exists d'. split; [done|].
      by apply Hs.
Qed.

Lemma reduced_max_same_set (s s' : list SchemeHalos) (p : Z) :
  same_set s s' → reduced_max s p → reduced_max s' p.
Proof.
  unfold reduced_max. intros Hs [[-> ->]|[Hin Hle]].
  - left. split; [|done]. apply same_set_nil. intros x. by rewrite <- (Hs x).
  - right. rewrite !sorting_facts.fmap_map in *.
    setoid_rewrite list_elem_of_fmap. setoid_rewrite list_elem_of_fmap in Hin.
    setoid_rewrite list_elem_of_fmap in Hle.
    destruct Hin as (d & -> & Hd). split.
    + exists d. split; [done|]. by apply Hs.
    + intros x (d' & -> & Hd'). apply Hle. exists d'. split; [done|].
      by apply Hs.
Qed.

Lemma halo_min_same_set (s s' : list SchemeHalos) :
  same_set s s' → halo_min s = halo_min s'.
Proof.
  intros Hs. apply (halo_min_unique s').
  - apply (reduced_min_same_set s); [done|].
    apply iteration_range.halo_min_reduced.
  - apply iteration_range.halo_min_reduced.
Qed.

Lemma halo_max_same_set (s s' : list SchemeHalos) :
  same_set s s' → halo_max s = halo_max s'.
Proof.
  intros Hs. apply (halo_max_unique s').
  - apply (reduced_max_same_set s); [done|].
    apply iteration_range.halo_max_reduced.
  - apply iteration_range.halo_max_reduced.
Qed.

(** X1.  The reduction of a halo requirement, and with it the range of
    evaluation of a kernel, depends only on which contributors are in each
    set: not on the order in which they were added, nor on how often. *)
Theorem halo_values_of_sets (self self' : kernel.Kernel) :
  same_requirement (kernel.k_halo_ranges self) (kernel.k_halo_ranges self') →
  kernel.k_ranges self' = kernel.k_ranges self →
  kernel.k_ndim self' = kernel.k_ndim self →
  get_min_max_halo_values (kernel.k_halo_ranges self)
  = get_min_max_halo_values (kernel.k_halo_ranges self')
  ∧ kernel.range_of_eval self = kernel.range_of_eval self'.
Proof.
  intros Hs Hr Hn.
  assert (Hv : get_min_max_halo_values (kernel.k_halo_ranges self)
               = get_min_max_halo_values (kernel.k_halo_ranges self')).
  { rewrite !iteration_range.get_min_max_halo_values_map.
    induction Hs as [|a b h h' [H1 H2] _ IH]; [done|]. simpl.
    injection IH as IH1 IH2.
    by rewrite IH1, IH2, (halo_min_same_set _ _ H1),
      (halo_max_same_set _ _ H2). }
  split; [done|].
  unfold kernel.range_of_eval. by rewrite Hv, Hr, Hn.
Qed.

Lemma halo_values_of_sets_witness :
  kernel.range_of_eval
    (kernel.set_halo_ranges f_ranged [([one_halo; two_halo], [one_halo])])
  = kernel.range_of_eval
      (kernel.set_halo_ranges f_ranged
         [([two_halo; one_halo; two_halo], [one_halo; one_halo])]).
Proof.
  apply (halo_values_of_sets
           (kernel.set_halo_ranges f_ranged [([one_halo; two_halo], [one_halo])])
           (kernel.set_halo_ranges f_ranged
              [([two_halo; one_halo; two_halo], [one_halo; one_halo])]));
    [|reflexivity..].
  constructor; [|constructor].
  split; intros x; simpl; rewrite !elem_of_cons; naive_solver.
Defined.






Lemma halo_min_list_union (a b : list SchemeHalos) :
  Forall (fun d => halo_minus d <= 0) a →
  Forall (fun d => halo_minus d <= 0) b →
  halo_min (list_union a b) <= halo_min a
  ∧ halo_min (list_union a b) <= halo_min b.
Proof.
  intros Ha Hb.
  assert (Hall : ∀ s, s = a ∨ s = b →
                      halo_min (list_union a b) <= halo_min s).
  { intros s Hs.
    destruct (iteration_range.halo_min_reduced (list_union a b))
      as [[Hnil ->]|[Hin Hle]];
      destruct (iteration_range.halo_min_reduced s) as [[Hs' ->]|[Hin' Hle']].
    - done.
    - rewrite sorting_facts.fmap_map, list_elem_of_fmap in Hin'.
      destruct Hin' as (d & _ & Hd).
      assert (d ∈ list_union a b)
        by (apply list_elem_of_union; destruct Hs as [->| ->]; auto).
      rewrite Hnil in *. by apply elem_of_nil in H.
    - rewrite sorting_facts.fmap_map, list_elem_of_fmap in Hin.
      destruct Hin as (d & -> & Hd). simpl.
      apply list_elem_of_union in Hd as [Hd|Hd].
      + rewrite Forall_forall in Ha. by apply Ha.
      + rewrite Forall_forall in Hb. by apply Hb.
    - apply Hle. rewrite sorting_facts.fmap_map, list_elem_of_fmap in *.
      destruct Hin' as (d & -> & Hd). exists d. split; [done|].
      apply list_elem_of_union. destruct Hs as [->| ->]; auto. }
  split; apply Hall; auto.
Qed.

Lemma halo_max_list_union (a b : list SchemeHalos) :
  Forall (fun d => 0 <= halo_plus d) a →
  Forall (fun d => 0 <= halo_plus d) b →
  halo_max a <= halo_max (list_union a b)
  ∧ halo_max b <= halo_max (list_union a b).
Proof.
  intros Ha Hb.
  assert (Hall : ∀ s, s = a ∨ s = b →
                      halo_max s <= halo_max (list_union a b)).
  { intros s Hs.
    destruct (iteration_range.halo_max_reduced (list_union a b))
      as [[Hnil ->]|[Hin Hle]];
      destruct (iteration_range.halo_max_reduced s) as [[Hs' ->]|[Hin' Hle']].
    - done.
    - rewrite sorting_facts.fmap_map, list_elem_of_fmap in Hin'.
      destruct Hin' as (d & _ & Hd).
      assert (d ∈ list_union a b)
        by (apply list_elem_of_union; destruct Hs as [->| ->]; auto).
      rewrite Hnil in *. by apply elem_of_nil in H.
    - rewrite sorting_facts.fmap_map, list_elem_of_fmap in Hin.
      destruct Hin as (d & -> & Hd). simpl.
      apply list_elem_of_union in Hd as [Hd|Hd].
      + rewrite Forall_forall in Ha. by apply Ha.
      + rewrite Forall_forall in Hb. by apply Hb.
    - apply Hle. rewrite sorting_facts.fmap_map, list_elem_of_fmap in *.
      destruct Hin' as (d & -> & Hd). exists d. split; [done|].
      apply list_elem_of_union. destruct Hs as [->| ->]; auto. }
  split; apply Hall; auto.
Qed.

Lemma merge_directions_inv (k i : nat) (self self' : kernel.Kernel)
    (other : list halo_pair) (r : result unit) :
  kernel.merge_directions (seq i k) self other = (self', r) →
  (i + k)%nat = length (kernel.k_halo_ranges self) →
  length (kernel.k_halo_ranges self') = length (kernel.k_halo_ranges self)
  ∧ kernel.k_ranges self' = kernel.k_ranges self
  ∧ kernel.k_ndim self' = kernel.k_ndim self
  ∧ kernel.equations self' = kernel.equations self
  ∧ (∀ d mine,
       kernel.k_halo_ranges self !! d = Some mine →
       kernel.k_halo_ranges self' !! d
       = Some (match other !! d with
               | Some theirs => if decide (i <= d)%nat then merged mine theirs
                                else mine
               | None => mine
               end))
  ∧ (r = Ok () ↔ (k = 0 ∨ i + k <= length other)%nat)
  ∧ (r = Ok () ∨ r = Raise IndexError).
Proof.
  revert i self. induction k as [|k IH]; intros i self Hm Hlen; simpl in Hm.
  - injection Hm as <- <-. split_and!; try done.
    + intros d mine Hd. rewrite Hd. f_equal.
      apply lookup_lt_Some in Hd.
      destruct (other !! d); [|done]. destruct (decide _); [lia|done].
    + split; auto.
    + by left.
  - destruct (kernel.k_halo_ranges self !! i) as [mine|] eqn:Hi;
      [|apply lookup_ge_None in Hi; lia].
    destruct (other !! i) as [theirs|] eqn:Ho.
    + apply IH in Hm; [|simpl; rewrite length_insert; lia].
      simpl in Hm. rewrite length_insert in Hm.
      destruct Hm as (Hl & Hr & Hn & He & Hd & Hok & Hcases).
      split_and!; try done.
      * intros d mine' Hmine.
        destruct (decide (d = i)) as [->|Hne].
        -- rewrite (Hd i (merged mine theirs))
             by (apply list_lookup_insert_eq; by apply lookup_lt_Some in Hi).
           rewrite Ho. f_equal.
           destruct (decide (S i <= i)%nat); [lia|].
           destruct (decide (i <= i)%nat); [|lia]. congruence.
        -- rewrite (Hd d mine') by (by rewrite list_lookup_insert_ne).
           f_equal. destruct (other !! d); [|done].
           destruct (decide (S i <= d)%nat), (decide (i <= d)%nat);
             try done; lia.
      * pose proof (lookup_lt_Some _ _ _ Ho).
        rewrite Hok. split; intros [?|?]; try lia; right; lia.
    + injection Hm as <- <-. apply lookup_ge_None in Ho.
      split_and!; try done.
      * intros d mine' Hmine. rewrite Hmine. f_equal.
        destruct (other !! d) eqn:Hod; [|done].
        apply lookup_lt_Some in Hod.
        destruct (decide (i <= d)%nat); [lia|done].
      * split; [done|]. intros [?|?]; lia.
      * by right.
Qed.

(** X3.  [merge_halo_range] is a union, direction by direction.  It returns
    exactly when [halo_range] has a pair for every direction of the kernel,
    and raises an index error otherwise.  Either way the kernel keeps its
    directions; in every direction that [halo_range] has too, each side has
    the contributors of both afterwards, and the other directions are as they
    were: when it raises, the directions before the missing one are already
    merged. *)
Theorem merge_halo_range_union (self self' : kernel.Kernel)
    (halo_range : list halo_pair) (r : result unit) :
  kernel.merge_halo_range self halo_range = (self', r) →
  (r = Ok ()
   ↔ (length (kernel.k_halo_ranges self) <= length halo_range)%nat)
  ∧ (r = Ok () ∨ r = Raise IndexError)
  ∧ length (kernel.k_halo_ranges self') = length (kernel.k_halo_ranges self)
  ∧ ∀ d mine,
      kernel.k_halo_ranges self !! d = Some mine →
      ∃ now,
        kernel.k_halo_ranges self' !! d = Some now
        ∧ match halo_range !! d with
          | Some theirs =>
              (∀ x, x ∈ now.1 ↔ x ∈ mine.1 ∨ x ∈ theirs.1)
              ∧ (∀ x, x ∈ now.2 ↔ x ∈ mine.2 ∨ x ∈ theirs.2)
          | None => now = mine
          end.
Proof.
  unfold kernel.merge_halo_range. intros H.
  apply merge_directions_inv in H; [|done].
  destruct H as (Hl & _ & _ & _ & Hd & Hok & Hcases).
  split_and!; try done.
  - rewrite Hok. split; [intros [->|?]; simpl; lia|auto].
  - intros d mine Hmine. eexists. split; [by apply Hd|].
    destruct (halo_range !! d) as [theirs|]; [|done].
    destruct (decide (0 <= d)%nat); [|lia].
    split; intros x; apply list_elem_of_union.
Qed.

Lemma merge_halo_range_union_witness :
  length
    (kernel.k_halo_ranges
       (kernel.merge_halo_range halo_kernel [([two_halo], [])]).1)
  = length (kernel.k_halo_ranges halo_kernel).
Proof.
  apply (merge_halo_range_union halo_kernel
           (kernel.merge_halo_range halo_kernel [([two_halo], [])]).1
           [([two_halo], [])]
           (kernel.merge_halo_range halo_kernel [([two_halo], [])]).2).
  reflexivity.
Defined.

Lemma range_of_eval_total (self : kernel.Kernel) (base : list (Z * Z)) :
  kernel.k_ranges self = Some base →
  length base = kernel.k_ndim self →
  length (kernel.k_halo_ranges self) = kernel.k_ndim self →
  ∃ range,
    kernel.range_of_eval self = Ok range
    ∧ length range = kernel.k_ndim self
    ∧ ∀ d r h, base !! d = Some r →
               kernel.k_halo_ranges self !! d = Some h →
               range !! d = Some (r.1 + halo_min h.1, r.2 + halo_max h.2).
Proof.
  intros Hr Hlb Hlh. unfold kernel.range_of_eval.
  rewrite iteration_range.get_min_max_halo_values_map, Hr.
  set (halos := kernel.k_halo_ranges self) in *.
  set (g := fun d : nat =>
              match base !! d, halos !! d with
              | Some r, Some h => (r.1 + halo_min h.1, r.2 + halo_max h.2)
              | _, _ => (0, 0)
              end).
  exists (g <$> seq 0 (kernel.k_ndim self)). split_and!.
  - apply sorting_facts.for_each_total. intros d Hd. apply elem_of_seq in Hd.
    destruct (lookup_lt_is_Some_2 base d) as [r Hbd]; [lia|].
    destruct (lookup_lt_is_Some_2 halos d) as [h Hhd]; [lia|].
    unfold g, getitem.
    rewrite !sorting_facts.fmap_map, !list_lookup_fmap, Hbd, Hhd.
    simpl. by rewrite Hbd.
  - by rewrite length_fmap, length_seq.
  - intros d r h Hbd Hhd.
    rewrite list_lookup_fmap, lookup_seq_lt
      by (apply lookup_lt_Some in Hbd; lia).
    simpl. unfold g. by rewrite Hbd, Hhd.
Qed.

(** X4.  Merging covers both.  When the contributors extend the range
    outwards, the kernel that [merge_halo_range] leaves evaluates, in every
    dimension, at least where the kernel did before and at least where the
    kernel whose requirement was merged in does. *)
Theorem merged_range_covers (k1 k2 k1' : kernel.Kernel)
    (base : list (Z * Z)) :
  kernel.merge_halo_range k1 (kernel.k_halo_ranges k2) = (k1', Ok ()) →
  outward (kernel.k_halo_ranges k1) →
  outward (kernel.k_halo_ranges k2) →
  kernel.k_ranges k1 = Some base →
  kernel.k_ranges k2 = Some base →
  kernel.k_ndim k2 = kernel.k_ndim k1 →
  length base = kernel.k_ndim k1 →
  length (kernel.k_halo_ranges k1) = kernel.k_ndim k1 →
  length (kernel.k_halo_ranges k2) = kernel.k_ndim k1 →
  ∃ R1 R2 R,
    kernel.range_of_eval k1 = Ok R1
    ∧ kernel.range_of_eval k2 = Ok R2
    ∧ kernel.range_of_eval k1' = Ok R
    ∧ ∀ d lo hi, R !! d = Some (lo, hi) →
        ∃ lo1 hi1 lo2 hi2,
          R1 !! d = Some (lo1, hi1) ∧ R2 !! d = Some (lo2, hi2)
          ∧ lo <= lo1 ∧ lo <= lo2 ∧ hi1 <= hi ∧ hi2 <= hi.
Proof.
  intros Hm Ho1 Ho2 Hr1 Hr2 Hn2 Hlb Hl1 Hl2.
  unfold kernel.merge_halo_range in Hm.
  apply merge_directions_inv in Hm; [|done].
  destruct Hm as (Hl & Hr & Hn & _ & Hd & _ & _).
  destruct (range_of_eval_total k1 base) as (R1 & HR1 & HL1 & HD1); [done..|].
  destruct (range_of_eval_total k2 base) as (R2 & HR2 & HL2 & HD2);
    [done|lia|lia|].
  destruct (range_of_eval_total k1' base) as (R & HR & HL & HD);
    [congruence|lia|lia|].
  exists R1, R2, R. split_and!; [done..|].
  intros d lo hi HRd.
  assert (Hlt : (d < kernel.k_ndim k1)%nat)
    by (apply lookup_lt_Some in HRd; lia).
  destruct (lookup_lt_is_Some_2 base d) as [r Hbd]; [lia|].
  destruct (lookup_lt_is_Some_2 (kernel.k_halo_ranges k1) d) as [mine Hmine];
    [lia|].
  destruct (lookup_lt_is_Some_2 (kernel.k_halo_ranges k2) d)
    as [theirs Htheirs]; [lia|].
  specialize (Hd d mine Hmine). rewrite Htheirs in Hd.
  destruct (decide (0 <= d)%nat); [|lia].
  rewrite (HD d r _ Hbd Hd) in HRd. injection HRd as <- <-.
  exists (r.1 + halo_min mine.1), (r.2 + halo_max mine.2),
         (r.1 + halo_min theirs.1), (r.2 + halo_max theirs.2).
  unfold outward in Ho1, Ho2. rewrite Forall_lookup in Ho1, Ho2.
  destruct (Ho1 _ _ Hmine) as [Ha1 Ha2].
  destruct (Ho2 _ _ Htheirs) as [Hb1 Hb2].
  destruct (halo_min_list_union _ _ Ha1 Hb1).
  destruct (halo_max_list_union _ _ Ha2 Hb2).
  split_and!; [by apply HD1|by apply HD2|simpl; lia..].
Qed.

Lemma merged_range_covers_witness :
  ∃ R1 R2 R,
    kernel.range_of_eval halo_kernel = Ok R1
    ∧ kernel.range_of_eval
        (kernel.set_halo_ranges halo_kernel [([two_halo], [])]) = Ok R2
    ∧ kernel.range_of_eval
        (kernel.merge_halo_range halo_kernel [([two_halo], [])]).1 = Ok R
    ∧ ∀ d lo hi, R !! d = Some (lo, hi) →
        ∃ lo1 hi1 lo2 hi2,
          R1 !! d = Some (lo1, hi1) ∧ R2 !! d = Some (lo2, hi2)
          ∧ lo <= lo1 ∧ lo <= lo2 ∧ hi1 <= hi ∧ hi2 <= hi.
Proof.
  apply (merged_range_covers halo_kernel
           (kernel.set_halo_ranges halo_kernel [([two_halo], [])])
           (kernel.merge_halo_range halo_kernel [([two_halo], [])]).1
           [(0, 200)]); try reflexivity.
  - repeat constructor; simpl; lia.
  - repeat constructor; simpl; lia.
Defined.

(** X5.  With the grid range set to zero the range of evaluation is the halo
    reduction itself: in every dimension, from the least extent of the
    negative side to the greatest extent of the positive side. *)
Theorem zero_range_is_halo (self : kernel.Kernel) (block : kernel.Block) :
  kernel.ndim block = kernel.k_ndim self →
  length (kernel.k_halo_ranges self) = kernel.k_ndim self →
  kernel.range_of_eval (kernel.set_grid_range_to_zero self block)
  = Ok ((fun h : halo_pair => (halo_min h.1, halo_max h.2))
          <$> kernel.k_halo_ranges self).
Proof.
  intros Hn Hl.
  destruct (range_of_eval_total (kernel.set_grid_range_to_zero self block)
              (replicate (kernel.ndim block) (0, 0)))
    as (range & -> & Hlen & Hd); [done|by rewrite length_replicate|done|].
  f_equal. simpl in *. apply list_eq. intros d.
  rewrite list_lookup_fmap.
  destruct (kernel.k_halo_ranges self !! d) as [h|] eqn:Hh; simpl.
  - apply (Hd d (0, 0) h); [|done].
    apply lookup_replicate_2. apply lookup_lt_Some in Hh. lia.
  - apply lookup_ge_None. apply lookup_ge_None in Hh. lia.
Qed.

Lemma zero_range_is_halo_witness :
  kernel.range_of_eval (kernel.set_grid_range_to_zero halo_kernel block0)
  = Ok [(-1, 1)].
Proof.
  apply (zero_range_is_halo halo_kernel block0); reflexivity.
Defined.

End halo_requirement.

(** ** The code of a kernel *)

Module kernel_code.

Lemma stencil_dictionary_inhabited (D : gset (string * list index))
    (b : string) (St : gset (list index)) :
  set_fold (fun s (d : gmap string (gset (list index))) =>
              match d !! s.1 with
              | Some val => <[s.1 := val ∪ {[ s.2 ]}]> d
              | None => <[s.1 := {[ s.2 ]}]> d
              end) ∅ D !! b = Some St →
  ∃ idx, idx ∈ St.
Proof.
  revert b St.
  apply (set_fold_ind_L
           (fun (d : gmap string (gset (list index))) (_ : gset _) =>
              ∀ b St, d !! b = Some St → ∃ idx, idx ∈ St)).
  - intros b St H. by rewrite lookup_empty in H.
  - intros [b' idx'] X d _ IH b St. simpl.
    destruct (d !! b') as [val|] eqn:Hb'.
    + destruct (decide (b = b')) as [->|Hne].
      * rewrite lookup_insert_eq. intros [= <-]. exists idx'. set_solver.
      * rewrite lookup_insert_ne by done. apply IH.
    + destruct (decide (b = b')) as [->|Hne].
      * rewrite lookup_insert_eq. intros [= <-]. exists idx'. set_solver.
      * rewrite lookup_insert_ne by done. apply IH.
Qed.

Lemma get_stencils_is_Some (self : kernel.Kernel) (f : string) :
  is_Some (kernel.get_stencils self !! f)
  ↔ f ∈ kernel.lhs_datasets self ∪ kernel.rhs_datasets self.
Proof.
  rewrite elem_of_union, classifier.elem_of_lhs_datasets,
    classifier.elem_of_rhs_datasets.
  pose proof (stencils.get_stencils_lookup self f) as Hl.
  split.
  - intros [St HSt]. rewrite HSt in Hl.
    destruct (stencil_dictionary_inhabited _ _ _ HSt) as [idx Hidx].
    apply Hl in Hidx as (e & He & Hin).
    apply elem_of_union in Hin as [Hin|Hin]; [left|right]; exists e;
      (split; [done|]); apply classifier.elem_of_atoms_DataSetBase; eauto.
  - intros H. destruct (kernel.get_stencils self !! f) as [St|]; [eauto|].
    exfalso.
    destruct H as [(e & He & Hf)|(e & He & Hf)];
      apply classifier.elem_of_atoms_DataSetBase in Hf as [idx Hf];
      apply (Hl idx e He); set_solver.
Qed.

(** X6.  [Kernel.get_stencils] has a footprint for exactly the fields that
    [lhs_datasets] and [rhs_datasets] report, and no footprint is empty. *)
Theorem get_stencils_fields (self : kernel.Kernel) :
  dom (kernel.get_stencils self)
  = kernel.lhs_datasets self ∪ kernel.rhs_datasets self
  ∧ ∀ f St, kernel.get_stencils self !! f = Some St → St ≠ ∅.
Proof.
  split.
  - apply set_eq. intros f. rewrite elem_of_dom. apply get_stencils_is_Some.
  - intros f St HSt ->.
    destruct (stencil_dictionary_inhabited _ _ _ HSt) as [idx Hidx].
    set_solver.
Qed.

Lemma update_block_datasets_names (self self' : kernel.Kernel)
    (w w' : kernel.World) (block block' : kernel.Block) :
  kernel.update_block_datasets self w block = (w', block', self', Ok ()) →
  ∃ names,
    kernel.stencil_names self' = Some names
    ∧ dom names = kernel.lhs_datasets self ∪ kernel.rhs_datasets self
    ∧ ∀ f footprint,
        kernel.get_stencils self !! f = Some footprint →
        ∃ so, dict_get (kernel.block_stencils block') footprint = Some so
              ∧ names !! f = Some (kernel.name so).
Proof.
  intros H.
  destruct (stencil_registry.update_block_datasets_inv _ _ _ _ _ _ H)
    as (b1 & _ & Hu).
  destruct (stencil_registry.update_stencils_inv _ _ _ _ _ Hu)
    as (_ & extra & _ & _ & _ & -> & Hall).
  eexists. split; [reflexivity|].
  assert (Hlook : ∀ f footprint,
    kernel.get_stencils self !! f = Some footprint →
    ∃ so, dict_get (kernel.block_stencils block') footprint = Some so
          ∧ kernel_names_in (kernel.block_stencils block')
              (map_to_list (kernel.get_stencils self)) ∅ !! f
            = Some (kernel.name so)).
  { intros f footprint Hf. apply elem_of_map_to_list in Hf.
    rewrite Forall_forall in Hall. destruct (Hall _ Hf) as [so Hso].
    exists so. split; [done|].
    by apply (stencil_registry.kernel_names_in_lookup _ _ _ f footprint so);
      [apply stencil_registry.get_stencils_items_NoDup|..]. }
  split; [|done].
  apply set_eq. intros f.
  rewrite <- get_stencils_is_Some, elem_of_dom. split.
  - intros [n Hn].
    destruct (decide (f ∈ (map_to_list (kernel.get_stencils self)).*1))
      as [Hin|Hnin].
    + apply list_elem_of_fmap in Hin as ([f' St] & -> & Hin).
      apply elem_of_map_to_list in Hin. eauto.
    + rewrite stencil_registry.kernel_names_in_lookup_other in Hn by done.
      by rewrite lookup_empty in Hn.
  - intros [St HSt]. destruct (Hlook _ _ HSt) as (so & _ & Hn). eauto.
Qed.

(** X7.  After a successful [update_block_datasets] the kernel has a stencil
    name for exactly the fields it refers to, and the name of a field is the
    name under which the registry of the block holds the footprint of the
    field. *)
Theorem stencil_names_resolved (self self' : kernel.Kernel)
    (w w' : kernel.World) (block block' : kernel.Block) :
  kernel.update_block_datasets self w block = (w', block', self', Ok ()) →
  ∃ names,
    kernel.stencil_names self' = Some names
    ∧ dom names = kernel.lhs_datasets self ∪ kernel.rhs_datasets self
    ∧ ∀ f footprint,
        kernel.get_stencils self !! f = Some footprint →
        ∃ so, dict_get (kernel.block_stencils block') footprint = Some so
              ∧ names !! f = Some (kernel.name so).
Proof. apply update_block_datasets_names. Qed.

Lemma stencil_names_resolved_witness :
  ∃ names,
    kernel.stencil_names
      (kernel.update_block_datasets f_kernel empty_world block0).1.2
    = Some names
    ∧ names !! "f" = Some "stencil_0_00".
Proof.
  destruct (stencil_names_resolved f_kernel
              (kernel.update_block_datasets f_kernel empty_world block0).1.2
              empty_world world1 block0 block1)
    as (names & Hn & _ & Hl); [reflexivity|].
  exists names. split; [exact Hn|].
  destruct (Hl "f" footprint3) as (so & Hso & Hf); [reflexivity|].
  rewrite Hf. f_equal.
  assert (Hs : Some so = Some {| kernel.name := "stencil_0_00";
                                 kernel.stencil := footprint3;
                                 kernel.stencil_ndim := 1 |})
    by (rewrite <- Hso; reflexivity).
  by injection Hs as ->.
Defined.






Lemma elem_of_required_data_sets (eqs : list object) (acc : list string)
    (f : string) :
  f ∈ foldl (fun requires eq =>
               match eq with
               | PyEq e => requires ++ elements (atoms_DataSetBase (rhs e))
               | _ => requires
               end) acc eqs
  ↔ f ∈ acc ∨ ∃ e, PyEq e ∈ eqs ∧ f ∈ atoms_DataSetBase (rhs e).
Proof.
  revert acc. induction eqs as [|eq eqs IH]; intros acc; simpl.
  - split; [auto|]. intros [?|(e & He & _)]; [done|].
    by apply elem_of_nil in He.
  - rewrite IH. split.
    + intros [Hf|(e & He & Hf)].
      * destruct eq as [| | |e|]; try (by left).
        apply elem_of_app in Hf as [Hf|Hf]; [by left|].
        right. exists e. split; [apply list_elem_of_here|].
        by apply elem_of_elements in Hf.
      * right. exists e. split; [by apply list_elem_of_further|done].
    + intros [Hf|(e & He & Hf)].
      * left. destruct eq; try done. apply elem_of_app. by left.
      * apply elem_of_cons in He as [<-|He].
        -- left. apply elem_of_app. right. by apply elem_of_elements.
        -- right. eauto.
Qed.

(** X9.  [required_data_sets] lists the fields of [rhs_datasets] and no other:
    the two properties agree on which fields a kernel reads, and one is empty
    exactly when the other is. *)
Theorem required_data_sets_rhs (self : kernel.Kernel) :
  (∀ f, f ∈ kernel.required_data_sets self ↔ f ∈ kernel.rhs_datasets self)
  ∧ (kernel.required_data_sets self = [] ↔ kernel.rhs_datasets self = ∅).
Proof.
  assert (H : ∀ f, f ∈ kernel.required_data_sets self
                   ↔ f ∈ kernel.rhs_datasets self).
  { intros f. unfold kernel.required_data_sets.
    rewrite elem_of_required_data_sets, classifier.elem_of_rhs_datasets.
    split; [|by right]. intros [Hf|Hf]; [by apply elem_of_nil in Hf|done]. }
  split; [done|]. split.
  - intros Hnil. apply set_eq. intros f. split; [|set_solver].
    intros Hf. apply (proj2 (H f)) in Hf. rewrite Hnil in Hf.
    by apply elem_of_nil in Hf.
  - intros Hempty.
    destruct (kernel.required_data_sets self) as [|f l] eqn:Hl; [done|].
    assert (f ∈ kernel.rhs_datasets self)
      by (apply H, list_elem_of_here).
    set_solver.
Qed.

Lemma add_equation_extends (self self' : kernel.Kernel) (equation : object) :
  kernel.add_equation self equation = Ok self' →
  ∃ more, self' = kernel.set_equations self (kernel.equations self ++ more).
Proof.
  destruct equation as [|z|s|e|l]; simpl.
  - done.
  - destruct (negb (z =? 0)); [|done]. intros [= <-]. exists [].
    rewrite app_nil_r. by destruct self.
  - destruct (negb _); [|done]. intros [= <-]. exists [].
    rewrite app_nil_r. by destruct self.
  - intros [= <-]. eauto.
  - intros [= <-]. eauto.
Qed.

(** X10.  Equations only accumulate.  After a call of [add_equation] that
    returns, the kernel refers to every field it referred to before, on the
    same sides, every footprint has the index tuples it had, and every
    rational constant is still there. *)
Theorem add_equation_accumulates (self self' : kernel.Kernel)
    (equation : object) :
  kernel.add_equation self equation = Ok self' →
  kernel.lhs_datasets self ⊆ kernel.lhs_datasets self'
  ∧ kernel.rhs_datasets self ⊆ kernel.rhs_datasets self'
  ∧ kernel.Rational_constants self ⊆ kernel.Rational_constants self'
  ∧ ∀ f St, kernel.get_stencils self !! f = Some St →
            ∃ St', kernel.get_stencils self' !! f = Some St' ∧ St ⊆ St'.
Proof.
  intros H. destruct (add_equation_extends _ _ _ H) as [more ->].
  assert (Hin : ∀ e, PyEq e ∈ kernel.equations self →
                     PyEq e ∈ kernel.equations
                                (kernel.set_equations self
                                   (kernel.equations self ++ more))).
  { intros e He. simpl. apply elem_of_app. by left. }
  split_and!.
  - intros f. rewrite !classifier.elem_of_lhs_datasets.
    intros (e & He & Hf). eauto.
  - intros f. rewrite !classifier.elem_of_rhs_datasets.
    intros (e & He & Hf). eauto.
  - intros n. rewrite !printer.elem_of_Rational_constants.
    intros (Hn & e & He & Hf). eauto.
  - intros f St HSt.
    set (self' := kernel.set_equations self (kernel.equations self ++ more)).
    pose proof (stencils.get_stencils_lookup self f) as Hl.
    pose proof (stencils.get_stencils_lookup self' f) as Hl'.
    rewrite HSt in Hl.
    destruct (stencil_dictionary_inhabited _ _ _ HSt) as [idx Hidx].
    destruct (kernel.get_stencils self' !! f) as [St'|].
    + exists St'. split; [done|]. intros i Hi.
      apply Hl in Hi as (e & He & Hi). apply Hl'. eauto.
    + exfalso. apply Hl in Hidx as (e & He & Hi).
      by apply (Hl' idx e (Hin _ He)).
Qed.

Lemma add_equation_accumulates_witness :
  kernel.lhs_datasets f_ranged
  ⊆ kernel.lhs_datasets
      (kernel.set_equations f_ranged
         (kernel.equations f_ranged ++ [PyEq shifted_equation])).
Proof.
  apply (add_equation_accumulates f_ranged _ (PyEq shifted_equation)).
  reflexivity.
Defined.

End kernel_code.

(** ** The constants to declare *)

Module constants_registry.

(** X11.  The first registration of a constant stands.  [add_constant] raises
    only when the value has no truth value; it never changes a constant that
    is already in [ConstantsToDeclare.constants], whatever value or type it is
    given; otherwise it appends the constant, so that the list keeps its
    entries in their order and stays free of duplicates, and it touches the
    attributes of no other constant. *)
Theorem add_constant_first_wins (const : string) (value : object)
    (dtype : option kernel.datatype) (C : kernel.Constants) :
  let C' := (kernel.add_constant const value dtype C).1 in
  let r := (kernel.add_constant const value dtype C).2 in
  (r = Ok () ∨ (r = Raise TypeError ∧ C' = C))
  ∧ (const ∈ kernel.constants C → C' = C)
  ∧ (r = Ok () → const ∈ kernel.constants C')
  ∧ (∃ new, kernel.constants C' = kernel.constants C ++ new)
  ∧ (NoDup (kernel.constants C) → NoDup (kernel.constants C'))
  ∧ (∀ c, c ≠ const →
          kernel.constant_objects C' !! c = kernel.constant_objects C !! c).
Proof.
  unfold kernel.add_constant.
  destruct (truth value) as [t|e] eqn:Ht; simpl.
  - destruct t; simpl; case_bool_decide as Hin; simpl.
    + split_and!; try done.
      * by left.
      * intros _. apply elem_of_app. right. apply list_elem_of_here.
      * by exists [const].
      * intros Hnd. apply NoDup_app. split_and!; [done| |apply NoDup_singleton].
        intros x Hx ->%list_elem_of_singleton. done.
      * intros c Hne. by rewrite lookup_insert_ne.
    + split_and!; try done.
      * by left.
      * exists []. by rewrite app_nil_r.
    + split_and!; try done.
      * by left.
      * intros _. apply elem_of_app. right. apply list_elem_of_here.
      * by exists [const].
      * intros Hnd. apply NoDup_app. split_and!; [done| |apply NoDup_singleton].
        intros x Hx ->%list_elem_of_singleton. done.
      * intros c Hne. by rewrite lookup_insert_ne.
    + split_and!; try done.
      * by left.
      * exists []. by rewrite app_nil_r.
  - destruct value; try done. injection Ht as <-.
    split_and!; try done.
    + by right.
    + exists []. by rewrite app_nil_r.
Qed.

(** X12.  A value that is false counts as no value.  A constant that is not
    registered yet is recorded as an input without a value when the value
    given is false ([None], but also [0] or the empty string), and as a
    constant with its value when the value is true; its type is the one given,
    or the simulation data type. *)
Theorem add_constant_value (const : string) (value : object)
    (dtype : option kernel.datatype) (C : kernel.Constants) (t : bool) :
  const ∉ kernel.constants C →
  truth value = Ok t →
  ∃ a,
    kernel.add_constant const value dtype C
    = ({| kernel.constants := kernel.constants C ++ [const];
          kernel.constant_objects :=
            <[const := a]> (kernel.constant_objects C) |}, Ok ())
    ∧ kernel.is_input a = negb t
    ∧ kernel.const_value a = (if t then value else PyNone)
    ∧ kernel.const_dtype a
      = Some (default kernel.SimulationDataType dtype).
Proof.
  intros Hin Ht. unfold kernel.add_constant. rewrite Ht.
  rewrite bool_decide_eq_true_2 by done.
  destruct t; simpl; eexists; (split; [reflexivity|]); simpl;
    by destruct dtype.
Qed.

Lemma add_constant_value_witness :
  ∃ a,
    kernel.add_constant "nu" (PyInt 0) None no_constants
    = ({| kernel.constants := ["nu"];
          kernel.constant_objects := <["nu" := a]> ∅ |}, Ok ())
    ∧ kernel.is_input a = true
    ∧ kernel.const_value a = PyNone
    ∧ kernel.const_dtype a = Some kernel.SimulationDataType.
Proof.
  apply (add_constant_value "nu" (PyInt 0) None no_constants false).
  - apply not_elem_of_nil.
  - reflexivity.
Defined.

End constants_registry.

(** ** Generated names *)

Module generated_names.

#[local] Arguments kernel.resolve_stencil : simpl never.
#[local] Arguments opsc.get_stencil : simpl never.

Lemma NoDup_first_uses {K} `{EqDecision K} (known keys : list K) :
  NoDup known → NoDup (known ++ first_uses known keys).
Proof.
  revert known. induction keys as [|k keys IH]; intros known Hnd; simpl.
  - by rewrite app_nil_r.
  - case_bool_decide as Hk; [by apply IH|].
    rewrite (cons_middle k), app_assoc. apply IH.
    apply NoDup_app. split_and!; [done| |apply NoDup_singleton].
    intros x Hx ->%list_elem_of_singleton. done.
Qed.

Lemma NoDup_numbered {A} (l : list A) (f : nat → A) :
  (∀ i j, f i = f j → i = j) →
  (∀ i x, l !! i = Some x → x = f i) →
  NoDup l.
Proof.
  intros Hinj Hnum. apply NoDup_alt. intros i j x Hi Hj.
  apply Hinj. by rewrite <- (Hnum _ _ Hi), <- (Hnum _ _ Hj).
Qed.

Lemma kernel_stencil_name_inj (bn : Z) (i j : nat) :
  kernel_stencil_name bn i = kernel_stencil_name bn j → i = j.
Proof.
  unfold kernel_stencil_name. intros H.
  do 3 apply names.append_inj_l in H.
  apply names.str_int_pad0_inj in H; lia.
Qed.

Lemma opsc_stencil_name_inj (i j : nat) :
  "stencil" +:+ str_int (Z.of_nat i) = "stencil" +:+ str_int (Z.of_nat j) →
  i = j.
Proof.
  intros H. apply names.append_inj_l, names.str_int_inj in H. lia.
Qed.

(** The registry of a block, one field further. *)
Lemma resolve_stencil_numbered (item : string * gset (list index))
    (block block' : kernel.Block) (names names' : gmap string string)
    (r : result unit) :
  kernel.resolve_stencil item (block, names) = (block', names', r) →
  stencils_numbered block → NoDup (kernel.block_stencils block).*1 →
  stencils_numbered block' ∧ NoDup (kernel.block_stencils block').*1.
Proof.
  intros H Hnum Hnd.
  destruct (stencil_registry.resolve_stencil_step _ _ _ _ _ _ H)
    as (extra & -> & Hextra & Hkeys & _).
  split.
  - intros i k so. simpl.
    destruct (decide (i < length (kernel.block_stencils block))%nat) as [Hi|Hi].
    + rewrite lookup_app_l by done. apply Hnum.
    + rewrite lookup_app_r by lia. intros Hso.
      destruct (Hextra _ _ _ Hso) as [Hst Hname]. split; [done|].
      rewrite Hname. f_equal. lia.
  - simpl. rewrite fmap_app, Hkeys. by apply NoDup_first_uses.
Qed.

Lemma resolve_stencils_numbered (stens : list (string * gset (list index)))
    (block block' : kernel.Block) (names names' : gmap string string)
    (r : result unit) :
  kernel.resolve_stencils stens (block, names) = (block', names', r) →
  stencils_numbered block → NoDup (kernel.block_stencils block).*1 →
  stencils_numbered block' ∧ NoDup (kernel.block_stencils block').*1.
Proof.
  revert block names. induction stens as [|item stens IH];
    intros block names H Hnum Hnd; simpl in H.
  - by injection H as <- <- <-.
  - destruct (kernel.resolve_stencil item (block, names))
      as [[b1 n1] r1] eqn:Hstep.
    destruct (resolve_stencil_numbered _ _ _ _ _ _ Hstep Hnum Hnd).
    destruct r1 as [[]|e].
    + by apply (IH _ _ H).
    + by injection H as <- <- <-.
Qed.

Lemma stencils_numbered_NoDup (block : kernel.Block) :
  stencils_numbered block →
  NoDup (kernel.name <$> (kernel.block_stencils block).*2).
Proof.
  intros Hnum.
  apply (NoDup_numbered _
           (kernel_stencil_name (kernel.blocknumber block))).
  - apply kernel_stencil_name_inj.
  - intros i x. rewrite !list_lookup_fmap.
    destruct (kernel.block_stencils block !! i) as [[k so]|] eqn:Hi;
      [|done].
    simpl. intros [= <-]. by apply (Hnum i k so).
Qed.

(** X13.  The stencil names of a block are distinct.  A registry in which
    every entry is filed under its own footprint and named after its position,
    with no footprint twice, as the empty registry is, is again such a
    registry after [update_block_datasets], whether it returns or raises; and
    in such a registry no two entries have the same name. *)
Theorem block_stencil_names_distinct :
  (∀ block, kernel.block_stencils block = [] →
            stencils_numbered block
            ∧ NoDup (kernel.block_stencils block).*1)
  ∧ ∀ self self' w w' block block' r,
      kernel.update_block_datasets self w block = (w', block', self', r) →
      stencils_numbered block →
      NoDup (kernel.block_stencils block).*1 →
      stencils_numbered block'
      ∧ NoDup (kernel.block_stencils block').*1
      ∧ NoDup (kernel.name <$> (kernel.block_stencils block').*2).
Proof.
  split.
  - intros block Hnil. unfold stencils_numbered. rewrite Hnil.
    split; [|constructor]. intros i k so Hi. by destruct i.
  - intros self self' w w' block block' r H Hnum Hnd.
    enough (stencils_numbered block'
            ∧ NoDup (kernel.block_stencils block').*1) as [? ?]
      by (split_and!; [done..|by apply stencils_numbered_NoDup]).
    unfold kernel.update_block_datasets in H.
    destruct (kernel.register_datasets _ (w, block)) as [[w1 b1] r1] eqn:Hreg.
    destruct (stencil_registry.register_datasets_same_block _ _ _ _ _ _ Hreg)
      as [Hbn Hst].
    assert (Hnum1 : stencils_numbered b1)
      by (unfold stencils_numbered; by rewrite Hst, Hbn).
    assert (Hnd1 : NoDup (kernel.block_stencils b1).*1) by (by rewrite Hst).
    destruct r1 as [[]|e].
    + unfold kernel.update_stencils in H.
      destruct (kernel.resolve_stencils _ (b1, ∅)) as [[b2 n2] r2] eqn:Hres.
      injection H as <- <- <- <-.
      by apply (resolve_stencils_numbered _ _ _ _ _ _ Hres).
    + by injection H as <- <- <- <-.
Qed.

Lemma block_stencil_names_distinct_witness :
  NoDup (kernel.name
           <$> (kernel.block_stencils
                  (kernel.update_block_datasets shifted_kernel empty_world
                     block0).1.1.2).*2).
Proof.
  destruct block_stencil_names_distinct as [Hempty Hstep].
  destruct (Hempty block0 eq_refl) as [Hnum Hnd].
  apply (Hstep shifted_kernel
           (kernel.update_block_datasets shifted_kernel empty_world block0).1.2
           empty_world
           (kernel.update_block_datasets shifted_kernel empty_world
              block0).1.1.1
           block0
           (kernel.update_block_datasets shifted_kernel empty_world
              block0).1.1.2
           (kernel.update_block_datasets shifted_kernel empty_world block0).2);
    [|done..].
  by destruct (kernel.update_block_datasets shifted_kernel empty_world
                 block0) as [[[? ?] ?] ?].
Defined.

(** The dictionary of [OPSC], one field further. *)
Lemma get_stencil_numbered (item : opsc.field * opsc.access)
    (self self' : opsc.OPSC) (st st' : gmap string string) (r : result unit) :
  opsc.get_stencil item (self, st) = (self', st', r) →
  dictionary_numbered self → NoDup (opsc.stencil_dictionary self).*1 →
  dictionary_numbered self' ∧ NoDup (opsc.stencil_dictionary self').*1.
Proof.
  intros H [Hn Hnum] Hnd.
  destruct (stencil_registry.get_stencil_step _ _ _ _ _ _ H)
    as (extra & Hd & Hn' & Hextra & _).
  assert (Hkeys : NoDup (opsc.stencil_dictionary self').*1).
  { unfold opsc.get_stencil in H. destruct item as [key value].
    destruct (opsc.is_grid key); [|by injection H as <- <- <-].
    destruct (opsc.relative_stencil value) as [sten|e];
      [|by injection H as <- <- <-].
    destruct (dict_get (opsc.stencil_dictionary self)
                (opsc.lsit_to_string sten)) as [n|] eqn:Hg.
    - rewrite Hg in H. by injection H as <- <- <-.
    - simpl in H. rewrite stencil_registry.dict_get_app, Hg in H. simpl in H.
      rewrite decide_True in H by done. injection H as <- <- <-. simpl.
      rewrite fmap_app. simpl. apply NoDup_app.
      split_and!; [done| |apply NoDup_singleton].
      intros x Hx ->%list_elem_of_singleton.
      by apply stencil_registry.dict_get_None in Hg. }
  split; [|done]. split.
  - rewrite Hn', Hd, Hn, length_app. lia.
  - intros i k n. rewrite Hd.
    destruct (decide (i < length (opsc.stencil_dictionary self))%nat)
      as [Hi|Hi].
    + rewrite lookup_app_l by done. apply Hnum.
    + rewrite lookup_app_r by lia. intros Hex.
      rewrite (Hextra _ _ _ Hex), Hn. do 2 f_equal. lia.
Qed.

Lemma get_stencils_loop_numbered (items : list (opsc.field * opsc.access))
    (self self' : opsc.OPSC) (st st' : gmap string string) (r : result unit) :
  opsc.get_stencils_loop items (self, st) = (self', st', r) →
  dictionary_numbered self → NoDup (opsc.stencil_dictionary self).*1 →
  dictionary_numbered self' ∧ NoDup (opsc.stencil_dictionary self').*1.
Proof.
  revert self st. induction items as [|item items IH];
    intros self st H Hnum Hnd; simpl in H.
  - by injection H as <- <- <-.
  - destruct (opsc.get_stencil item (self, st)) as [[s1 st1] r1] eqn:Hstep.
    destruct (get_stencil_numbered _ _ _ _ _ _ Hstep Hnum Hnd).
    destruct r1 as [[]|e].
    + by apply (IH _ _ H).
    + by injection H as <- <- <-.
Qed.

(** X14.  The stencil names of [OPSC] are distinct.  The registry starts
    numbered and without a key twice; [get_stencils] keeps it so, whether it
    returns or raises; and in such a registry no two keys have the same name:
    two fields get the same stencil name only if their footprints are written
    the same. *)
Theorem stencil_dictionary_names_distinct :
  (dictionary_numbered opsc.initialise_stencils
   ∧ NoDup (opsc.stencil_dictionary opsc.initialise_stencils).*1)
  ∧ ∀ self c self' r,
      opsc.get_stencils self c = (self', r) →
      dictionary_numbered self →
      NoDup (opsc.stencil_dictionary self).*1 →
      dictionary_numbered self'
      ∧ NoDup (opsc.stencil_dictionary self').*1
      ∧ NoDup (opsc.stencil_dictionary self').*2.
Proof.
  split.
  - split; [split; [done|]|constructor].
    intros i k n Hi. by destruct i.
  - intros self c self' r H Hnum Hnd.
    enough (dictionary_numbered self'
            ∧ NoDup (opsc.stencil_dictionary self').*1) as [Hnum' Hnd'].
    { split_and!; [done..|].
      apply (NoDup_numbered _ (fun i => "stencil" +:+ str_int (Z.of_nat i))).
      - apply opsc_stencil_name_inj.
      - intros i x. rewrite list_lookup_fmap.
        destruct (opsc.stencil_dictionary self' !! i) as [[k n]|] eqn:Hi;
          [|done].
        simpl. intros [= <-]. by apply (proj2 Hnum' i k n). }
    destruct (stencil_registry.get_stencils_inv _ _ _ _ H)
      as (st & r' & Hloop & _).
    by apply (get_stencils_loop_numbered _ _ _ _ _ _ Hloop).
Qed.

End generated_names.

(** ** Registration of the fields *)

Module registration.

#[local] Arguments kernel.register_dataset : simpl never.

Lemma register_dataset_grows (d : string) (w w' : kernel.World)
    (block block' : kernel.Block) (r : result unit) :
  kernel.register_dataset d (w, block) = (w', block', r) →
  (∃ new, kernel.datasetbases w' = kernel.datasetbases w ++ new)
  ∧ (NoDup (kernel.datasetbases w) → NoDup (kernel.datasetbases w'))
  ∧ (∀ k v, kernel.block_datasets block !! k = Some v →
            kernel.block_datasets block' !! k = Some v).
Proof.
  unfold kernel.register_dataset. intros H.
  assert (Hnd : NoDup (kernel.datasetbases w) → d ∉ kernel.datasetbases w →
                NoDup (kernel.datasetbases w ++ [d])).
  { intros Hnd Hd. apply NoDup_app. split_and!; [done| |apply NoDup_singleton].
    intros x Hx ->%list_elem_of_singleton. done. }
  repeat case_match; simplify_eq; simpl; split_and!;
    try (by exists []; rewrite app_nil_r);
    try (by exists [d]);
    try done;
    try (intros ?; apply Hnd; [done|];
         match goal with
         | H : bool_decide (_ ∈ _) = false |- _ =>
             by apply bool_decide_eq_false in H
         end);
    try (intros k v Hk; rewrite lookup_insert_ne; [done|congruence]).
Qed.

Lemma register_datasets_grow (dsets : list string) (w w' : kernel.World)
    (block block' : kernel.Block) (r : result unit) :
  kernel.register_datasets dsets (w, block) = (w', block', r) →
  (∃ new, kernel.datasetbases w' = kernel.datasetbases w ++ new)
  ∧ (NoDup (kernel.datasetbases w) → NoDup (kernel.datasetbases w'))
  ∧ (∀ k v, kernel.block_datasets block !! k = Some v →
            kernel.block_datasets block' !! k = Some v).
Proof.
  revert w block. induction dsets as [|d dsets IH]; intros w block H;
    simpl in H.
  - injection H as <- <- <-. split_and!; [|done..].
    exists []. by rewrite app_nil_r.
  - destruct (kernel.register_dataset d (w, block)) as [[w1 b1] r1] eqn:Hd.
    destruct (register_dataset_grows _ _ _ _ _ _ Hd) as ([n1 Hn1] & Hnd1 & Hb1).
    destruct r1 as [[]|e].
    + destruct (IH _ _ H) as ([n2 Hn2] & Hnd2 & Hb2). split_and!.
      * exists (n1 ++ n2). by rewrite Hn2, Hn1, app_assoc.
      * auto.
      * auto.
    + injection H as <- <- <-. split_and!; [by exists n1|done..].
Qed.

(** X15.  The field registries only grow.  Whether [update_block_datasets]
    returns or raises, [DataSetsToDeclare.datasetbases] keeps its entries in
    their order, with the new ones after them and no field twice if there was
    none twice before, and every entry of [block_datasets] is still there. *)
Theorem field_registries_grow (self : kernel.Kernel) (w : kernel.World)
    (block : kernel.Block) :
  let w' := (kernel.update_block_datasets self w block).1.1.1 in
  let block' := (kernel.update_block_datasets self w block).1.1.2 in
  (∃ new, kernel.datasetbases w' = kernel.datasetbases w ++ new)
  ∧ (NoDup (kernel.datasetbases w) → NoDup (kernel.datasetbases w'))
  ∧ (∀ k v, kernel.block_datasets block !! k = Some v →
            kernel.block_datasets block' !! k = Some v).
Proof.
  unfold kernel.update_block_datasets.
  destruct (kernel.register_datasets _ (w, block)) as [[w1 b1] r1] eqn:Hreg.
  destruct (register_datasets_grow _ _ _ _ _ _ Hreg) as (Hn & Hnd & Hb).
  destruct r1 as [[]|e]; simpl; [|done].
  destruct (kernel.update_stencils self b1) as [[b2 k2] r2] eqn:Hu. simpl.
  destruct (stencil_registry.update_stencils_inv _ _ _ _ _ Hu)
    as (_ & extra & -> & _).
  by split_and!.
Qed.

(** X16.  What a successful [update_block_datasets] leaves: every field of the
    kernel is in [DataSetsToDeclare.datasetbases] and in [block_datasets],
    with the number and the shape of the block. *)
Theorem update_block_datasets_registers (self self' : kernel.Kernel)
    (w w' : kernel.World) (block block' : kernel.Block) (f : string) :
  kernel.update_block_datasets self w block = (w', block', self', Ok ()) →
  f ∈ kernel.lhs_datasets self ∪ kernel.rhs_datasets self →
  f ∈ kernel.datasetbases w'
  ∧ ∃ dset a,
      kernel.block_datasets block' !! f = Some dset
      ∧ kernel.objects w' !! dset = Some a
      ∧ kernel.block_number a = Some (kernel.blocknumber block)
      ∧ kernel.size a = Some (kernel.shape block).
Proof.
  intros H Hf.
  destruct (stencil_registry.update_block_datasets_inv _ _ _ _ _ _ H)
    as (b1 & Hreg & Hu).
  destruct (stencil_registry.register_datasets_settles _ _ _ _ _ Hreg)
    as [Hall _].
  destruct (stencil_registry.update_stencils_inv _ _ _ _ _ Hu)
    as (_ & extra & -> & _).
  destruct (stencil_registry.register_datasets_same_block _ _ _ _ _ _ Hreg)
    as [Hbn _].
  rewrite Forall_forall in Hall.
  destruct (Hall f) as (Hin & dset & a & Hd & Ho & Hnum & Hsize);
    [by apply elem_of_elements|].
  split; [done|]. exists dset, a. simpl. split_and!; [done..| |].
  - by rewrite Hnum, Hbn.
  - rewrite Hsize. f_equal.
    clear -Hreg. revert w block Hreg.
    induction (elements _) as [|d dsets IH]; intros w block Hreg;
      simpl in Hreg.
    + by injection Hreg as <- <-.
    + destruct (kernel.register_dataset d (w, block)) as [[w1 b2] r1] eqn:Hd.
      destruct (field_registry.register_dataset_same_block _ _ _ _ _ _ Hd)
        as [(_ & _ & _ & Hs & _) _].
      destruct r1 as [[]|e]; [|done].
      rewrite (IH _ _ Hreg). done.
Qed.

Lemma update_block_datasets_registers_witness :
  "f" ∈ kernel.datasetbases world1
  ∧ ∃ dset a,
      kernel.block_datasets block1 !! "f" = Some dset
      ∧ kernel.objects world1 !! dset = Some a
      ∧ kernel.block_number a = Some (kernel.blocknumber block0)
      ∧ kernel.size a = Some (kernel.shape block0).
Proof.
  apply (update_block_datasets_registers f_kernel
           (kernel.update_block_datasets f_kernel empty_world block0).1.2
           empty_world world1 block0 block1 "f"); reflexivity.
Defined.

End registration.

(** ** The helper functions *)

Module helpers.

Lemma dot_loop (l1 l2 : list Z) (k i : nat) (acc : Z) :
  (i + k)%nat = length l1 → length l1 = length l2 →
  foldl (fun out i =>
           out ← out; a ← getitem l1 i; b ← getitem l2 i; Ok (out + a * b))
        (Ok acc) (seq i k)
  = Ok (acc + scalar_product (drop i l1) (drop i l2)).
Proof.
  set (step := fun (out : result Z) (i : nat) =>
                 out ← out; a ← getitem l1 i; b ← getitem l2 i;
                 Ok (out + a * b)).
  revert i acc. induction k as [|k IH]; intros i acc Hik Hlen;
    cbn [seq foldl].
  - rewrite !drop_ge by lia. unfold scalar_product. simpl. f_equal. lia.
  - destruct (lookup_lt_is_Some_2 l1 i) as [a Ha]; [lia|].
    destruct (lookup_lt_is_Some_2 l2 i) as [b Hb]; [lia|].
    assert (Hstep : step (Ok acc) i = Ok (acc + a * b)).
    { unfold step, getitem. simpl. rewrite Ha. simpl. by rewrite Hb. }
    rewrite Hstep, IH by lia.
    rewrite (drop_S l1 a i Ha), (drop_S l2 b i Hb).
    unfold scalar_product. simpl. f_equal. lia.
Qed.

Lemma scalar_product_comm (l1 l2 : list Z) :
  scalar_product l1 l2 = scalar_product l2 l1.
Proof.
  unfold scalar_product. revert l2.
  induction l1 as [|a l1 IH]; intros [|b l2]; simpl; [done..|].
  rewrite IH. lia.
Qed.

(** X17.  [dot] on two lists is the scalar product when the lists have the
    same length, and raises the value error when they do not; the order of the
    two lists does not matter. *)
Theorem dot_lists (l1 l2 : list Z) :
  (length l1 = length l2 →
   dot (Vec l1) (Vec l2) = Ok (Num (scalar_product l1 l2)))
  ∧ (length l1 ≠ length l2 →
     dot (Vec l1) (Vec l2) = Raise (ValueError ""))
  ∧ dot (Vec l1) (Vec l2) = dot (Vec l2) (Vec l1).
Proof.
  assert (H : ∀ a b, length a = length b →
                     dot (Vec a) (Vec b) = Ok (Num (scalar_product a b))).
  { intros a b Hl. unfold dot. rewrite bool_decide_eq_true_2 by done.
    rewrite (dot_loop a b (length a) 0 0) by done. simpl. by rewrite !drop_0. }
  split_and!; [apply H| |].
  - intros Hne. unfold dot. by rewrite bool_decide_eq_false_2.
  - destruct (decide (length l1 = length l2)) as [Hl|Hl].
    + by rewrite (H l1 l2), (H l2 l1), scalar_product_comm.
    + unfold dot. by rewrite !bool_decide_eq_false_2.
Qed.

Section sorting.
Context {A : Type} (coordinates : A -> nat).

Lemma cmp_le (a b : nat) : Z.leb (cmp a b) 0 = true ↔ (a <= b)%nat.
Proof.
  unfold cmp. destruct (Nat.ltb_spec a b), (Nat.ltb_spec b a); simpl;
    split; try done; lia.
Qed.

(** X18.  [sort_funcitons] and its flag.  With the flag [True], which is the
    default, the list comes back as it is when it has fewer than two
    functions, and a type error is raised when it has two or more: nothing is
    ever sorted in increasing order that way.  With the flag [False] the
    result is the list in decreasing order of the numbers of coordinates, with
    the same functions.  Only with the comparison function itself for the flag
    is the result in increasing order. *)
Theorem sort_funcitons_flag (fns : list A) :
  ((2 <= length fns)%nat →
   sort_funcitons coordinates fns PyTrue = Raise TypeError)
  ∧ ((length fns < 2)%nat → sort_funcitons coordinates fns PyTrue = Ok fns)
  ∧ (∃ l, sort_funcitons coordinates fns PyFalse = Ok l
          ∧ l ≡ₚ fns
          ∧ StronglySorted
              (fun a b => (coordinates b <= coordinates a)%nat) l)
  ∧ (∃ l, sort_funcitons coordinates fns increasing = Ok l
          ∧ l ≡ₚ fns
          ∧ StronglySorted
              (fun a b => (coordinates a <= coordinates b)%nat) l).
Proof.
  split_and!.
  - intros Hl. simpl. destruct (Nat.ltb_spec (length fns) 2); [lia|done].
  - intros Hl. simpl. destruct (Nat.ltb_spec (length fns) 2); [done|lia].
  - eexists. split; [reflexivity|]. unfold sorted_cmp. split.
    + apply sorting_facts.sorted_Permutation.
    + apply (sorting_facts.StronglySorted_weaken
               (fun a b => Z.leb (decreasing_order coordinates a b) 0 = true)).
      * intros a b _ _. unfold decreasing_order. by rewrite cmp_le.
      * apply (sorting_facts.sorted_StronglySorted (fun x : A => x));
          intros; unfold decreasing_order in *; rewrite ?cmp_le in *; lia.
  - eexists. split; [reflexivity|]. unfold sorted_cmp. split.
    + apply sorting_facts.sorted_Permutation.
    + apply (sorting_facts.StronglySorted_weaken
               (fun a b => Z.leb (increasing_order coordinates a b) 0 = true)).
      * intros a b _ _. unfold increasing_order. by rewrite cmp_le.
      * apply (sorting_facts.sorted_StronglySorted (fun x : A => x));
          intros; unfold increasing_order in *; rewrite ?cmp_le in *; lia.
Qed.

End sorting.

End helpers.

(** ** The emitter *)

Module emitter.

(** X19.  [check_consistency] compares lengths only.  It returns the six
    inputs, each as a list, exactly when the other five have as many entries
    as the grid, an object that is not a list counting for one; otherwise it
    raises an [AlgorithmError].  A single grid with single objects for the
    rest is always consistent. *)
Theorem check_consistency_lengths {G S T B I O : Type}
    (grid : G + list G) (spatial : S + list S) (temporal : T + list T)
    (boundary : B + list B) (initial : I + list I) (IO : O + list O) :
  let n := length (opsc.listvar grid) in
  let out := opsc.check_consistency grid spatial temporal boundary initial IO in
  (length (opsc.listvar spatial) = n
   ∧ length (opsc.listvar temporal) = n
   ∧ length (opsc.listvar boundary) = n
   ∧ length (opsc.listvar initial) = n
   ∧ length (opsc.listvar IO) = n
   ↔ out = inr (opsc.listvar grid, opsc.listvar spatial,
                opsc.listvar temporal, opsc.listvar boundary,
                opsc.listvar initial, opsc.listvar IO))
  ∧ ((∃ msg, out = inl (opsc.AlgorithmError msg))
     ∨ out = inr (opsc.listvar grid, opsc.listvar spatial,
                  opsc.listvar temporal, opsc.listvar boundary,
                  opsc.listvar initial, opsc.listvar IO))
  ∧ ∀ (g : G) (s : S) (t : T) (b : B) (i : I) (o : O),
      opsc.check_consistency (inl g) (inl s) (inl t) (inl b) (inl i) (inl o)
      = inr ([g], [s], [t], [b], [i], [o]).
Proof.
  unfold opsc.check_consistency. cbv zeta.
  split_and!; [| |done].
  - repeat case_bool_decide; split; try done; try (intros (?&?&?&?&?); done).
  - repeat case_bool_decide; eauto.
Qed.

Lemma omap_lookup_seq {A B} (f : A -> B) (l : list A) :
  omap (fun i => g ← l !! i; Some (f g)) (seq 0 (length l)) = f <$> l.
Proof.
  induction l as [|x l IH] using rev_ind; [done|].
  rewrite length_app, Nat.add_1_r, seq_S, omap_app, fmap_app. simpl.
  rewrite lookup_app_r, Nat.sub_diag by done. simpl. f_equal.
  rewrite <- IH. apply list_omap_ext, Forall2_same_length_lookup.
  split; [done|]. intros i a b Ha Hb.
  assert (a = b) as -> by congruence.
  apply lookup_seq in Hb as [-> Hb].
  by rewrite lookup_app_l by lia.
Qed.

(** X20.  The blocks must agree on their number of dimensions.  With at least
    one block and the same number [d] of entries in every shape,
    [initialise_ops_parameters] goes on with [ndim = d], with as many blocks
    as there are grids and [multiblock] set unless there is exactly one; with
    no block at all, or two shapes of different lengths, it raises the value
    error of the mismatch. *)
Theorem initialise_ops_parameters_ndim (grid : list opsc.Grid) :
  (∀ d, grid ≠ [] →
        Forall (fun g => length (opsc.shape g) = d) grid →
        opsc.initialise_ops_parameters_blocks grid
        = Ok (bool_decide (length grid ≠ 1%nat), length grid, d))
  ∧ (grid = []
     ∨ (∃ g1 g2, g1 ∈ grid ∧ g2 ∈ grid
                 ∧ length (opsc.shape g1) ≠ length (opsc.shape g2)) →
     opsc.initialise_ops_parameters_blocks grid
     = Raise (ValueError "Mismatch in the grid shape of the blocks.")).
Proof.
  unfold opsc.initialise_ops_parameters_blocks.
  assert (Hn : (if bool_decide (length grid = 1%nat) then (false, 1%nat)
                else (true, length grid))
               = (bool_decide (length grid ≠ 1%nat), length grid)).
  { case_bool_decide as H1.
    - rewrite bool_decide_eq_false_2 by (by intros ?). by rewrite H1.
    - by rewrite bool_decide_eq_true_2. }
  rewrite Hn, omap_lookup_seq. clear Hn. split.
  - intros d Hne Hall.
    assert (Hset : (list_to_set ((fun g => length (opsc.shape g)) <$> grid)
                    : gset nat) = {[ d ]}).
    { apply set_eq. intros x.
      rewrite elem_of_list_to_set, list_elem_of_fmap, elem_of_singleton.
      rewrite Forall_forall in Hall. split.
      - intros (g & -> & Hg). by apply Hall.
      - intros ->. destruct grid as [|g grid]; [done|].
        exists g. split; [symmetry; apply Hall|]; apply list_elem_of_here. }
    rewrite Hset, elements_singleton. simpl. done.
  - intros Hbad.
    rewrite bool_decide_eq_true_2; [done|].
    destruct Hbad as [->|(g1 & g2 & H1 & H2 & Hne)]; [done|].
    set (X := list_to_set ((fun g => length (opsc.shape g)) <$> grid)
              : gset nat).
    assert (Hx1 : length (opsc.shape g1) ∈ X)
      by (apply elem_of_list_to_set, list_elem_of_fmap; eauto).
    assert (Hx2 : length (opsc.shape g2) ∈ X)
      by (apply elem_of_list_to_set, list_elem_of_fmap; eauto).
    intros Hlen. apply elem_of_elements in Hx1, Hx2.
    destruct (elements X) as [|a [|b l]]; [done| |done].
    apply list_elem_of_singleton in Hx1, Hx2. congruence.
Qed.

Lemma initialise_ops_parameters_ndim_witness :
  opsc.initialise_ops_parameters_blocks
    [{| opsc.shape := [200; 100] |}; {| opsc.shape := [50; 50] |}]
  = Ok (true, 2%nat, 2%nat).
Proof.
  apply (initialise_ops_parameters_ndim
           [{| opsc.shape := [200; 100] |}; {| opsc.shape := [50; 50] |}]).
  - done.
  - by repeat constructor.
Defined.

(** *** The access tags *)

Lemma foldl_insert_lookup {K V} `{Countable K} (L : list (K * V))
    (m : gmap K V) (k : K) (v : V) :
  NoDup L.*1 → (k, v) ∈ L →
  foldl (fun (m : gmap K V) (kv : K * V) => <[kv.1 := kv.2]> m) m L !! k
  = Some v.
Proof.
  revert m. induction L as [|[k' v'] L IH]; intros m Hnd Hin;
    [by apply elem_of_nil in Hin|].
  rewrite fmap_cons in Hnd. apply NoDup_cons in Hnd as [Hfresh Hnd].
  apply elem_of_cons in Hin as [[= -> ->]|Hin]; simpl.
  - clear IH Hnd. revert m.
    induction L as [|[k2 v2] L IH]; intros m; simpl.
    + apply lookup_insert_eq.
    + rewrite fmap_cons, not_elem_of_cons in Hfresh.
      destruct Hfresh as [Hne Hfresh]. simpl in Hne.
      rewrite insert_insert_ne by done. by apply IH.
  - by apply IH.
Qed.

Lemma foldl_insert_lookup_other {K V} `{Countable K} (L : list (K * V))
    (m : gmap K V) (k : K) :
  k ∉ L.*1 →
  foldl (fun (m : gmap K V) (kv : K * V) => <[kv.1 := kv.2]> m) m L !! k
  = m !! k.
Proof.
  revert m. induction L as [|[k' v'] L IH]; intros m Hk; [done|].
  rewrite fmap_cons, not_elem_of_cons in Hk. destruct Hk as [Hne Hk].
  simpl. rewrite IH by done. by rewrite lookup_insert_ne.
Qed.

Lemma foldl_insert_fmap {A K V} `{Countable K} (g : A -> K * V)
    (l : list A) (m : gmap K V) :
  foldl (fun (m : gmap K V) (a : A) => <[(g a).1 := (g a).2]> m) m l
  = foldl (fun (m : gmap K V) (kv : K * V) => <[kv.1 := kv.2]> m) m (g <$> l).
Proof. revert m. induction l as [|a l IH]; intros m; simpl; [done|]. apply IH. Qed.

Lemma get_OPS_ACC_number_unfold (c : opsc.Computation) :
  opsc.get_OPS_ACC_number c
  = foldl (fun (m : gmap index (option string)) (kv : index * option string) =>
             <[kv.1 := kv.2]> m)
      (foldl (fun (m : gmap index (option string))
                  (kv : index * option string) => <[kv.1 := kv.2]> m)
         ∅ ((fun item : nat * opsc.field =>
               (Symbol (opsc.label item.2),
                Some ("OPS_ACC" +:+ str_nat item.1)))
              <$> imap pair (grid_fields c)))
      ((fun inp : string => (Symbol inp, None))
         <$> elements
               ((list_to_set (opsc.label <$> (items_of c).*1) : gset string)
                ∖ list_to_set (opsc.label <$> grid_fields c))).
Proof.
  unfold opsc.get_OPS_ACC_number, grid_fields, items_of.
  rewrite !fmap_app, <- !foldl_insert_fmap. done.
Qed.

Lemma Symbol_inj (a b : string) : Symbol a = Symbol b → a = b.
Proof. by intros [= ->]. Qed.

Lemma grid_keys_NoDup (G : list opsc.field) :
  NoDup (opsc.label <$> G) →
  NoDup ((fun item : nat * opsc.field =>
            (Symbol (opsc.label item.2),
             Some ("OPS_ACC" +:+ str_nat item.1)))
           <$> imap pair G).*1.
Proof.
  intros Hnd.
  assert (Heq : ((fun item : nat * opsc.field =>
                    (Symbol (opsc.label item.2),
                     Some ("OPS_ACC" +:+ str_nat item.1)))
                   <$> imap pair G).*1
                = Symbol <$> (opsc.label <$> G)).
  { apply list_eq. intros i.
    rewrite !list_lookup_fmap, list_lookup_imap.
    by destruct (G !! i). }
  rewrite Heq. apply NoDup_fmap_2; [|done]. intros a b. apply Symbol_inj.
Qed.

Lemma get_OPS_ACC_number_grid (c : opsc.Computation) (i : nat)
    (f : opsc.field) :
  NoDup (opsc.label <$> grid_fields c) →
  grid_fields c !! i = Some f →
  opsc.get_OPS_ACC_number c !! Symbol (opsc.label f)
  = Some (Some ("OPS_ACC" +:+ str_nat i)).
Proof.
  intros Hnd Hi. rewrite get_OPS_ACC_number_unfold.
  rewrite foldl_insert_lookup_other.
  - apply foldl_insert_lookup; [by apply grid_keys_NoDup|].
    apply list_elem_of_fmap. exists (i, f). split; [done|].
    apply list_elem_of_lookup. exists i.
    by rewrite list_lookup_imap, Hi.
  - rewrite <- list_fmap_compose. intros Hin.
    apply list_elem_of_fmap in Hin as (l & Hl & Hin). simpl in Hl.
    apply Symbol_inj in Hl as <-.
    apply elem_of_elements, elem_of_difference in Hin as [_ Hin].
    apply Hin, elem_of_list_to_set, list_elem_of_fmap.
    exists f. split; [done|]. by apply list_elem_of_lookup_2 in Hi.
Qed.

Lemma get_OPS_ACC_number_nongrid (c : opsc.Computation) (f : opsc.field) :
  f ∈ (items_of c).*1 →
  opsc.label f ∉ opsc.label <$> grid_fields c →
  opsc.get_OPS_ACC_number c !! Symbol (opsc.label f) = Some None.
Proof.
  intros Hf Hng. rewrite get_OPS_ACC_number_unfold.
  apply foldl_insert_lookup.
  - rewrite <- list_fmap_compose. apply NoDup_fmap_2.
    + intros a b. simpl. apply Symbol_inj.
    + apply NoDup_elements.
  - apply list_elem_of_fmap. exists (opsc.label f). split; [done|].
    apply elem_of_elements, elem_of_difference. split.
    + apply elem_of_list_to_set, list_elem_of_fmap. eauto.
    + by rewrite elem_of_list_to_set.
Qed.

Lemma get_OPS_ACC_number_missing (c : opsc.Computation) (b : index) :
  (∀ f, f ∈ (items_of c).*1 → b ≠ Symbol (opsc.label f)) →
  opsc.get_OPS_ACC_number c !! b = None.
Proof.
  intros Hb. rewrite get_OPS_ACC_number_unfold.
  rewrite !foldl_insert_lookup_other; [done|..].
  - rewrite <- list_fmap_compose. intros Hin.
    apply list_elem_of_fmap in Hin as ([i f] & -> & Hin). simpl in Hb.
    apply list_elem_of_lookup in Hin as [j Hj].
    rewrite list_lookup_imap in Hj.
    destruct (grid_fields c !! j) as [g|] eqn:Hg; [|done].
    injection Hj as <- <-.
    apply list_elem_of_lookup_2, list_elem_of_filter in Hg as [_ Hg].
    by apply (Hb g).
  - rewrite <- list_fmap_compose. intros Hin.
    apply list_elem_of_fmap in Hin as (l & -> & Hin). simpl in Hb.
    apply elem_of_elements, elem_of_difference in Hin as [Hin _].
    apply elem_of_list_to_set, list_elem_of_fmap in Hin as (f & -> & Hf).
    by apply (Hb f).
Qed.

(** X21.  The access tags follow the order of the fields.  When no two
    grid-based fields of a computation have the same label, the grid-based
    field at position [i], counted over the inputs, then the outputs, then the
    input-outputs, has the tag [OPS_ACCi]; two of them never share a tag; a
    field of the computation that is not grid based has [None] for its tag;
    and nothing else is in the dictionary. *)
Theorem ops_acc_numbering (c : opsc.Computation) :
  NoDup (opsc.label <$> grid_fields c) →
  (∀ i f, grid_fields c !! i = Some f →
          opsc.get_OPS_ACC_number c !! Symbol (opsc.label f)
          = Some (Some ("OPS_ACC" +:+ str_nat i)))
  ∧ (∀ i j f g t,
       grid_fields c !! i = Some f → grid_fields c !! j = Some g →
       opsc.get_OPS_ACC_number c !! Symbol (opsc.label f) = Some t →
       opsc.get_OPS_ACC_number c !! Symbol (opsc.label g) = Some t →
       i = j)
  ∧ (∀ f, f ∈ (items_of c).*1 →
          opsc.label f ∉ opsc.label <$> grid_fields c →
          opsc.get_OPS_ACC_number c !! Symbol (opsc.label f) = Some None)
  ∧ (∀ b, (∀ f, f ∈ (items_of c).*1 → b ≠ Symbol (opsc.label f)) →
          opsc.get_OPS_ACC_number c !! b = None).
Proof.
  intros Hnd. split_and!.
  - intros i f. by apply get_OPS_ACC_number_grid.
  - intros i j f g t Hi Hj Hf Hg.
    rewrite (get_OPS_ACC_number_grid c i f Hnd Hi) in Hf.
    rewrite (get_OPS_ACC_number_grid c j g Hnd Hj) in Hg.
    assert (Heq : "OPS_ACC" +:+ str_nat i = "OPS_ACC" +:+ str_nat j)
      by congruence.
    apply names.append_inj_l, names.str_int_inj in Heq. lia.
  - apply get_OPS_ACC_number_nongrid.
  - apply get_OPS_ACC_number_missing.
Qed.

Lemma ops_acc_numbering_witness :
  opsc.get_OPS_ACC_number uv_computation !! Symbol "v"
  = Some (Some "OPS_ACC1").
Proof.
  destruct (ops_acc_numbering uv_computation) as (H & _).
  - apply (bool_decide_unpack _). reflexivity.
  - exact (H 1%nat {| opsc.label := "v"; opsc.is_grid := true |} eq_refl).
Defined.

Lemma zeroed_base (symbols : list string) (e : opsc.Indexed) (b : string) :
  opsc.base e = Symbol b → b ∉ symbols →
  opsc.base (foldl (fun e x => opsc.Indexed_subs x e) e symbols) = Symbol b.
Proof.
  revert e. induction symbols as [|x symbols IH]; intros e He Hb; [done|].
  apply not_elem_of_cons in Hb as [Hne Hb]. simpl. apply IH; [|done].
  simpl. rewrite He. simpl. by rewrite decide_False.
Qed.

(** X22.  The fields of a computation print with their tags.  With the
    dictionary of [get_OPS_ACC_number] for [Indexed_accs], an access to a
    field of the computation never fails to be printed: the grid-based field
    at position [i] comes out in the tagged form with [OPS_ACCi], a field that
    is not grid based in the untagged form; an access to a field that is not
    of the computation raises a key error.  (The label of the field is not one
    of the symbols of the indices.) *)
Theorem fields_print_with_tags (P : opsc.CCodePrinter) (c : opsc.Computation)
    (f : opsc.field) (idx : list index) :
  NoDup (opsc.label <$> grid_fields c) →
  (∀ i, i ∈ idx → opsc.label f ∉ atoms_Symbol i) →
  let e := {| opsc.base := Symbol (opsc.label f); opsc.indices := idx |} in
  let accs := Some (opsc.get_OPS_ACC_number c) in
  (∀ i, grid_fields c !! i = Some f →
        opsc._print_Indexed P accs e
        = Ok (opsc.tagged_form P (Some ("OPS_ACC" +:+ str_nat i)) (zeroed e)))
  ∧ (f ∈ (items_of c).*1 →
     opsc.label f ∉ opsc.label <$> grid_fields c →
     opsc._print_Indexed P accs e = Ok (opsc.untagged_form P (zeroed e)))
  ∧ ((∀ g, g ∈ (items_of c).*1 → opsc.label g ≠ opsc.label f) →
     opsc._print_Indexed P accs e = Raise KeyError).
Proof.
  intros Hnd Hidx e accs.
  assert (Hbase : opsc.base (zeroed e) = Symbol (opsc.label f)).
  { unfold zeroed. apply zeroed_base; [done|]. simpl.
    intros Hin. apply list_elem_of_In, in_flat_map in Hin as (i & Hi & Hin).
    apply list_elem_of_In in Hi, Hin. apply elem_of_elements in Hin.
    by apply (Hidx i). }
  unfold opsc._print_Indexed. fold (zeroed e). rewrite Hbase.
  unfold accs, opsc.accs_getitem. split_and!.
  - intros i Hi. by rewrite (get_OPS_ACC_number_grid c i f Hnd Hi).
  - intros Hf Hng. by rewrite (get_OPS_ACC_number_nongrid c f Hf Hng).
  - intros Hno. rewrite get_OPS_ACC_number_missing; [done|].
    intros g Hg Heq. apply Symbol_inj in Heq. by apply (Hno g).
Qed.

Lemma fields_print_with_tags_witness :
  opsc._print_Indexed plain_printer
    (Some (opsc.get_OPS_ACC_number uv_computation))
    {| opsc.base := Symbol "v"; opsc.indices := [x0_plus_1] |}
  = Ok "v[OPS_ACC1(1)]".
Proof.
  destruct (fields_print_with_tags plain_printer uv_computation
              {| opsc.label := "v"; opsc.is_grid := true |} [x0_plus_1])
    as (H & _).
  - apply (bool_decide_unpack _). reflexivity.
  - intros i ->%list_elem_of_singleton. apply (bool_decide_unpack _).
    reflexivity.
  - exact (H 1%nat eq_refl).
Defined.

(** *** The stencil names of a computation *)

Lemma names_in_is_Some (D : list (string * string))
    (items : list (opsc.field * opsc.access)) (st : gmap string string)
    (l : string) :
  all_registered D items →
  (is_Some (names_in D items st !! l)
   ↔ is_Some (st !! l)
     ∨ ∃ f v, (f, v) ∈ items ∧ opsc.is_grid f = true ∧ opsc.label f = l)
  ∧ ∀ n, names_in D items st !! l = Some n →
         st !! l = Some n ∨ n ∈ D.*2.
Proof.
  revert st. induction items as [|[f v] items IH]; intros st Hall.
  - split; [|by left]. split; [by left|].
    intros [?|(f & v & Hin & _)]; [done|]. by apply elem_of_nil in Hin.
  - apply Forall_cons in Hall as [Hitem Hall].
    rewrite stencil_registry.names_in_cons.
    assert (Hone : names_in D [(f, v)] st
                   = if opsc.is_grid f then
                       match opsc.relative_stencil v with
                       | Ok sten =>
                           match dict_get D (opsc.lsit_to_string sten) with
                           | Some n => <[opsc.label f := n]> st
                           | None => st
                           end
                       | Raise _ => st
                       end
                     else st) by reflexivity.
    rewrite Hone. clear Hone. simpl in Hitem.
    destruct (opsc.is_grid f) eqn:Hg.
    + destruct (Hitem eq_refl) as (sten & n & Hs & Hn). rewrite Hs, Hn.
      destruct (IH (<[opsc.label f := n]> st) Hall) as [IH1 IH2]. split.
      * rewrite IH1. split.
        -- intros [Hst|(f' & v' & Hin & Hg' & Hl)].
           ++ destruct (decide (opsc.label f = l)) as [<-|Hne].
              ** right. exists f, v. split; [apply list_elem_of_here|done].
              ** left. by rewrite lookup_insert_ne in Hst.
           ++ right. exists f', v'. split; [by apply list_elem_of_further|done].
        -- intros [Hst|(f' & v' & Hin & Hg' & Hl)].
           ++ left. destruct (decide (opsc.label f = l)) as [<-|Hne].
              ** rewrite lookup_insert_eq. eauto.
              ** by rewrite lookup_insert_ne.
           ++ apply elem_of_cons in Hin as [[= <- <-]|Hin].
              ** left. subst l. rewrite lookup_insert_eq. eauto.
              ** right. eauto.
      * intros m Hm. apply IH2 in Hm as [Hm|Hm]; [|by right].
        destruct (decide (opsc.label f = l)) as [<-|Hne].
        -- rewrite lookup_insert_eq in Hm. injection Hm as <-. right.
           apply list_elem_of_fmap. exists (opsc.lsit_to_string sten, n).
           split; [done|].
           clear -Hn. induction D as [|[k' v'] D IHD]; [done|].
           simpl in Hn. case_decide as Hk.
           ++ injection Hn as ->. subst k'. apply list_elem_of_here.
           ++ apply list_elem_of_further. by apply IHD.
        -- rewrite lookup_insert_ne in Hm by done. by left.
    + destruct (IH st Hall) as [IH1 IH2]. split.
      * rewrite IH1. split.
        -- intros [Hst|(f' & v' & Hin & Hg' & Hl)]; [by left|].
           right. exists f', v'. split; [by apply list_elem_of_further|done].
        -- intros [Hst|(f' & v' & Hin & Hg' & Hl)]; [by left|].
           apply elem_of_cons in Hin as [[= <- <-]|Hin]; [congruence|].
           right. eauto.
      * apply IH2.
Qed.

Lemma get_stencils_dom (self self' : opsc.OPSC) (c : opsc.Computation)
    (s : gmap string string) :
  opsc.get_stencils self c = (self', Ok s) →
  (∀ l, is_Some (s !! l) ↔ ∃ f, f ∈ grid_fields c ∧ opsc.label f = l)
  ∧ (∀ l n, s !! l = Some n → n ∈ (opsc.stencil_dictionary self').*2).
Proof.
  intros H.
  destruct (stencil_registry.get_stencils_inv _ _ _ _ H)
    as (st & r' & Hloop & Hr).
  destruct (proj1 (Hr s) eq_refl) as [-> ->].
  destruct (stencil_registry.get_stencils_loop_registry _ _ _ _ _ _ Hloop)
    as (extra & _ & _ & _ & Hok).
  destruct (Hok eq_refl) as (_ & -> & Hall).
  split.
  - intros l.
    destruct (names_in_is_Some _ _ ∅ l Hall) as [-> _].
    rewrite lookup_empty. split.
    + intros [[? ?]|(f & v & Hin & Hg & Hl)]; [done|].
      exists f. split; [|done]. apply list_elem_of_filter. split; [done|].
      apply list_elem_of_fmap. by exists (f, v).
    + intros (f & Hf & Hl). right.
      apply list_elem_of_filter in Hf as [Hg Hf].
      apply list_elem_of_fmap in Hf as ([f' v] & -> & Hin). eauto.
  - intros l n Hn.
    destruct (names_in_is_Some _ _ ∅ l Hall) as [_ Hd].
    destruct (Hd n Hn) as [He|?]; [|done]. by rewrite lookup_empty in He.
Qed.

(** X23.  [get_stencils] has a name for every grid-based field: what it
    returns has an entry for exactly the labels of the grid-based fields of
    the computation, so that [kernel_call] finds [stencils[inp]] for each of
    them, and every name in it is a name of the dictionary, of which
    [declare_stencils] declares each. *)
Theorem get_stencils_names (self self' : opsc.OPSC) (c : opsc.Computation)
    (s : gmap string string) :
  opsc.get_stencils self c = (self', Ok s) →
  (∀ l, is_Some (s !! l) ↔ ∃ f, f ∈ grid_fields c ∧ opsc.label f = l)
  ∧ (∀ l n, s !! l = Some n → n ∈ (opsc.stencil_dictionary self').*2).
Proof. apply get_stencils_dom. Qed.

Lemma get_stencils_names_witness :
  (is_Some (uv_stencils !! "u")
   ↔ ∃ f, f ∈ grid_fields uv_computation ∧ opsc.label f = "u")
  ∧ "stencil0" ∈ (opsc.stencil_dictionary uv_registry).*2.
Proof.
  destruct (get_stencils_names opsc.initialise_stencils uv_registry
              uv_computation uv_stencils) as [Hdom Hnames]; [reflexivity|].
  split; [exact (Hdom "u")|].
  apply (Hnames "u"). reflexivity.
Defined.

Lemma grid_fields_app (c : opsc.Computation) :
  grid_fields c
  = filter (fun f => opsc.is_grid f = true) (opsc.inputs c).*1
    ++ filter (fun f => opsc.is_grid f = true) (opsc.outputs c).*1
    ++ filter (fun f => opsc.is_grid f = true) (opsc.inputoutput c).*1.
Proof.
  unfold grid_fields, items_of. by rewrite !fmap_app, !filter_app.
Qed.

Lemma lookup_app3 {A B C} (g1 g2 g3 : A -> B) (h1 h2 h3 : A -> C)
    (F1 F2 F3 : list A) (i : nat) (f : A) :
  (F1 ++ F2 ++ F3) !! i = Some f →
  ∃ g h, ((g1 <$> F1) ++ (g2 <$> F2) ++ (g3 <$> F3)) !! i = Some (g f)
         ∧ ((h1 <$> F1) ++ (h2 <$> F2) ++ (h3 <$> F3)) !! i = Some (h f)
         ∧ ((g = g1 ∧ h = h1) ∨ (g = g2 ∧ h = h2) ∨ (g = g3 ∧ h = h3)).
Proof.
  set (T := ((fun x => (g1, h1, x)) <$> F1) ++ ((fun x => (g2, h2, x)) <$> F2)
            ++ ((fun x => (g3, h3, x)) <$> F3)).
  assert (HF : F1 ++ F2 ++ F3 = (fun t : (A → B) * (A → C) * A => t.2) <$> T).
  { unfold T. rewrite !fmap_app, <- !list_fmap_compose.
    by rewrite !list_fmap_id. }
  assert (HG : (g1 <$> F1) ++ (g2 <$> F2) ++ (g3 <$> F3)
               = (fun t : (A → B) * (A → C) * A => t.1.1 t.2) <$> T).
  { unfold T. by rewrite !fmap_app, <- !list_fmap_compose. }
  assert (HH : (h1 <$> F1) ++ (h2 <$> F2) ++ (h3 <$> F3)
               = (fun t : (A → B) * (A → C) * A => t.1.2 t.2) <$> T).
  { unfold T. by rewrite !fmap_app, <- !list_fmap_compose. }
  rewrite HF, HG, HH, !list_lookup_fmap.
  destruct (T !! i) as [[[g h] x]|] eqn:Hi; [|done]. simpl.
  intros [= ->]. exists g, h. split_and!; [done..|].
  apply list_elem_of_lookup_2 in Hi. unfold T in Hi.
  rewrite !elem_of_app, !list_elem_of_fmap in Hi.
  destruct Hi as [(? & [= -> -> ->] & _)|[(? & [= -> -> ->] & _)
                                          |(? & [= -> -> ->] & _)]]; auto.
Qed.

(** X24.  The call and the kernel agree on the order of the fields.  After
    [get_stencils] has returned, the arguments that [kernel_call] builds for
    the grid-based fields are all found; there is one for each grid-based
    field, as there is one parameter in the header that [kernel_computation]
    writes; and at every position the argument and the parameter are those of
    the same field, with the stencil name that [get_stencils] gave it: read
    only and [const] for an input, written and not [const] for an output or an
    input-output. *)
Theorem call_matches_header (self self' : opsc.OPSC) (c : opsc.Computation)
    (stencils : gmap string string) (dtype : string) :
  opsc.get_stencils self c = (self', Ok stencils) →
  ∃ args,
    opsc.kernel_call_grid_based dtype stencils c = Ok args
    ∧ length args = length (grid_fields c)
    ∧ length (opsc.kernel_computation_grid_based dtype c)
      = length (grid_fields c)
    ∧ ∀ i f, grid_fields c !! i = Some f →
        ∃ s access qualifier,
          stencils !! opsc.label f = Some s
          ∧ args !! i
            = Some (opsc.ops_argument_call dtype (opsc.label f) s dtype access)
          ∧ opsc.kernel_computation_grid_based dtype c !! i
            = Some (qualifier +:+ dtype +:+ " *" +:+ opsc.label f)
          ∧ ((access = "OPS_READ" ∧ qualifier = "const ")
             ∨ ((access = "OPS_WRITE" ∨ access = "OPS_RW")
                ∧ qualifier = "")).
Proof.
  intros H. destruct (get_stencils_dom _ _ _ _ H) as [Hdom _].
  set (F1 := filter (fun f => opsc.is_grid f = true) (opsc.inputs c).*1).
  set (F2 := filter (fun f => opsc.is_grid f = true) (opsc.outputs c).*1).
  set (F3 := filter (fun f => opsc.is_grid f = true)
               (opsc.inputoutput c).*1).
  assert (HG : grid_fields c = F1 ++ F2 ++ F3) by apply grid_fields_app.
  set (g := fun (access : string) (inp : opsc.field) =>
              opsc.ops_argument_call dtype (opsc.label inp)
                (default EmptyString (stencils !! opsc.label inp))
                dtype access).
  assert (Hfe : ∀ access F,
            (∀ f, f ∈ F → f ∈ grid_fields c) →
            for_each
              (fun inp =>
                 s ← match stencils !! opsc.label inp with
                     | Some s => Ok s
                     | None => Raise KeyError
                     end;
                 Ok (opsc.ops_argument_call dtype (opsc.label inp) s dtype
                       access)) F
            = Ok (g access <$> F)).
  { intros access F HF. apply sorting_facts.for_each_total.
    intros f Hf. unfold g.
    destruct (proj2 (Hdom (opsc.label f))) as [s ->]; [|done].
    exists f. split; [by apply HF|done]. }
  exists ((g "OPS_READ" <$> F1) ++ (g "OPS_WRITE" <$> F2)
          ++ (g "OPS_RW" <$> F3)).
  split_and!.
  - unfold opsc.kernel_call_grid_based. fold F1 F2 F3.
    rewrite !Hfe; [done|..]; intros f Hf; rewrite HG, !elem_of_app; auto.
  - by rewrite HG, !length_app, !length_fmap.
  - unfold opsc.kernel_computation_grid_based.
    by rewrite HG, !length_app, !length_fmap.
  - intros i f Hi. rewrite HG in Hi.
    destruct (lookup_app3 (g "OPS_READ") (g "OPS_WRITE") (g "OPS_RW")
                (fun inp => "const " +:+ dtype +:+ " *" +:+ opsc.label inp)
                (fun inp => dtype +:+ " *" +:+ opsc.label inp)
                (fun inp => dtype +:+ " *" +:+ opsc.label inp)
                F1 F2 F3 i f Hi) as (g' & h' & Hg & Hh & Hcases).
    destruct (proj2 (Hdom (opsc.label f))) as [s Hs].
    { exists f. split; [|done]. rewrite HG.
      by apply list_elem_of_lookup_2 in Hi. }
    unfold opsc.kernel_computation_grid_based. fold F1 F2 F3.
    rewrite Hg, Hh.
    destruct Hcases as [[-> ->]|[[-> ->]|[-> ->]]]; unfold g; rewrite Hs;
      simpl.
    + exists s, "OPS_READ", "const ". split_and!; auto.
    + exists s, "OPS_WRITE", "". split_and!; auto.
    + exists s, "OPS_RW", "". split_and!; auto.
Qed.

Lemma call_matches_header_witness :
  ∃ args,
    opsc.kernel_call_grid_based "double" uv_stencils uv_computation = Ok args
    ∧ length args = length (grid_fields uv_computation)
    ∧ length (opsc.kernel_computation_grid_based "double" uv_computation)
      = length (grid_fields uv_computation)
    ∧ ∀ i f, grid_fields uv_computation !! i = Some f →
        ∃ s access qualifier,
          uv_stencils !! opsc.label f = Some s
          ∧ args !! i
            = Some (opsc.ops_argument_call "double" (opsc.label f) s
                      "double" access)
          ∧ opsc.kernel_computation_grid_based "double" uv_computation !! i
            = Some (qualifier +:+ "double" +:+ " *" +:+ opsc.label f)
          ∧ ((access = "OPS_READ" ∧ qualifier = "const ")
             ∨ ((access = "OPS_WRITE" ∨ access = "OPS_RW")
                ∧ qualifier = "")).
Proof.
  apply (call_matches_header opsc.initialise_stencils uv_registry
           uv_computation uv_stencils "double").
  reflexivity.
Defined.

(** *** The declaration of the stencils *)

Lemma has_char_app (c : ascii) (a b : string) :
  has_char c (a +:+ b) = has_char c a || has_char c b.
Proof. induction a as [|x a IH]; simpl; [done|]. by rewrite IH, orb_assoc. Qed.

Lemma has_comma_uint (d : Decimal.uint) :
  has_char ","%char (NilEmpty.string_of_uint d) = false.
Proof. induction d; simpl; done. Qed.

Lemma has_comma_str_int (z : Z) : has_char ","%char (str_int z) = false.
Proof.
  unfold str_int. destruct (Z.to_int z) as [d|d]; simpl.
  - destruct d; try apply has_comma_uint; done.
  - destruct d; try apply has_comma_uint; done.
Qed.

Lemma split_no_sep (c : ascii) (s : string) :
  has_char c s = false → split c s = [s].
Proof.
  induction s as [|x s IH]; simpl; [done|].
  intros H. apply orb_false_iff in H as [Hx Hs]. rewrite Hx.
  by rewrite (IH Hs).
Qed.

Lemma split_sep (c : ascii) (s rest : string) :
  has_char c s = false →
  split c (s +:+ String c rest) = s :: split c rest.
Proof.
  induction s as [|x s IH]; simpl.
  - intros _. by rewrite Ascii.eqb_refl.
  - intros H. apply orb_false_iff in H as [Hx Hs]. rewrite Hx.
    by rewrite (IH Hs).
Qed.

Lemma split_join (l : list string) :
  l ≠ [] → Forall (fun s => has_char ","%char s = false) l →
  split ","%char (join "," l) = l.
Proof.
  induction l as [|s l IH]; [done|]. intros _ Hall.
  apply Forall_cons in Hall as [Hs Hall].
  destruct l as [|s' l]; [by apply split_no_sep|].
  change (join "," (s :: s' :: l))
    with (s +:+ String ","%char (join "," (s' :: l))).
  rewrite split_sep by done. f_equal. by apply IH.
Qed.

Lemma length_concat_uniform {A} (L : list (list A)) (d : nat) :
  Forall (fun t => length t = d) L → length (concat L) = (length L * d)%nat.
Proof.
  induction L as [|t L IH]; intros Hall; simpl; [done|].
  apply Forall_cons in Hall as [Ht Hall].
  rewrite length_app, Ht, IH by done. lia.
Qed.

(** X25.  The number of points that [declare_stencils] works out is the number
    of index tuples.  For a non-empty list of index tuples of [d] entries
    each, [d] not 0, the key that [get_stencils] files the footprint under
    splits at its commas into as many pieces as there are offsets, and the
    division by the number of dimensions gives back the number of tuples. *)
Theorem stencil_points_count (d : nat) (value : list (list index)) :
  d ≠ 0%nat → value ≠ [] →
  Forall (fun va => length va = d) value →
  ∃ sten,
    opsc.relative_stencil (opsc.Many value) = Ok sten
    ∧ split ","%char (opsc.lsit_to_string sten) = str_int <$> sten
    ∧ opsc.stencil_points d (opsc.lsit_to_string sten)
      = inr (Z.of_nat (length value)).
Proof.
  intros Hd Hne Hall.
  rewrite (stencils.relative_stencil_sorted d) by done.
  eexists. split; [reflexivity|].
  set (L := sorted reverse tuple_le (offsets_of value)).
  assert (HL : L ≡ₚ offsets_of value)
    by apply sorting_facts.sorted_Permutation.
  assert (Hlen : length (concat L) = (length value * d)%nat).
  { rewrite (length_concat_uniform L d).
    - rewrite HL. unfold offsets_of. by rewrite length_fmap.
    - rewrite HL. unfold offsets_of. apply Forall_fmap.
      eapply Forall_impl; [exact Hall|]. intros va Hva. simpl.
      by rewrite length_fmap. }
  assert (Hsplit : split ","%char (opsc.lsit_to_string (concat L))
                   = str_int <$> concat L).
  { unfold opsc.lsit_to_string. rewrite sorting_facts.fmap_map.
    apply split_join.
    - intros Hnil. apply fmap_nil_inv in Hnil.
      rewrite Hnil in Hlen. simpl in Hlen.
      destruct value; [done|]. simpl in Hlen. lia.
    - apply Forall_fmap, Forall_forall. intros z _. apply has_comma_str_int. }
  split; [done|].
  unfold opsc.stencil_points. rewrite bool_decide_eq_false_2 by done.
  rewrite Hsplit, length_fmap, Hlen. f_equal.
  rewrite Nat2Z.inj_mul. apply Z.div_mul. lia.
Qed.

Lemma stencil_points_count_witness :
  ∃ sten,
    opsc.relative_stencil (opsc.Many [[x0_plus_1]; [x0]]) = Ok sten
    ∧ split ","%char (opsc.lsit_to_string sten) = str_int <$> sten
    ∧ opsc.stencil_points 1 (opsc.lsit_to_string sten) = inr 2.
Proof.
  apply (stencil_points_count 1 [[x0_plus_1]; [x0]]);
    [done|done|by repeat constructor].
Defined.

Lemma declare_stencils_loop (ndim : nat) (D : list (string * string))
    (code : list string) :
  ndim ≠ 0%nat →
  ∃ code',
    foldl (fun (code : opsc.error + list string) (item : string * string) =>
             match code with
             | inl e => inl e
             | inr code =>
                 let '(key, value) := item in
                 match opsc.stencil_points ndim key with
                 | inl e => inl e
                 | inr count =>
                     inr (code
                          ++ [opsc.array "int" (value +:+ "_temp") [key];
                              "ops_stencil " +:+ value
                              +:+ " = ops_decl_stencil(" +:+ str_nat ndim
                              +:+ "," +:+ str_int count +:+ "," +:+ value
                              +:+ "_temp," +:+ dquote +:+ key +:+ dquote
                              +:+ ");"])
                 end
             end) (inr code) D = inr code'
    ∧ length code' = (length code + 2 * length D)%nat
    ∧ (∀ line, line ∈ code → line ∈ code')
    ∧ ∀ key value, (key, value) ∈ D →
        ∃ count,
          opsc.stencil_points ndim key = inr count
          ∧ opsc.array "int" (value +:+ "_temp") [key] ∈ code'
          ∧ ("ops_stencil " +:+ value +:+ " = ops_decl_stencil("
             +:+ str_nat ndim +:+ "," +:+ str_int count +:+ "," +:+ value
             +:+ "_temp," +:+ dquote +:+ key +:+ dquote +:+ ");") ∈ code'.
Proof.
  intros Hd.
  assert (Hsp : ∀ key, opsc.stencil_points ndim key
                       = inr (Z.of_nat (length (split ","%char key))
                              / Z.of_nat ndim)).
  { intros key. unfold opsc.stencil_points.
    by rewrite bool_decide_eq_false_2. }
  revert code. induction D as [|[key value] D IH]; intros code.
  - exists code. simpl. split_and!; [done|lia|done|].
    intros key value Hin. by apply elem_of_nil in Hin.
  - cbn [foldl]. rewrite (Hsp key).
    destruct (IH (code
                  ++ [opsc.array "int" (value +:+ "_temp") [key];
                      "ops_stencil " +:+ value
                      +:+ " = ops_decl_stencil(" +:+ str_nat ndim
                      +:+ "," +:+ str_int
                                    (Z.of_nat (length (split ","%char key))
                                     / Z.of_nat ndim)
                      +:+ "," +:+ value
                      +:+ "_temp," +:+ dquote +:+ key +:+ dquote
                      +:+ ");"]))
      as (code' & Hfold & Hlen & Hkeep & Hall).
    exists code'. split_and!.
    + exact Hfold.
    + rewrite Hlen, length_app. simpl. lia.
    + intros line Hline. apply Hkeep, elem_of_app. by left.
    + intros k v Hin. apply elem_of_cons in Hin as [[= -> ->]|Hin];
        [|by apply Hall].
      eexists. split_and!.
      * apply Hsp.
      * apply Hkeep, elem_of_app. right. apply list_elem_of_here.
      * apply Hkeep, elem_of_app. right.
        apply list_elem_of_further, list_elem_of_here.
Qed.

(** X26.  [declare_stencils] declares every stencil of the dictionary.  With a
    number of dimensions that is not 0 it returns the comment line and two
    lines for each entry, the array of the offsets and the declaration of the
    stencil under its name; with 0 dimensions and a dictionary that is not
    empty the division raises. *)
Theorem declare_stencils_lines (self : opsc.OPSC) (ndim : nat) :
  (ndim ≠ 0%nat →
   ∃ code,
     opsc.declare_stencils self ndim = inr code
     ∧ length code = (1 + 2 * length (opsc.stencil_dictionary self))%nat
     ∧ ∀ key value, (key, value) ∈ opsc.stencil_dictionary self →
         ∃ count,
           opsc.stencil_points ndim key = inr count
           ∧ opsc.array "int" (value +:+ "_temp") [key] ∈ code
           ∧ ("ops_stencil " +:+ value +:+ " = ops_decl_stencil("
              +:+ str_nat ndim +:+ "," +:+ str_int count +:+ "," +:+ value
              +:+ "_temp," +:+ dquote +:+ key +:+ dquote +:+ ");") ∈ code)
  ∧ (ndim = 0%nat → opsc.stencil_dictionary self ≠ [] →
     opsc.declare_stencils self ndim = inl opsc.ZeroDivisionError).
Proof.
  split.
  - intros Hd. unfold opsc.declare_stencils.
    destruct (declare_stencils_loop ndim (opsc.stencil_dictionary self)
                ["// Declare all the stencils used "] Hd)
      as (code & Hfold & Hlen & _ & Hall).
    exists code. by split_and!.
  - intros -> Hne. unfold opsc.declare_stencils.
    destruct (opsc.stencil_dictionary self) as [|[key value] D]; [done|].
    simpl. clear. induction D as [|[k v] D IH]; [done|]. simpl. exact IH.
Qed.

(** *** The arrays and constants to declare *)

(** X27.  The definitions only accumulate.  [update_definitions] keeps every
    array and every constant it had; it adds the grid-based fields of the
    computation to the arrays, and the other fields and the constants of the
    computation to the constants; the same computation once more adds
    nothing.  For a single block, [define_dat] then declares every grid-based
    field of the computation; for several blocks it raises. *)
Theorem definitions_accumulate (self : opsc.Definitions)
    (c : opsc.Computation) (constants : list string) :
  let self' := opsc.update_definitions self c constants in
  opsc.grid_based_arrays self ⊆ opsc.grid_based_arrays self'
  ∧ opsc.constants self ⊆ opsc.constants self'
  ∧ opsc.update_definitions self' c constants = self'
  ∧ (∀ f, f ∈ (items_of c).*1 →
          if opsc.is_grid f
          then opsc.label f ∈ opsc.grid_based_arrays self'
          else opsc.label f ∈ opsc.constants self')
  ∧ (∀ k, k ∈ constants → k ∈ opsc.constants self')
  ∧ (∃ code,
       opsc.define_dat false self' = inr code
       ∧ ∀ f, f ∈ grid_fields c →
              ("ops_dat " +:+ opsc.label f +:+ ";") ∈ code)
  ∧ opsc.define_dat true self'
    = inl (opsc.NotImplementedError "Multi block is not implemented").
Proof.
  intros self'.
  assert (Hgrid : ∀ f, f ∈ (items_of c).*1 → opsc.is_grid f = true →
                       opsc.label f ∈ opsc.grid_based_arrays self').
  { intros f Hf Hg. unfold self', opsc.update_definitions. simpl.
    apply elem_of_union. right.
    apply elem_of_list_to_set, list_elem_of_fmap. exists f. split; [done|].
    apply list_elem_of_filter. split; [done|].
    unfold items_of in Hf. by rewrite !fmap_app in Hf. }
  split_and!.
  - unfold self'. simpl. set_solver.
  - unfold self'. simpl. set_solver.
  - unfold self', opsc.update_definitions. simpl. f_equal; set_solver.
  - intros f Hf. destruct (opsc.is_grid f) eqn:Hg; [by apply Hgrid|].
    unfold self', opsc.update_definitions. simpl.
    apply elem_of_union. left. apply elem_of_union. right.
    apply elem_of_list_to_set, list_elem_of_fmap. exists f. split; [done|].
    apply list_elem_of_filter. split; [done|].
    unfold items_of in Hf. by rewrite !fmap_app in Hf.
  - intros k Hk. unfold self'. simpl. set_solver.
  - eexists. split; [reflexivity|]. intros f Hf.
    apply list_elem_of_filter in Hf as [Hg Hf].
    apply elem_of_app. right. apply list_elem_of_fmap.
    exists (opsc.label f). split; [done|].
    apply elem_of_elements. by apply Hgrid.
  - done.
Qed.

(** *** The canonical form of a footprint *)

Lemma sorted_Permutation_eq (key : list Z -> list Z) (l l' : list (list Z)) :
  Inj (=) (=) key → l ≡ₚ l' →
  sorted key tuple_le l = sorted key tuple_le l'.
Proof.
  intros Hinj Hp. apply sorting_facts.sorted_unique; [done| |].
  - by rewrite sorting_facts.sorted_Permutation.
  - apply sorting_facts.sorted_StronglySorted;
      [apply sorting_facts.tuple_le_total|apply sorting_facts.tuple_le_trans].
Qed.

(** X28.  The footprint does not depend on the order of the accesses.  Two
    lists of index tuples that give the same offsets, in whatever order, have
    the same relative stencil, hence the same key in the registry; and the
    sorted list of a [StencilObject] is the same for every order in which its
    set is gone through. *)
Theorem footprint_order_independent (d : nat)
    (value value' : list (list index)) (l l' : list (list Z)) :
  Forall (fun va => length va = d) value →
  offsets_of value ≡ₚ offsets_of value' →
  Forall (fun t => length t = d) l →
  l ≡ₚ l' →
  opsc.relative_stencil (opsc.Many value)
  = opsc.relative_stencil (opsc.Many value')
  ∧ kernel.StencilObject_sort_stencil_indices id l
    = kernel.StencilObject_sort_stencil_indices id l'.
Proof.
  intros Hall Hp Hl Hpl. split.
  - destruct value as [|va value].
    + apply Permutation_nil_l in Hp. destruct value'; [done|].
      discriminate Hp.
    + assert (Hne' : value' ≠ []).
      { intros ->. by apply Permutation_nil_r in Hp. }
      assert (Hall' : Forall (fun va => length va = d) value').
      { assert (Ho : Forall (fun t => length t = d) (offsets_of value')).
        { rewrite <- Hp. unfold offsets_of. apply Forall_fmap.
          eapply Forall_impl; [exact Hall|]. intros t Ht. simpl.
          by rewrite length_fmap. }
        unfold offsets_of in Ho. rewrite Forall_fmap in Ho.
        eapply Forall_impl; [exact Ho|]. intros t Ht. simpl in Ht.
        by rewrite length_fmap in Ht. }
      rewrite (stencils.relative_stencil_sorted d (va :: value)) by done.
      rewrite (stencils.relative_stencil_sorted d value') by done.
      do 2 f_equal. apply sorted_Permutation_eq; [|done].
      intros a b Hab. by apply (inj reverse).
  - destruct l as [|t l].
    + apply Permutation_nil_l in Hpl. by subst l'.
    + assert (Hne' : l' ≠ []).
      { intros ->. by apply Permutation_nil_r in Hpl. }
      rewrite (sorting_facts.StencilObject_sort_lex d (t :: l)) by done.
      rewrite (sorting_facts.StencilObject_sort_lex d l')
        by (by rewrite <- ?Hpl).
      f_equal. apply (sorted_Permutation_eq (fun t => t)); [|done].
      by intros a b.
Qed.

Lemma footprint_order_independent_witness :
  opsc.relative_stencil (opsc.Many [[x0_plus_1]; [x0]])
  = opsc.relative_stencil (opsc.Many [[x0]; [x0_plus_1]])
  ∧ kernel.StencilObject_sort_stencil_indices id [[1]; [0]]
    = kernel.StencilObject_sort_stencil_indices id [[0]; [1]].
Proof.
  apply (footprint_order_independent 1); [by repeat constructor| |
    by repeat constructor|]; apply Permutation_swap.
Defined.

End emitter.

(** ** The stencil of the older generator *)

Module legacy.

(** X29.  [get_kernel] of autofd/opsc.py does add the zero tuple.  For index
    tuples of [ndim] entries each, [ndim] not 0, the stencil is the flat list
    of tuples that has the zero tuple, the tuples given and no other, none of
    them twice, in the order that [OPSC.sort_stencil_indices] produces. *)
Theorem get_kernel_stencil_zero (ndim : nat) (indexes : list (list Z)) :
  ndim ≠ 0%nat →
  Forall (fun t => length t = ndim) indexes →
  ∃ tuples,
    autofd.get_kernel_stencil ndim indexes = inr (concat tuples)
    ∧ replicate ndim 0 ∈ tuples
    ∧ NoDup tuples
    ∧ (∀ t, t ∈ tuples ↔ t ∈ indexes ∨ t = replicate ndim 0)
    ∧ opsc.sort_stencil_indices tuples = Ok (concat tuples).
Proof.
  intros Hn Hall. unfold autofd.get_kernel_stencil.
  destruct ndim as [|n]; [done|].
  remember (elements (list_to_set (indexes ++ [replicate (S n) 0])
                      : gset (list Z))) as L eqn:EL.
  assert (HL : ∀ t, t ∈ L ↔ t ∈ indexes ∨ t = replicate (S n) 0).
  { intros t. rewrite EL.
    rewrite elem_of_elements, elem_of_list_to_set, elem_of_app,
      list_elem_of_singleton. done. }
  assert (Hnd : NoDup L) by (rewrite EL; apply NoDup_elements).
  clear EL.
  assert (Hlen : Forall (fun t => length t = S n) L).
  { apply Forall_forall. intros t Ht. apply HL in Ht as [Ht| ->].
    - rewrite Forall_forall in Hall. by apply Hall.
    - apply length_replicate. }
  assert (Hne : L ≠ []).
  { intros Hnil. assert (H0 : replicate (S n) 0 ∈ L) by (apply HL; by right).
    rewrite Hnil in H0. by apply elem_of_nil in H0. }
  set (tuples := sorted reverse tuple_le L).
  assert (Hp : tuples ≡ₚ L) by apply sorting_facts.sorted_Permutation.
  pose proof (sorting_facts.sort_stencil_indices_colex (S n) L Hne Hlen)
    as Hsort.
  exists tuples. split_and!.
  - unfold opsc.sort_stencil_indices in Hsort.
    destruct (getitem L 0%nat) as [first|e] eqn:Hg; [|done].
    assert (Hfirst : length first = S n).
    { unfold getitem in Hg. destruct (L !! 0%nat) as [t|] eqn:Ht; [|done].
      injection Hg as ->. rewrite Forall_forall in Hlen.
      by apply Hlen, (list_elem_of_lookup_2 _ 0%nat). }
    simpl in Hsort. rewrite Hfirst in Hsort.
    destruct (Nat.ltb 1 (S n)).
    + destruct (opsc.sort_dimensions (seq 0 (S n)) L) as [l'|e];
        simpl in Hsort; [|done].
      injection Hsort as Hs. by rewrite Hs.
    + injection Hsort as Hs. by rewrite Hs.
  - rewrite Hp. apply HL. by right.
  - by rewrite Hp.
  - intros t. by rewrite Hp.
  - rewrite (sorting_facts.sort_stencil_indices_colex (S n) tuples).
    + do 2 f_equal. symmetry. apply sorting_facts.sorted_unique.
      * apply _.
      * done.
      * apply sorting_facts.sorted_StronglySorted;
          [apply sorting_facts.tuple_le_total
          |apply sorting_facts.tuple_le_trans].
    + intros Hnil. apply Hne. apply Permutation_nil_r.
      by rewrite <- Hp, Hnil.
    + by rewrite Hp.
Qed.

Lemma get_kernel_stencil_zero_witness :
  ∃ tuples,
    autofd.get_kernel_stencil 1 [[1]] = inr (concat tuples)
    ∧ replicate 1 0 ∈ tuples
    ∧ NoDup tuples
    ∧ (∀ t, t ∈ tuples ↔ t ∈ [[1]] ∨ t = replicate 1 0)
    ∧ opsc.sort_stencil_indices tuples = Ok (concat tuples).
Proof.
  apply (get_kernel_stencil_zero 1 [[1]]); [done|by repeat constructor].
Defined.

End legacy.

(** ** User-defined kernels *)

Module user_kernel.




End user_kernel.
